(** * Moop: reversible bit substrate, dissipative layer, HRIR consistency
  checker and the L3 actor runtime, embedded from the C sources.

  Conventions of the embedding.
  - [uint32_t] and [size_t] values are [N]; [int] values are [Z]; a
    [uint8_t] bit cell is a [Z].  Conversions and wrap-around are written
    out where the C code performs them.
  - A C array together with its element count is a [list]; a pointer to a
    heap cell is the index of the cell in the owning store, so that two
    arrays holding the same pointer alias the same cell.
  - Functions that mutate their argument return the new value next to
    their C return value.
  - [malloc]/[realloc] are taken to succeed, so capacities that only
    drive reallocation are not represented.  A [uint32_t] capacity that
    is doubled when the array is full wraps to 0 once the array holds
    [2^31] elements, and the store that follows is out of bounds: the
    embedding describes the arrays below that size, and a statement
    about arbitrarily many insertions carries the bound. *)

From Stdlib Require Import ZArith NArith String Ascii List Bool Lia DecimalString.
From Stdlib Require Import Floats.PrimFloat Numbers.Cyclic.Int63.Uint63.
From stdpp Require Import base tactics option list.

Local Open Scope N_scope.

(** ** C library functions used by the sources *)

Module LibC.

Definition char_code (c : ascii) : Z := Z.of_N (N_of_ascii c).

(** [isspace], [isdigit], [isalpha], [isalnum], [isupper] in the C locale. *)
Definition isspace (c : ascii) : bool :=
  let n := char_code c in
  ((n =? 32) || ((9 <=? n) && (n <=? 13)))%Z.

Definition isdigit (c : ascii) : bool :=
  let n := char_code c in ((48 <=? n) && (n <=? 57))%Z.

Definition isupper (c : ascii) : bool :=
  let n := char_code c in ((65 <=? n) && (n <=? 90))%Z.

Definition islower (c : ascii) : bool :=
  let n := char_code c in ((97 <=? n) && (n <=? 122))%Z.

Definition isalnum (c : ascii) : bool :=
  isdigit c || isupper c || islower c.

Fixpoint skip_space (s : string) : string :=
  match s with
  | String c s' => if isspace c then skip_space s' else s
  | EmptyString => s
  end.

(** Value of the longest prefix of decimal digits, accumulated on [acc]. *)
Fixpoint digits_value (s : string) (acc : Z) : Z :=
  match s with
  | String c s' =>
      if isdigit c then digits_value s' (10 * acc + (char_code c - 48))%Z
      else acc
  | EmptyString => acc
  end.

Definition LONG_MAX : Z := 9223372036854775807.
Definition LONG_MIN : Z := -9223372036854775808.
Definition INT_MAX : Z := 2147483647.

(** [strtol(s, NULL, 10)]: leading white space, an optional sign, decimal
    digits; the result saturates at the bounds of [long]. *)
Definition strtol10 (s : string) : Z :=
  match skip_space s with
  | String "-" s' => Z.max LONG_MIN (- digits_value s' 0)
  | String "+" s' => Z.min LONG_MAX (digits_value s' 0)
  | s' => Z.min LONG_MAX (digits_value s' 0)
  end.

(** Conversion of an integer to [int] (two's complement, 32 bits). *)
Definition to_int (z : Z) : Z := ((z + 2 ^ 31) mod 2 ^ 32 - 2 ^ 31)%Z.

(** Conversion of an integer to [uint32_t]. *)
Definition to_uint32 (z : Z) : N := Z.to_N (z mod 2 ^ 32).

(** [atoi] as the C library defines it: [(int) strtol(s, NULL, 10)]. *)
Definition atoi (s : string) : Z := to_int (strtol10 s).

(** [strcmp(a, b) == 0]. *)
Definition streq (a b : string) : bool := String.eqb a b.

End LibC.

(** ** R layer: reversible substrate (r_layer.h, r_layer.c) *)

Module R.
Import LibC.

(** A pointer to a cell of the runtime: its index in [cells]. *)
Definition cell_ptr := nat.

Record HRIR_Cell := mkCell {
  id : N;
  opcode : string;
  args : list string;
  inverse : option cell_ptr;
  is_reversible : bool;
  canonical_path : option string;
  source_location : option string;
  executed : bool;
  dependencies : list cell_ptr;
  dependents : list cell_ptr
}.

Definition arg_count (c : HRIR_Cell) : N := N.of_nat (length (args c)).

Definition set_executed (b : bool) (c : HRIR_Cell) : HRIR_Cell :=
  mkCell (id c) (opcode c) (args c) (inverse c) (is_reversible c)
         (canonical_path c) (source_location c) b
         (dependencies c) (dependents c).

Record R_Checkpoint := mkCheckpoint {
  cp_id : N;
  qubit_state : list Z;
  execution_index : N;
  label : option string;
  timestamp : Z
}.

Definition cp_qubit_count (cp : R_Checkpoint) : N :=
  N.of_nat (length (qubit_state cp)).

(** [qubits], [cells] and [checkpoints] carry their counts as their
    lengths.  [execution_history] keeps every slot written so far;
    [execution_count] is the separate counter of the C struct, which
    [r_rewind_to_index] and [r_restore_checkpoint] move back without
    clearing the slots above it. *)
Record R_Memory := mkMemory {
  qubits : list Z;
  cells : list HRIR_Cell;
  checkpoints : list R_Checkpoint;
  execution_history : list cell_ptr;
  execution_count : N
}.

Definition qubit_count (m : R_Memory) : N := N.of_nat (length (qubits m)).
Definition cell_count (m : R_Memory) : N := N.of_nat (length (cells m)).
Definition checkpoint_count (m : R_Memory) : N :=
  N.of_nat (length (checkpoints m)).

Record R_Runtime := mkRuntime {
  memory : R_Memory;
  next_cell_id : N;
  instance_id : N
}.

Definition set_qubits (q : list Z) (rt : R_Runtime) : R_Runtime :=
  let m := memory rt in
  mkRuntime (mkMemory q (cells m) (checkpoints m) (execution_history m)
                      (execution_count m))
            (next_cell_id rt) (instance_id rt).

Definition set_cells (cs : list HRIR_Cell) (rt : R_Runtime) : R_Runtime :=
  let m := memory rt in
  mkRuntime (mkMemory (qubits m) cs (checkpoints m) (execution_history m)
                      (execution_count m))
            (next_cell_id rt) (instance_id rt).

Definition set_history (h : list cell_ptr) (n : N) (rt : R_Runtime)
  : R_Runtime :=
  let m := memory rt in
  mkRuntime (mkMemory (qubits m) (cells m) (checkpoints m) h n)
            (next_cell_id rt) (instance_id rt).

Definition set_execution_count (n : N) (rt : R_Runtime) : R_Runtime :=
  set_history (execution_history (memory rt)) n rt.

(** [q[a]] and [q[a] = v] on a bit array; callers check the bound first. *)
Definition qget (q : list Z) (a : N) : Z := default 0%Z (q !! N.to_nat a).
Definition qset (q : list Z) (a : N) (v : Z) : list Z :=
  <[N.to_nat a := v]> q.

(** [arr[n] = x] on a growable array of which [length arr] slots have
    been written: an existing slot is overwritten, the next one appended. *)
Definition array_store {A} (arr : list A) (n : N) (x : A) : list A :=
  if (N.to_nat n <? length arr)%nat then <[N.to_nat n := x]> arr
  else arr ++ [x].

Definition r_runtime_init (qubit_count instance_id : N) : R_Runtime :=
  mkRuntime (mkMemory (repeat 0%Z (N.to_nat qubit_count)) [] [] [] 0)
            0 instance_id.

(** [cell_capacity] starts at 1024 and is doubled whenever [cell_count]
    has reached it, so it is [2^31] from [2^30 + 1] cells on and wraps to
    0 in the call made with [cell_count = 2^31]; that call stores the
    cell after [realloc(cells, 0)], out of bounds.  The definition gives
    the calls made with [cell_count < 2^31], that is the creation of the
    cells of index [0] to [2^31 - 1]. *)
Definition r_create_cell (rt : R_Runtime) (opcode : string)
    (args : list string) (canonical_path : option string)
  : cell_ptr * R_Runtime :=
  let m := memory rt in
  let cell := mkCell (next_cell_id rt) opcode args None true
                     canonical_path None false [] [] in
  (length (cells m),
   mkRuntime (mkMemory (qubits m) (cells m ++ [cell]) (checkpoints m)
                       (execution_history m) (execution_count m))
             (to_uint32 (Z.of_N (next_cell_id rt) + 1)) (instance_id rt)).

(** *** The four reversible primitives *)

Definition r_execute_CCNOT (rt : R_Runtime) (a b c : N) : bool * R_Runtime :=
  let q := qubits (memory rt) in
  if (qubit_count (memory rt) <=? a) || (qubit_count (memory rt) <=? b)
     || (qubit_count (memory rt) <=? c)
  then (false, rt)
  else if negb (qget q a =? 0)%Z && negb (qget q b =? 0)%Z
       then (true, set_qubits (qset q c (Z.lxor (qget q c) 1)) rt)
       else (true, rt).

Definition r_execute_CNOT (rt : R_Runtime) (a b : N) : bool * R_Runtime :=
  let q := qubits (memory rt) in
  if (qubit_count (memory rt) <=? a) || (qubit_count (memory rt) <=? b)
  then (false, rt)
  else if negb (qget q a =? 0)%Z
       then (true, set_qubits (qset q b (Z.lxor (qget q b) 1)) rt)
       else (true, rt).

Definition r_execute_NOT (rt : R_Runtime) (a : N) : bool * R_Runtime :=
  let q := qubits (memory rt) in
  if qubit_count (memory rt) <=? a then (false, rt)
  else (true, set_qubits (qset q a (Z.lxor (qget q a) 1)) rt).

Definition r_execute_SWAP (rt : R_Runtime) (a b : N) : bool * R_Runtime :=
  let q := qubits (memory rt) in
  if (qubit_count (memory rt) <=? a) || (qubit_count (memory rt) <=? b)
  then (false, rt)
  else
    let temp := qget q a in
    let q1 := qset q a (qget q b) in
    (true, set_qubits (qset q1 b temp) rt).

(** *** Qubit access *)

Definition r_read_qubit (rt : R_Runtime) (index : N) : Z :=
  if qubit_count (memory rt) <=? index then 0%Z
  else qget (qubits (memory rt)) index.

Definition r_write_qubit (rt : R_Runtime) (index : N) (value : Z)
  : bool * R_Runtime :=
  if qubit_count (memory rt) <=? index then (false, rt)
  else (true, set_qubits (qset (qubits (memory rt)) index (Z.land value 1)) rt).

(** *** Executing a cell *)

(** [args[i] = (uint32_t)atoi(cell->args[i])] for [i < arg_count && i < 3],
    the other slots staying [0]. *)
Definition parse_arg (c : HRIR_Cell) (i : nat) : N :=
  if (i <? 3)%nat then
    match args c !! i with
    | Some s => to_uint32 (atoi s)
    | None => 0
    end
  else 0.

Definition dispatch_gate (rt : R_Runtime) (c : HRIR_Cell) : bool * R_Runtime :=
  let a0 := parse_arg c 0 in
  let a1 := parse_arg c 1 in
  let a2 := parse_arg c 2 in
  if streq (opcode c) "CCNOT" && (arg_count c =? 3) then r_execute_CCNOT rt a0 a1 a2
  else if streq (opcode c) "CNOT" && (arg_count c =? 2) then r_execute_CNOT rt a0 a1
  else if streq (opcode c) "NOT" && (arg_count c =? 1) then r_execute_NOT rt a0
  else if streq (opcode c) "SWAP" && (arg_count c =? 2) then r_execute_SWAP rt a0 a1
  else (false, rt).

(** A cell pointer that does not designate a cell of the runtime is
    treated like [NULL]. *)
Definition r_execute_cell (rt : R_Runtime) (cell : cell_ptr) : bool * R_Runtime :=
  match cells (memory rt) !! cell with
  | None => (false, rt)
  | Some c =>
      if executed c then (false, rt)
      else
        let '(success, rt1) := dispatch_gate rt c in
        if success then
          let rt2 := set_cells (<[cell := set_executed true c]> (cells (memory rt1))) rt1 in
          let m2 := memory rt2 in
          (true, set_history (array_store (execution_history m2) (execution_count m2) cell)
                             (execution_count m2 + 1) rt2)
        else (false, rt1)
  end.

(** *** Inverse operations *)

Definition r_get_inverse (cell : option cell_ptr) : option cell_ptr := cell.

Definition r_execute_inverse (rt : R_Runtime) (cell : cell_ptr)
  : bool * R_Runtime :=
  r_execute_cell rt cell.

(** *** Time travel *)

(** The loop [for (i = execution_count; i > execution_index; i--)] of
    [r_rewind_to_index]; [n] is the number of iterations left and [i] the
    loop variable, read once when the loop starts. *)
Fixpoint rewind_loop (n : nat) (i : N) (rt : R_Runtime) : R_Runtime :=
  match n with
  | O => rt
  | S n' =>
      let rt' :=
        match execution_history (memory rt) !! N.to_nat (i - 1) with
        | Some cell => snd (r_execute_inverse rt cell)
        | None => rt
        end in
      rewind_loop n' (i - 1) rt'
  end.

Definition r_rewind_to_index (rt : R_Runtime) (execution_index : N)
  : bool * R_Runtime :=
  let count := execution_count (memory rt) in
  if count <? execution_index then (false, rt)
  else
    let rt1 := rewind_loop (N.to_nat (count - execution_index)) count rt in
    (true, set_execution_count execution_index rt1).

Definition r_step_forward (rt : R_Runtime) : bool * R_Runtime :=
  if cell_count (memory rt) <=? execution_count (memory rt) then (false, rt)
  else r_execute_cell rt (N.to_nat (execution_count (memory rt))).

Definition r_step_backward (rt : R_Runtime) : bool * R_Runtime :=
  if execution_count (memory rt) =? 0 then (false, rt)
  else r_rewind_to_index rt (execution_count (memory rt) - 1).

(** *** Checkpoints *)

(** The value of [time(NULL)] is [now]; the checkpoint keeps it as a
    [uint64_t].  The checkpoint holds a copy of the bit array. *)
Definition r_save_checkpoint (rt : R_Runtime) (label : option string) (now : Z)
  : R_Checkpoint * R_Runtime :=
  let m := memory rt in
  let checkpoint :=
    mkCheckpoint (checkpoint_count m) (qubits m) (execution_count m) label
                 (now mod 2 ^ 64)%Z in
  (checkpoint,
   mkRuntime (mkMemory (qubits m) (cells m) (checkpoints m ++ [checkpoint])
                       (execution_history m) (execution_count m))
             (next_cell_id rt) (instance_id rt)).

(** The loop [for (i = execution_index; i < cell_count; i++)
    cells[i]->executed = false], from [i] with [n] iterations left. *)
Fixpoint unmark_loop (n : nat) (i : N) (cs : list HRIR_Cell) : list HRIR_Cell :=
  match n with
  | O => cs
  | S n' => unmark_loop n' (i + 1) (alter (set_executed false) (N.to_nat i) cs)
  end.

Definition r_restore_checkpoint (rt : R_Runtime) (checkpoint : option R_Checkpoint)
  : bool * R_Runtime :=
  match checkpoint with
  | None => (false, rt)
  | Some cp =>
      let m := memory rt in
      if negb (cp_qubit_count cp =? qubit_count m) then (false, rt)
      else
        (true,
         mkRuntime (mkMemory (qubit_state cp)
                             (unmark_loop (N.to_nat (cell_count m - execution_index cp))
                                          (execution_index cp) (cells m))
                             (checkpoints m) (execution_history m)
                             (execution_index cp))
                   (next_cell_id rt) (instance_id rt))
  end.

End R.

(** ** D layer: dissipative gates hosted on the R layer (d_layer.h, d_layer.c) *)

Module D.
Import LibC R.

Record D_Runtime := mkD {
  r_runtime : R_Runtime;
  ancilla_start : N;
  ancilla_count : N
}.

Definition set_r (r : R_Runtime) (rt : D_Runtime) : D_Runtime :=
  mkD r (ancilla_start rt) (ancilla_count rt).

(** The sum [qubit_count + ancilla_count] is computed on [uint32_t]. *)
Definition d_runtime_init (qubit_count ancilla_count instance_id : N)
  : D_Runtime :=
  mkD (r_runtime_init (to_uint32 (Z.of_N (qubit_count + ancilla_count)))
                      instance_id)
      qubit_count ancilla_count.

Definition d_execute_AND (rt : D_Runtime) (a b result : N) : bool * D_Runtime :=
  let result_val := r_read_qubit (r_runtime rt) result in
  let r1 := if negb (result_val =? 0)%Z
            then snd (r_execute_NOT (r_runtime rt) result)
            else r_runtime rt in
  let '(ok, r2) := r_execute_CCNOT r1 a b result in
  (ok, set_r r2 rt).

Definition d_execute_OR (rt : D_Runtime) (a b result : N) : bool * D_Runtime :=
  if ancilla_count rt <? 2 then (false, rt)
  else
    let ancilla_a := ancilla_start rt in
    let ancilla_b := to_uint32 (Z.of_N (ancilla_start rt + 1)) in
    let r0 := r_runtime rt in
    let r1 := snd (r_write_qubit r0 ancilla_a (r_read_qubit r0 a)) in
    let r2 := snd (r_execute_NOT r1 ancilla_a) in
    let r3 := snd (r_write_qubit r2 ancilla_b (r_read_qubit r2 b)) in
    let r4 := snd (r_execute_NOT r3 ancilla_b) in
    let d5 := snd (d_execute_AND (set_r r4 rt) ancilla_a ancilla_b result) in
    let r6 := snd (r_execute_NOT (r_runtime d5) result) in
    (true, set_r r6 d5).

Definition d_execute_NAND (rt : D_Runtime) (a b result : N) : bool * D_Runtime :=
  let d1 := snd (d_execute_AND rt a b result) in
  let r2 := snd (r_execute_NOT (r_runtime d1) result) in
  (true, set_r r2 d1).

Definition d_execute_NOR (rt : D_Runtime) (a b result : N) : bool * D_Runtime :=
  let d1 := snd (d_execute_OR rt a b result) in
  let r2 := snd (r_execute_NOT (r_runtime d1) result) in
  (true, set_r r2 d1).

Definition d_execute_XOR (rt : D_Runtime) (a b result : N) : bool * D_Runtime :=
  let result_val := r_read_qubit (r_runtime rt) result in
  let r1 := if negb (result_val =? 0)%Z
            then snd (r_execute_NOT (r_runtime rt) result)
            else r_runtime rt in
  let r2 := snd (r_execute_CNOT r1 a result) in
  let r3 := snd (r_execute_CNOT r2 b result) in
  (true, set_r r3 rt).

(** The bit array of a D runtime. *)
Definition bits (rt : D_Runtime) : list Z := qubits (memory (r_runtime rt)).

(** *** Checkpoints and stepping, inherited from the R layer *)

Definition d_save_checkpoint (rt : D_Runtime) (label : option string) (now : Z)
  : R_Checkpoint * D_Runtime :=
  let '(checkpoint, r) := r_save_checkpoint (r_runtime rt) label now in
  (checkpoint, set_r r rt).

Definition d_restore_checkpoint (rt : D_Runtime) (checkpoint : option R_Checkpoint)
  : bool * D_Runtime :=
  let '(ok, r) := r_restore_checkpoint (r_runtime rt) checkpoint in
  (ok, set_r r rt).

Definition d_step_backward (rt : D_Runtime) : bool * D_Runtime :=
  let '(ok, r) := r_step_backward (r_runtime rt) in (ok, set_r r rt).

Definition d_step_forward (rt : D_Runtime) : bool * D_Runtime :=
  let '(ok, r) := r_step_forward (r_runtime rt) in (ok, set_r r rt).

(** *** The MAYBE primitive *)

(** [superposition_data] is an opaque pointer, kept as an address. *)
Record D_Maybe := mkMaybe {
  is_resolved : bool;
  value : bool;
  superposition_data : N
}.

Definition d_create_maybe (superposition_data : N) : D_Maybe :=
  mkMaybe false false superposition_data.

Definition d_resolve_maybe (maybe : option D_Maybe) (v : bool)
  : bool * option D_Maybe :=
  match maybe with
  | None => (false, None)
  | Some m =>
      if is_resolved m then (false, maybe)
      else (true, Some (mkMaybe true v (superposition_data m)))
  end.

Definition d_is_resolved (maybe : option D_Maybe) : bool :=
  match maybe with
  | Some m => is_resolved m
  | None => false
  end.

End D.

(** ** HRIR programs and their runtime (hr_ir.h, hr_ir.c) *)

Module HRIR.
Import LibC.

(** The cell owns its inverse, which is a cell again. *)
#[warnings="-register-all"]
Inductive HRIR_Cell := mkCell {
  id : N;
  opcode : string;
  args : list string;
  inverse : option HRIR_Cell;
  is_reversible : bool;
  source_location : option string;
  line_number : N;
  canonical_path : option string;
  executed : bool;
  result : option string
}.

Definition set_exec (e : bool) (r : option string) (c : HRIR_Cell) : HRIR_Cell :=
  mkCell (id c) (opcode c) (args c) (inverse c) (is_reversible c)
         (source_location c) (line_number c) (canonical_path c) e r.

(** [cell_count] is the length of [cells]. *)
Record HRIR_Program := mkProgram {
  cells : list HRIR_Cell;
  pc : N;
  source_name : option string;
  next_id : N
}.

Definition cell_count (p : HRIR_Program) : N := N.of_nat (length (cells p)).

(** The runtime points to the caller's program; here it carries it, and
    functions working through a runtime hand the program back with it. *)
Record HRIR_Runtime := mkRuntime {
  program : HRIR_Program;
  checkpoint : N;
  steps_executed : N;
  rollbacks : N;
  last_error : option string
}.

(** [size_t] counters wrap modulo [SIZE_MOD]; [pc + 1] cannot wrap, being
    at most [cell_count]. *)
Definition SIZE_MOD : N := 2 ^ 64.

Definition hr_ir_create_cell (opcode : string) (args : list string) : HRIR_Cell :=
  mkCell 0 opcode args None true None 0 None false None.

Definition hr_ir_create_inverse (cell : HRIR_Cell) : option HRIR_Cell :=
  if negb (is_reversible cell) then None
  else if streq (opcode cell) "add" then Some (hr_ir_create_cell "subtract" (args cell))
  else if streq (opcode cell) "subtract" then Some (hr_ir_create_cell "add" (args cell))
  else if streq (opcode cell) "multiply" then Some (hr_ir_create_cell "divide" (args cell))
  else if streq (opcode cell) "divide" then Some (hr_ir_create_cell "multiply" (args cell))
  else None.

Definition hr_ir_from_d_term_operation (operation : string)
    (arguments : list string) : HRIR_Cell :=
  let c := hr_ir_create_cell operation arguments in
  mkCell (id c) (opcode c) (args c) (inverse c) false
         (source_location c) (line_number c) (canonical_path c)
         (executed c) (result c).

Definition hr_ir_create_program (source_name : option string) : HRIR_Program :=
  mkProgram [] 0 source_name 1.

Definition hr_ir_add_cell (p : HRIR_Program) (cell : HRIR_Cell)
  : bool * HRIR_Program :=
  let inv := if is_reversible cell then
               match inverse cell with
               | None => hr_ir_create_inverse cell
               | Some i => Some i
               end
             else inverse cell in
  let cell' := mkCell (next_id p) (opcode cell) (args cell) inv
                      (is_reversible cell) (source_location cell)
                      (line_number cell) (canonical_path cell)
                      (executed cell) (result cell) in
  (true, mkProgram (cells p ++ [cell']) (pc p) (source_name p)
                   (to_uint32 (Z.of_N (next_id p) + 1))).

Definition hr_ir_create_runtime (p : HRIR_Program) : HRIR_Runtime :=
  mkRuntime p 0 0 0 None.

Definition hr_ir_get_cell (p : HRIR_Program) (index : N) : option HRIR_Cell :=
  if cell_count p <=? index then None else cells p !! N.to_nat index.

Definition hr_ir_step (rt : HRIR_Runtime) : bool * HRIR_Runtime :=
  let p := program rt in
  if cell_count p <=? pc p then (false, rt)
  else
    let cells' := alter (set_exec true (Some "executed"%string))
                        (N.to_nat (pc p)) (cells p) in
    (true,
     mkRuntime (mkProgram cells' (pc p + 1) (source_name p) (next_id p))
               (checkpoint rt) ((steps_executed rt + 1) mod SIZE_MOD)
               (rollbacks rt) (last_error rt)).

Definition hr_ir_undo (rt : HRIR_Runtime) : bool * HRIR_Runtime :=
  let p := program rt in
  if pc p =? 0 then (false, rt)
  else
    let pc' := pc p - 1 in
    let cells' := alter (set_exec false None) (N.to_nat pc') (cells p) in
    (true,
     mkRuntime (mkProgram cells' pc' (source_name p) (next_id p))
               (checkpoint rt)
               ((steps_executed rt + SIZE_MOD - 1) mod SIZE_MOD)
               ((rollbacks rt + 1) mod SIZE_MOD) (last_error rt)).

Definition hr_ir_is_complete (rt : HRIR_Runtime) : bool :=
  cell_count (program rt) <=? pc (program rt).

(** [source_location] and [canonical_path] are set only when given. *)
Definition hr_ir_set_cell_meta (cell : HRIR_Cell) (location : option string)
    (line : N) (path : option string) : HRIR_Cell :=
  mkCell (id cell) (opcode cell) (args cell) (inverse cell) (is_reversible cell)
         (match location with Some l => Some l | None => source_location cell end)
         line
         (match path with Some q => Some q | None => canonical_path cell end)
         (executed cell) (result cell).

(** The first cell, in index order, that carries the identifier. *)
Definition hr_ir_get_cell_by_id (p : HRIR_Program) (cell_id : N)
  : option HRIR_Cell :=
  List.find (fun c => id c =? cell_id) (cells p).

(** [while (hr_ir_step(runtime)) {}]: the runtime the loop is left with,
    [None] when [fuel] iterations do not reach the end. *)
Fixpoint run_loop (fuel : nat) (rt : HRIR_Runtime) : option HRIR_Runtime :=
  match fuel with
  | O => None
  | S fuel' =>
      let '(stepped, rt') := hr_ir_step rt in
      if stepped then run_loop fuel' rt' else Some rt'
  end.

Definition hr_ir_run (fuel : nat) (rt : HRIR_Runtime)
  : option (bool * HRIR_Runtime) :=
  match run_loop fuel rt with
  | Some rt' => Some (cell_count (program rt') <=? pc (program rt'), rt')
  | None => None
  end.

Definition hr_ir_checkpoint (rt : HRIR_Runtime) : bool * HRIR_Runtime :=
  (true, mkRuntime (program rt) (pc (program rt)) (steps_executed rt)
                   (rollbacks rt) (last_error rt)).

(** [while (pc > checkpoint) if (!hr_ir_undo(runtime)) return false;]. *)
Fixpoint hr_ir_rollback (fuel : nat) (rt : HRIR_Runtime)
  : option (bool * HRIR_Runtime) :=
  match fuel with
  | O => None
  | S fuel' =>
      if checkpoint rt <? pc (program rt) then
        let '(undone, rt') := hr_ir_undo rt in
        if undone then hr_ir_rollback fuel' rt' else Some (false, rt')
      else Some (true, rt)
  end.

Definition hr_ir_get_pc (rt : HRIR_Runtime) : N := pc (program rt).

(** [target] is only tested against [NULL]. *)
Definition hr_ir_from_send_operation (target selector : string)
    (arguments : list string) : option HRIR_Cell :=
  if streq selector "add" then Some (hr_ir_create_cell "add" arguments)
  else if streq selector "subtract" then Some (hr_ir_create_cell "subtract" arguments)
  else if streq selector "multiply" then Some (hr_ir_create_cell "multiply" arguments)
  else if streq selector "divide" then Some (hr_ir_create_cell "divide" arguments)
  else if streq selector "output" then Some (hr_ir_create_cell "print" arguments)
  else None.

Record HRIR_Stats := mkStats {
  total_cells : N;
  r_term_cells : N;
  d_term_cells : N;
  executed_cells : N;
  stats_checkpoint_count : N
}.

(** One iteration of the counting loop of [hr_ir_get_stats]; the counters
    are [size_t]. *)
Definition count_cell (stats : HRIR_Stats) (cell : HRIR_Cell) : HRIR_Stats :=
  mkStats (total_cells stats)
          (if is_reversible cell then (r_term_cells stats + 1) mod SIZE_MOD
           else r_term_cells stats)
          (if is_reversible cell then d_term_cells stats
           else (d_term_cells stats + 1) mod SIZE_MOD)
          (if executed cell then (executed_cells stats + 1) mod SIZE_MOD
           else executed_cells stats)
          (stats_checkpoint_count stats).

Definition hr_ir_get_stats (p : HRIR_Program) : HRIR_Stats :=
  fold_left count_cell (cells p) (mkStats (cell_count p) 0 0 0 0).

End HRIR.

(** ** Consistency checker (consistency_checker.h, consistency_checker.c) *)

Module Checker.
Import LibC HRIR.

Record ConsistencyResult := mkResult {
  is_consistent : bool;
  error_message : option string;
  operations_checked : N;
  side_effects_verified : N
}.

Record ExpectedSideEffect := mkEffect {
  operation : string;
  effect_args : list string;
  should_succeed : bool
}.

Definition fail (msg : string) (r : ConsistencyResult) : ConsistencyResult :=
  mkResult false (Some msg) (operations_checked r) (side_effects_verified r).

Definition count_operation (r : ConsistencyResult) : ConsistencyResult :=
  mkResult (is_consistent r) (error_message r) (operations_checked r + 1)
           (side_effects_verified r).

Definition count_effect (r : ConsistencyResult) : ConsistencyResult :=
  mkResult (is_consistent r) (error_message r) (operations_checked r)
           (side_effects_verified r + 1).

(** The loop [for (i = 0; i < program->cell_count; i++)] of
    [check_l1_l0_consistency], from index [i] with [n] iterations left;
    [effects] has [effect_count] elements.  Leaving the recursion is the
    [break] of the C loop. *)
Fixpoint check_loop (n : nat) (i : N) (rt : HRIR_Runtime)
    (effects : list ExpectedSideEffect) (effect_index : N)
    (res : ConsistencyResult) : ConsistencyResult * HRIR_Runtime :=
  match n with
  | O => (res, rt)
  | S n' =>
      let res := count_operation res in
      match hr_ir_get_cell (program rt) i with
      | None => check_loop n' (i + 1) rt effects effect_index res
      | Some cell =>
          let '(step_result, rt1) := hr_ir_step rt in
          if is_reversible cell then
            if negb step_result then (fail "R-term operation failed" res, rt1)
            else
              let '(undone, rt2) := hr_ir_undo rt1 in
              if negb undone then (fail "R-term undo failed" res, rt2)
              else
                let '(redone, rt3) := hr_ir_step rt2 in
                if negb redone then (fail "R-term redo failed" res, rt3)
                else check_loop n' (i + 1) rt3 effects effect_index res
          else
            if effect_index <? N.of_nat (length effects) then
              match effects !! N.to_nat effect_index with
              | None => check_loop n' (i + 1) rt1 effects effect_index res
              | Some expected =>
                  if streq (opcode cell) (operation expected) then
                    let res := count_effect res in
                    if negb (eqb step_result (should_succeed expected))
                    then (fail "D-term side effect mismatch" res, rt1)
                    else check_loop n' (i + 1) rt1 effects (effect_index + 1) res
                  else check_loop n' (i + 1) rt1 effects (effect_index + 1) res
              end
            else check_loop n' (i + 1) rt1 effects effect_index res
      end
  end.

(** [program] and [expected_effects] may be [NULL]; the updated program is
    returned with the result. *)
Definition check_l1_l0_consistency (program : option HRIR_Program)
    (expected_effects : option (list ExpectedSideEffect))
  : ConsistencyResult * option HRIR_Program :=
  let result := mkResult true None 0 0 in
  match program, expected_effects with
  | Some p, Some effects =>
      let runtime := hr_ir_create_runtime p in
      let '(result, runtime) :=
        check_loop (N.to_nat (cell_count p)) 0 runtime effects 0 result in
      let result :=
        if is_consistent result then
          if negb (hr_ir_is_complete runtime)
          then fail "Program did not complete" result
          else result
        else result in
      (result, Some (HRIR.program runtime))
  | _, _ => (fail "Invalid parameters" result, program)
  end.

(** The inner loop of [validate_hrir_consistency] for the cell at index
    [i]: some other index holds a cell with the same identifier. *)
Definition duplicate_id (p : HRIR_Program) (i : nat) (cell : HRIR_Cell) : bool :=
  existsb (fun jc => negb (fst jc =? i)%nat && (id cell =? id (snd jc)))
          (imap pair (cells p)).

(** The loop [for (i = 0; i < program->cell_count; i++)] of
    [validate_hrir_consistency], from index [i] with [n] iterations left.
    [cell->opcode] is never [NULL]; [cell->args] is [NULL] exactly when the
    cell was created without arguments, [hr_ir_create_cell] allocating the
    array only for [arg_count > 0]. *)
Fixpoint validate_loop (n : nat) (i : N) (p : HRIR_Program)
    (res : ConsistencyResult) : ConsistencyResult :=
  match n with
  | O => res
  | S n' =>
      let res := count_operation res in
      match hr_ir_get_cell p i with
      | None => fail "Invalid cell" res
      | Some cell =>
          if match args cell with [] => true | _ => false end
          then fail "Missing cell data" res
          else if is_reversible cell && negb (bool_decide (is_Some (inverse cell)))
          then fail "Reversible cell missing inverse" res
          else if duplicate_id p (N.to_nat i) cell
          then fail "Duplicate cell ID" res
          else validate_loop n' (i + 1) p res
      end
  end.

Definition validate_hrir_consistency (program : option HRIR_Program)
  : ConsistencyResult :=
  let result := mkResult true None 0 0 in
  match program with
  | None => fail "Invalid program" result
  | Some p =>
      let result := validate_loop (N.to_nat (cell_count p)) 0 p result in
      if is_consistent result
         && negb (total_cells (hr_ir_get_stats p) =? cell_count p)
      then fail "Statistics mismatch" result
      else result
  end.

(** The three tests of [run_consistency_suite]; the result is [0] when all
    of them pass and [1] otherwise. *)
Definition run_consistency_suite (program : option HRIR_Program) : Z :=
  let internal := validate_hrir_consistency program in
  let empty_program := hr_ir_create_program (Some "empty_test"%string) in
  let empty_result := validate_hrir_consistency (Some empty_program) in
  let r_term_program := hr_ir_create_program (Some "r_term_test"%string) in
  let add_cell := hr_ir_create_cell "add" ["5"; "3"]%string in
  let mul_cell := hr_ir_create_cell "multiply" ["result"; "2"]%string in
  let r_term_program := snd (hr_ir_add_cell r_term_program add_cell) in
  let r_term_program := snd (hr_ir_add_cell r_term_program mul_cell) in
  let r_term_result := validate_hrir_consistency (Some r_term_program) in
  let passed :=
    ((if is_consistent internal then 1 else 0)
     + (if is_consistent empty_result then 1 else 0)
     + (if is_consistent r_term_result then 1 else 0))%Z in
  if (passed =? 3)%Z then 0%Z else 1%Z.

End Checker.

(** ** L3 actor runtime (l3_turchin.h, l3_turchin.c) *)

Module L3.
Import LibC.

(** What the runtime takes from outside the program: [atof] of the C
    library (a [double] is a binary64 float), the first line printed by the
    [bc] calculator started through [popen] for an expression text
    ([None] when the pipe cannot be opened or prints nothing), and the
    clock read by [time(NULL)]. *)
Class Platform := {
  atof : string -> float;
  popen_bc : string -> option string;
  time_now : Z
}.

(** *** Strings *)

Definition SIZE_MOD : N := 2 ^ 64.

(** Subtraction on [size_t]. *)
Definition size_sub (a b : N) : N := (a + SIZE_MOD - b mod SIZE_MOD) mod SIZE_MOD.

Definition strlen (s : string) : N := N.of_nat (String.length s).

(** [s + n] for a pointer [s] into a string of at least [n] characters. *)
Fixpoint string_drop (n : nat) (s : string) : string :=
  match n, s with
  | O, _ => s
  | S n', String _ s' => string_drop n' s'
  | S _, EmptyString => EmptyString
  end.

Fixpoint string_take (n : nat) (s : string) : string :=
  match n, s with
  | O, _ => EmptyString
  | S n', String c s' => String c (string_take n' s')
  | S _, EmptyString => EmptyString
  end.

(** [s[n]], which is the terminating NUL at the end of the string. *)
Definition char_at (s : string) (n : nat) : ascii :=
  match String.get n s with
  | Some c => c
  | None => Ascii.zero
  end.

Fixpoint starts_with (str pre : string) : bool :=
  match pre, str with
  | EmptyString, _ => true
  | String p pre', String c str' => Ascii.eqb p c && starts_with str' pre'
  | String _ _, EmptyString => false
  end.

Definition l3_starts_with (str pre : string) : bool := starts_with str pre.

(** Offset of the first occurrence of [needle] in [hay]. *)
Fixpoint strstr (hay needle : string) : option nat :=
  if starts_with hay needle then Some O
  else match hay with
       | EmptyString => None
       | String _ hay' => option_map S (strstr hay' needle)
       end.

Fixpoint strchr (s : string) (c : ascii) : option nat :=
  match s with
  | EmptyString => None
  | String d s' => if Ascii.eqb d c then Some O else option_map S (strchr s' c)
  end.

(** [strpbrk(s, accept) != NULL]. *)
Fixpoint strpbrk (s accept : string) : bool :=
  match s with
  | EmptyString => false
  | String c s' =>
      match strchr accept c with
      | Some _ => true
      | None => strpbrk s' accept
      end
  end.

(** Removal of trailing white space, the first character staying in place
    ([end > str] in [l3_trim]). *)
Fixpoint drop_trailing_space (s : string) : string :=
  match s with
  | EmptyString => EmptyString
  | String c s' =>
      match drop_trailing_space s' with
      | EmptyString => if isspace c then EmptyString else String c EmptyString
      | t => String c t
      end
  end.

Definition l3_trim (str : string) : string :=
  match skip_space str with
  | EmptyString => EmptyString
  | String c s' => String c (drop_trailing_space s')
  end.

Definition l3_substring (str : string) (start len : N) : string :=
  let str_len := strlen str in
  if str_len <=? start then EmptyString
  else
    let len := if str_len <? (start + len) mod SIZE_MOD
               then str_len - start else len in
    string_take (N.to_nat len) (string_drop (N.to_nat start) str).

(** The text between the quote that opens [s] and its last character. *)
Definition unquote (s : string) : string :=
  l3_substring s 1 (size_sub (strlen s) 2).

Definition is_quote (c : ascii) : bool :=
  Ascii.eqb c "034" || Ascii.eqb c "'".

Fixpoint is_number_loop (s : string) (has_digit has_dot : bool) : bool :=
  match s with
  | EmptyString => has_digit
  | String c s' =>
      if isdigit c then is_number_loop s' true has_dot
      else if Ascii.eqb c "." && negb has_dot then is_number_loop s' has_digit true
      else false
  end.

Definition l3_is_number (str : string) : bool :=
  match str with
  | EmptyString => false
  | String c s' =>
      if Ascii.eqb c "-" || Ascii.eqb c "+" then is_number_loop s' false false
      else is_number_loop str false false
  end.

Fixpoint l3_get_indent (line : string) : Z :=
  match line with
  | String " " s' => (1 + l3_get_indent s')%Z
  | _ => 0%Z
  end.

(** The tokens [strtok(s, "\n")] yields: the maximal runs of characters
    other than the newline. *)
Fixpoint strtok_lines_aux (s cur : string) : list string :=
  match s with
  | EmptyString => match cur with EmptyString => [] | _ => [cur] end
  | String c s' =>
      if Ascii.eqb c "010"
      then match cur with
           | EmptyString => strtok_lines_aux s' EmptyString
           | _ => cur :: strtok_lines_aux s' EmptyString
           end
      else strtok_lines_aux s' (cur ++ String c EmptyString)
  end.

Definition strtok_lines (s : string) : list string :=
  strtok_lines_aux s EmptyString.

(** [snprintf(buf, 32, "%d", i)]. *)
Definition string_of_int (i : Z) : string :=
  DecimalString.NilZero.string_of_int (Z.to_int i).

(** *** Actor state *)

(** The parallel arrays [keys] and [values]. *)
Definition L3_ActorState := list (string * string).

Definition l3_state_create : L3_ActorState := [].

Fixpoint l3_state_set (state : L3_ActorState) (key value : string)
  : L3_ActorState :=
  match state with
  | [] => [(key, value)]
  | (k, v) :: rest =>
      if streq k key then (k, value) :: rest
      else (k, v) :: l3_state_set rest key value
  end.

Fixpoint l3_state_get (state : L3_ActorState) (key : string) : option string :=
  match state with
  | [] => None
  | (k, v) :: rest => if streq k key then Some v else l3_state_get rest key
  end.

(** *** Message queue *)

Record L3_Message := mkMessage {
  event : string;
  data : string;
  timestamp : Z
}.

(** [messages] has [capacity] slots; a slot never written holds no
    message. *)
Record L3_MessageQueue := mkQueue {
  messages : list (option L3_Message);
  count : N;
  head : N;
  tail : N
}.

Definition capacity (q : L3_MessageQueue) : N := N.of_nat (length (messages q)).

Definition l3_queue_create : L3_MessageQueue :=
  mkQueue (repeat None 64) 0 0 0.

(** The slot read by [queue->messages[i]]. *)
Definition slot (q : L3_MessageQueue) (i : N) : option L3_Message :=
  mjoin (messages q !! N.to_nat i).

(** The copy loop of the expansion: slot [i] of the new array receives
    slot [(head + i) % capacity] of the old one, for [i < count]. *)
Definition expanded_messages (q : L3_MessageQueue) : list (option L3_Message) :=
  map (fun i => slot q ((head q + N.of_nat i) mod capacity q))
      (seq 0 (N.to_nat (count q)))
  ++ repeat None (N.to_nat (capacity q * 2 - count q)).

Definition l3_queue_push `{Platform} (q : L3_MessageQueue) (ev : string)
    (dat : option string) : bool * L3_MessageQueue :=
  let q1 := if capacity q <=? count q
            then mkQueue (expanded_messages q) (count q) 0 (count q)
            else q in
  let msg := mkMessage ev (default "{}"%string dat) time_now in
  (true,
   mkQueue (<[N.to_nat (tail q1) := Some msg]> (messages q1))
           (count q1 + 1) (head q1) ((tail q1 + 1) mod capacity q1)).

Definition l3_queue_pop (q : L3_MessageQueue)
  : option L3_Message * L3_MessageQueue :=
  if count q =? 0 then (None, q)
  else (slot q (head q),
        mkQueue (messages q) (count q - 1) ((head q + 1) mod capacity q) (tail q)).

(** *** Actors and the runtime *)

Record L3_Handler := mkHandler {
  event_name : string;
  body_code : string
}.

Record L3_ActorDefinition := mkDefinition {
  def_name : string;
  def_role : string;
  initial_state : L3_ActorState;
  def_handlers : list L3_Handler
}.

Record L3_Actor := mkActor {
  id : Z;
  name : string;
  role : string;
  state : L3_ActorState;
  handlers : list L3_Handler
}.

(** [actors] and [message_queues] are the two parallel arrays of the C
    struct, in spawn order. *)
Record L3_ActorRuntime := mkRuntime {
  actors : list L3_Actor;
  message_queues : list L3_MessageQueue;
  next_actor_id : Z;
  running : bool
}.

Definition actor_count (rt : L3_ActorRuntime) : N := N.of_nat (length (actors rt)).

Definition l3_runtime_init : L3_ActorRuntime := mkRuntime [] [] 1 false.

Definition set_queues (qs : list L3_MessageQueue) (rt : L3_ActorRuntime)
  : L3_ActorRuntime :=
  mkRuntime (actors rt) qs (next_actor_id rt) (running rt).

Definition set_actors (acts : list L3_Actor) (rt : L3_ActorRuntime)
  : L3_ActorRuntime :=
  mkRuntime acts (message_queues rt) (next_actor_id rt) (running rt).

Definition l3_spawn_actor (rt : L3_ActorRuntime) (def : L3_ActorDefinition)
  : Z * L3_ActorRuntime :=
  let actor :=
    mkActor (next_actor_id rt) (def_name def) (def_role def)
            (fold_left (fun st kv => l3_state_set st (fst kv) (snd kv))
                       (initial_state def) l3_state_create)
            (def_handlers def) in
  (next_actor_id rt,
   mkRuntime (actors rt ++ [actor]) (message_queues rt ++ [l3_queue_create])
             (to_int (next_actor_id rt + 1)) (running rt)).

(** Index of the first actor satisfying [p]. *)
Fixpoint find_actor (p : L3_Actor -> bool) (acts : list L3_Actor) : option nat :=
  match acts with
  | [] => None
  | a :: rest => if p a then Some O else option_map S (find_actor p rest)
  end.

Definition l3_send_message `{Platform} (rt : L3_ActorRuntime) (actor_id : Z)
    (ev : string) (dat : option string) : bool * L3_ActorRuntime :=
  match find_actor (fun a => (id a =? actor_id)%Z) (actors rt) with
  | None => (false, rt)
  | Some actor_index =>
      match message_queues rt !! actor_index with
      | None => (false, rt)
      | Some queue =>
          let '(success, queue') := l3_queue_push queue ev dat in
          (success, set_queues (<[actor_index := queue']> (message_queues rt)) rt)
      end
  end.

Definition l3_get_actor_by_name (rt : L3_ActorRuntime) (nm : string) : Z :=
  match find_actor (fun a => streq (name a) nm) (actors rt) with
  | Some i => match actors rt !! i with Some a => id a | None => (-1)%Z end
  | None => (-1)%Z
  end.

(** *** Execution context *)

(** [state] points to the state of one actor of [runtime]: it is kept as
    the index of that actor, so that writes through the context are writes
    to the actor.  [data] may be [NULL]. *)
Record L3_ExecutionContext := mkContext {
  ctx_runtime : L3_ActorRuntime;
  ctx_state : nat;
  ctx_data : option string;
  ctx_actor_id : Z;
  locals : list (string * string)
}.

Definition set_runtime (rt : L3_ActorRuntime) (ctx : L3_ExecutionContext)
  : L3_ExecutionContext :=
  mkContext rt (ctx_state ctx) (ctx_data ctx) (ctx_actor_id ctx) (locals ctx).

Definition set_locals (l : list (string * string)) (ctx : L3_ExecutionContext)
  : L3_ExecutionContext :=
  mkContext (ctx_runtime ctx) (ctx_state ctx) (ctx_data ctx) (ctx_actor_id ctx) l.

Definition state_of (ctx : L3_ExecutionContext) : L3_ActorState :=
  match actors (ctx_runtime ctx) !! ctx_state ctx with
  | Some a => state a
  | None => []
  end.

Definition set_actor_state (st : L3_ActorState) (a : L3_Actor) : L3_Actor :=
  mkActor (id a) (name a) (role a) st (handlers a).

(** [l3_state_set(ctx->state, key, value)]. *)
Definition ctx_state_set (ctx : L3_ExecutionContext) (key value : string)
  : L3_ExecutionContext :=
  let rt := ctx_runtime ctx in
  set_runtime
    (set_actors (alter (fun a => set_actor_state (l3_state_set (state a) key value) a)
                       (ctx_state ctx) (actors rt)) rt)
    ctx.

Definition l3_set_local (ctx : L3_ExecutionContext) (key value : string)
  : L3_ExecutionContext :=
  set_locals (l3_state_set (locals ctx) key value) ctx.

Definition l3_get_local (ctx : L3_ExecutionContext) (key : string)
  : option string :=
  l3_state_get (locals ctx) key.

(** *** Expression evaluation *)

(** Length of the run of [isalnum] characters and underscores opening [s]. *)
Fixpoint ident_length (s : string) : N :=
  match s with
  | String c s' =>
      if isalnum c || Ascii.eqb c "_" then 1 + ident_length s' else 0
  | EmptyString => 0
  end.

(** The loop [while (state_pos)] replacing the first [state.X] by the
    value of [X] (or by 0) until no [state.] is left.  It need not end
    (a value may itself contain [state.]): [None] is "still running when
    the fuel is used up". *)
Fixpoint subst_state (fuel : nat) (st : L3_ActorState) (replaced : string)
  : option string :=
  match fuel with
  | O => None
  | S fuel' =>
      match strstr replaced "state." with
      | None => Some replaced
      | Some state_pos =>
          let var_start := string_drop (state_pos + 6) replaced in
          let var_len := ident_length var_start in
          let var_name := l3_substring var_start 0 var_len in
          let value_str := default "0"%string (l3_state_get st var_name) in
          let var_end := string_drop (N.to_nat var_len) var_start in
          subst_state fuel' st
            (string_take state_pos replaced ++ value_str ++ var_end)
      end
  end.

(** One round of the loop over the local variables: the first occurrence
    of the key (cut to the 255 characters of the search buffer) is replaced
    when it stands between non-alphanumeric characters. *)
Definition subst_local (replaced : string) (kv : string * string) : string :=
  let search := string_take 255 (fst kv) in
  match strstr replaced search with
  | None => replaced
  | Some pos =>
      let is_start := (pos =? 0)%nat || negb (isalnum (char_at replaced (pos - 1))) in
      let is_end := negb (isalnum (char_at replaced (pos + String.length search))) in
      if is_start && is_end
      then string_take pos replaced ++ snd kv
           ++ string_drop (pos + String.length search) replaced
      else replaced
  end.

Definition l3_evaluate_expression `{Platform} (fuel : nat) (expr : string)
    (ctx : L3_ExecutionContext) : option string :=
  let trimmed := l3_trim expr in
  let lookup :=
    if l3_starts_with trimmed "state."
    then Some (default "0"%string (l3_state_get (state_of ctx) (string_drop 6 trimmed)))
    else match l3_get_local ctx trimmed with
         | Some local_val => Some local_val
         | None => Some expr
         end in
  if is_quote (char_at trimmed 0) then Some (unquote trimmed)
  else if l3_is_number trimmed then Some trimmed
  else if streq trimmed "true" || streq trimmed "false" then Some trimmed
  else if strpbrk trimmed "+-*/()" then
    match subst_state fuel (state_of ctx) trimmed with
    | None => None
    | Some replaced =>
        match popen_bc (fold_left subst_local (locals ctx) replaced) with
        | Some result => Some result
        | None => lookup
        end
    end
  else lookup.

Definition operators : list string :=
  ["<="; ">="; "=="; "!="; "<"; ">"]%string.

(** The first operator of the table that occurs in [trimmed], with the
    offset of its first occurrence. *)
Fixpoint find_operator (trimmed : string) (ops : list string)
  : option (string * nat) :=
  match ops with
  | [] => None
  | op :: ops' =>
      match strstr trimmed op with
      | Some op_pos => Some (op, op_pos)
      | None => find_operator trimmed ops'
      end
  end.

Definition compare_values `{Platform} (op left_val right_val : string) : bool :=
  let left_num := atof left_val in
  let right_num := atof right_val in
  if streq op "<" then PrimFloat.ltb left_num right_num
  else if streq op ">" then PrimFloat.ltb right_num left_num
  else if streq op "<=" then PrimFloat.leb left_num right_num
  else if streq op ">=" then PrimFloat.leb right_num left_num
  else if streq op "==" then
    PrimFloat.eqb left_num right_num || streq left_val right_val
  else if streq op "!=" then
    negb (PrimFloat.eqb left_num right_num) && negb (streq left_val right_val)
  else false.

Definition l3_evaluate_condition `{Platform} (fuel : nat) (condition : string)
    (ctx : L3_ExecutionContext) : option bool :=
  let trimmed := l3_trim condition in
  match find_operator trimmed operators with
  | Some (op, op_pos) =>
      let left_trimmed := l3_trim (l3_substring trimmed 0 (N.of_nat op_pos)) in
      let right_trimmed := l3_trim (string_drop (op_pos + String.length op) trimmed) in
      match l3_evaluate_expression fuel left_trimmed ctx with
      | None => None
      | Some left_val =>
          match l3_evaluate_expression fuel right_trimmed ctx with
          | None => None
          | Some right_val => Some (compare_values op left_val right_val)
          end
      end
  | None =>
      match l3_evaluate_expression fuel trimmed ctx with
      | None => None
      | Some val => Some (streq val "true" || negb (atoi val =? 0)%Z)
      end
  end.

(** *** Statements *)

Definition l3_execute_line `{Platform} (fuel : nat) (trimmed : string)
    (ctx : L3_ExecutionContext) : option L3_ExecutionContext :=
  let arrow := strstr trimmed "->" in
  if l3_starts_with trimmed "self ->" then Some ctx
  else if bool_decide (is_Some arrow) && isupper (char_at trimmed 0) then
    let arrow_pos := default O arrow in
    let target_trimmed := l3_trim (l3_substring trimmed 0 (N.of_nat arrow_pos)) in
    let message_part := l3_trim (string_drop (arrow_pos + 2) trimmed) in
    let message_name :=
      match strchr message_part " " with
      | Some space_pos => l3_substring message_part 0 (N.of_nat space_pos)
      | None => message_part
      end in
    let target_id := l3_get_actor_by_name (ctx_runtime ctx) target_trimmed in
    if (target_id =? -1)%Z then Some ctx
    else Some (set_runtime
                 (snd (l3_send_message (ctx_runtime ctx) target_id message_name
                                       (ctx_data ctx)))
                 ctx)
  else if l3_starts_with trimmed "let " then
    let rest := string_drop 4 trimmed in
    match strstr rest "->" with
    | Some arrow_pos =>
        let var_trimmed := l3_trim (l3_substring rest 0 (N.of_nat arrow_pos)) in
        let value_expr := l3_trim (string_drop (arrow_pos + 2) rest) in
        match l3_evaluate_expression fuel value_expr ctx with
        | None => None
        | Some value => Some (l3_set_local ctx var_trimmed value)
        end
    | None => Some ctx
    end
  else if bool_decide (is_Some arrow) && negb (l3_starts_with trimmed "let ")
          && negb (l3_starts_with trimmed "if ")
          && negb (l3_starts_with trimmed "while ") then
    let arrow_pos := default O arrow in
    let target_trimmed := l3_trim (l3_substring trimmed 0 (N.of_nat arrow_pos)) in
    let value_expr := l3_trim (string_drop (arrow_pos + 2) trimmed) in
    match l3_evaluate_expression fuel value_expr ctx with
    | None => None
    | Some value =>
        if l3_starts_with target_trimmed "state."
        then Some (ctx_state_set ctx (string_drop 6 target_trimmed) value)
        else Some (l3_set_local ctx target_trimmed value)
    end
  else Some ctx.

(** The scan that delimits the body of an [if], [while] or [for]: from
    [idx], lines are taken up to the first non-blank line indented less
    than the first non-blank line; [indent] is [-1] until that first line
    is met.  At most [n] lines are looked at. *)
Fixpoint collect_block (n : nat) (lines : list string) (idx line_count : nat)
    (indent : Z) : nat * Z :=
  match n with
  | O => (idx, indent)
  | S n' =>
      if (line_count <=? idx)%nat then (idx, indent)
      else
        let next_line := default EmptyString (lines !! idx) in
        let next_trimmed := l3_trim next_line in
        let next_indent := l3_get_indent next_line in
        if 0 <? strlen next_trimmed then
          let indent' := if (indent =? -1)%Z then next_indent else indent in
          if (next_indent <? indent')%Z then (idx, indent')
          else collect_block n' lines (S idx) line_count indent'
        else collect_block n' lines (S idx) line_count indent
  end.

Definition max_iterations : Z := 10000.

(** [while (l3_evaluate_condition(condition, ctx) && iterations <
    max_iterations) { body; iterations++; }], returning the final context
    and the final value of [iterations]. *)
Fixpoint while_loop (fuel : nat)
    (cond : L3_ExecutionContext -> option bool)
    (body : L3_ExecutionContext -> option L3_ExecutionContext)
    (iterations : Z) (ctx : L3_ExecutionContext)
  : option (L3_ExecutionContext * Z) :=
  match fuel with
  | O => None
  | S fuel' =>
      match cond ctx with
      | None => None
      | Some b =>
          if b && (iterations <? max_iterations)%Z then
            match body ctx with
            | None => None
            | Some ctx' => while_loop fuel' cond body (iterations + 1) ctx'
            end
          else Some (ctx, iterations)
      end
  end.

(** [for (int i = start_num; i <= end_num; i++) { set var; body; }];
    the increment is taken on 32 bits. *)
Fixpoint for_loop (fuel : nat)
    (body : L3_ExecutionContext -> option L3_ExecutionContext)
    (var : string) (i end_num : Z) (ctx : L3_ExecutionContext)
  : option L3_ExecutionContext :=
  match fuel with
  | O => None
  | S fuel' =>
      if (i <=? end_num)%Z then
        match body (l3_set_local ctx var (string_of_int i)) with
        | None => None
        | Some ctx' => for_loop fuel' body var (to_int (i + 1)) end_num ctx'
        end
      else Some ctx
  end.

(** [l3_execute_block(lines, &line_idx, line_count, base_indent, ctx)].
    No caller reads [line_idx] afterwards, so only the context is
    returned. *)
Fixpoint l3_execute_block `{Platform} (fuel : nat) (lines : list string)
    (line_idx line_count : nat) (base_indent : Z) (ctx : L3_ExecutionContext)
  : option L3_ExecutionContext :=
  match fuel with
  | O => None
  | S fuel' =>
      if (line_count <=? line_idx)%nat then Some ctx
      else
        let line := default EmptyString (lines !! line_idx) in
        let trimmed := l3_trim line in
        if (strlen trimmed =? 0) || l3_starts_with trimmed "//" then
          l3_execute_block fuel' lines (S line_idx) line_count base_indent ctx
        else
          let indent := l3_get_indent line in
          if (indent <? base_indent)%Z && (0 <? strlen trimmed) then Some ctx
          else if l3_starts_with trimmed "if " then
            let condition := l3_trim (string_drop 3 trimmed) in
            match l3_evaluate_condition fuel' condition ctx with
            | None => None
            | Some result =>
                let if_start := S line_idx in
                let '(if_end, if_indent) :=
                  collect_block (line_count - if_start) lines if_start line_count (-1) in
                match (if result && negb (if_indent =? -1)%Z
                       then l3_execute_block fuel' lines if_start if_end if_indent ctx
                       else Some ctx) with
                | None => None
                | Some ctx' =>
                    l3_execute_block fuel' lines if_end line_count base_indent ctx'
                end
            end
          else if l3_starts_with trimmed "while " then
            let condition := l3_trim (string_drop 6 trimmed) in
            let while_start := S line_idx in
            let '(while_end, while_indent) :=
              collect_block (line_count - while_start) lines while_start line_count (-1) in
            match while_loop fuel'
                    (l3_evaluate_condition fuel' condition)
                    (fun c => if negb (while_indent =? -1)%Z
                              then l3_execute_block fuel' lines while_start
                                                    while_end while_indent c
                              else Some c)
                    0 ctx with
            | None => None
            | Some (ctx', _) =>
                l3_execute_block fuel' lines while_end line_count base_indent ctx'
            end
          else
            let rest := string_drop 4 trimmed in
            let in_pos := strstr rest " in " in
            let to_pos := strstr rest " to " in
            if l3_starts_with trimmed "for " && bool_decide (is_Some in_pos)
               && bool_decide (is_Some to_pos) then
              let in_pos := default O in_pos in
              let to_pos := default O to_pos in
              let var_trimmed := l3_trim (l3_substring rest 0 (N.of_nat in_pos)) in
              let start_trimmed :=
                l3_trim (l3_substring (string_drop (in_pos + 4) rest) 0
                           (size_sub (N.of_nat to_pos) (N.of_nat (in_pos + 4)))) in
              let end_str := l3_trim (string_drop (to_pos + 4) rest) in
              match l3_evaluate_expression fuel' start_trimmed ctx with
              | None => None
              | Some start_val =>
                  match l3_evaluate_expression fuel' end_str ctx with
                  | None => None
                  | Some end_val =>
                      let for_start := S line_idx in
                      let '(for_end, for_indent) :=
                        collect_block (line_count - for_start) lines for_start
                                      line_count (-1) in
                      match for_loop fuel'
                              (fun c => if negb (for_indent =? -1)%Z
                                        then l3_execute_block fuel' lines for_start
                                                              for_end for_indent c
                                        else Some c)
                              var_trimmed (atoi start_val) (atoi end_val) ctx with
                      | None => None
                      | Some ctx' =>
                          l3_execute_block fuel' lines for_end line_count
                                           base_indent ctx'
                      end
                  end
              end
            else
              match (if (base_indent <=? indent)%Z
                     then l3_execute_line fuel' trimmed ctx
                     else Some ctx) with
              | None => None
              | Some ctx' =>
                  l3_execute_block fuel' lines (S line_idx) line_count base_indent ctx'
              end
  end.

Definition l3_execute_handler `{Platform} (fuel : nat) (body : string)
    (ctx : L3_ExecutionContext) : option L3_ExecutionContext :=
  let lines := strtok_lines body in
  l3_execute_block fuel lines 0 (length lines) 0 ctx.

(** *** Tick *)

(** The handler of [actor] for [ev]: the first one whose event name is
    [ev]. *)
Definition find_handler (actor : L3_Actor) (ev : string) : option L3_Handler :=
  List.find (fun h => streq (event_name h) ev) (handlers actor).

(** What [l3_tick] does with the message [msg] popped for actor [i]:
    the handler found for its event runs in a fresh context on the actor's
    state and the message data; without a handler the message is dropped. *)
Definition handle_message `{Platform} (fuel : nat) (rt : L3_ActorRuntime)
    (i : nat) (msg : L3_Message) : option L3_ActorRuntime :=
  match actors rt !! i with
  | Some actor =>
      match find_handler actor (event msg) with
      | Some handler =>
          let ctx := mkContext rt i (Some (data msg)) (id actor) [] in
          option_map ctx_runtime (l3_execute_handler fuel (body_code handler) ctx)
      | None => Some rt
      end
  | None => Some rt
  end.

(** The body of the loop of [l3_tick] for actor [i]. *)
Definition tick_actor `{Platform} (fuel : nat) (rt : L3_ActorRuntime) (i : nat)
  : option L3_ActorRuntime :=
  match message_queues rt !! i with
  | None => Some rt
  | Some queue =>
      if 0 <? count queue then
        let '(msg, queue') := l3_queue_pop queue in
        let rt1 := set_queues (<[i := queue']> (message_queues rt)) rt in
        match msg with
        | Some msg => handle_message fuel rt1 i msg
        | None => Some rt1
        end
      else Some rt
  end.

(** [for (i = 0; i < runtime->actor_count; i++)], from [i] with at most
    [n] iterations left. *)
Fixpoint tick_loop `{Platform} (fuel n : nat) (i : nat) (rt : L3_ActorRuntime)
  : option L3_ActorRuntime :=
  match n with
  | O => Some rt
  | S n' =>
      if (length (actors rt) <=? i)%nat then Some rt
      else match tick_actor fuel rt i with
           | None => None
           | Some rt' => tick_loop fuel n' (S i) rt'
           end
  end.

Definition l3_tick `{Platform} (fuel : nat) (rt : L3_ActorRuntime)
  : option L3_ActorRuntime :=
  tick_loop fuel (length (actors rt)) 0 rt.

(** *** A platform for closed examples *)

Fixpoint digit_prefix (s : string) : string * string :=
  match s with
  | String c s' =>
      if isdigit c then let '(d, r) := digit_prefix s' in (String c d, r)
      else (EmptyString, s)
  | EmptyString => (EmptyString, EmptyString)
  end.

Definition float_of_Z (z : Z) : float := PrimFloat.of_uint63 (Uint63.of_Z z).

(** [atof] on plain decimal text: white space, an optional sign, digits
    with an optional fraction; [0.0] when no number starts the text, as in
    C.  Exponents, hexadecimal forms, infinities and NaNs are not read,
    and the value is the correctly rounded one only up to 15 significant
    digits. *)
Definition decimal_atof (s : string) : float :=
  let s1 := skip_space s in
  let '(negative, s2) :=
    match s1 with
    | String "-" r => (true, r)
    | String "+" r => (false, r)
    | _ => (false, s1)
    end in
  let '(int_digits, s3) := digit_prefix s2 in
  let frac_digits :=
    match s3 with
    | String "." r => fst (digit_prefix r)
    | _ => EmptyString
    end in
  match (int_digits ++ frac_digits)%string with
  | EmptyString => PrimFloat.zero
  | digits =>
      let v := PrimFloat.div (float_of_Z (digits_value digits 0))
                             (float_of_Z (10 ^ Z.of_nat (String.length frac_digits))) in
      if negative then PrimFloat.opp v else v
  end.

(** No [bc] on the machine and a stopped clock. *)
Definition bare_platform : Platform :=
  {| atof := decimal_atof; popen_bc := fun _ => None; time_now := 0 |}.

End L3.

(* ================================================================== *)
(** * Properties *)
(* ================================================================== *)

(** ** Bit arrays *)

Section BitArrays.
Import R.

Lemma qget_qset_eq (q : list Z) a v :
  (N.to_nat a < length q)%nat -> qget (qset q a v) a = v.
Proof.
  intros Hlt. unfold qget, qset.
  by rewrite list_lookup_insert_eq.
Qed.

Lemma qget_qset_ne (q : list Z) a b v :
  a <> b -> qget (qset q a v) b = qget q b.
Proof.
  intros Hne. unfold qget, qset.
  rewrite list_lookup_insert_ne; [done | lia].
Qed.

Lemma length_qset (q : list Z) a v : length (qset q a v) = length q.
Proof. apply length_insert. Qed.

Lemma qset_qset (q : list Z) a v w : qset (qset q a v) a w = qset q a w.
Proof. apply list_insert_insert_eq. Qed.

Lemma qset_qget (q : list Z) a :
  (N.to_nat a < length q)%nat -> qset q a (qget q a) = q.
Proof.
  intros Hlt. unfold qget, qset.
  destruct (lookup_lt_is_Some_2 q (N.to_nat a) Hlt) as [v Hv].
  rewrite Hv. simpl. by apply list_insert_id.
Qed.

Lemma lxor_1_1 (v : Z) : Z.lxor (Z.lxor v 1) 1 = v.
Proof. by rewrite Z.lxor_assoc, Z.lxor_nilpotent, Z.lxor_0_r. Qed.

Lemma set_qubits_same rt : set_qubits (qubits (memory rt)) rt = rt.
Proof. by destruct rt as [[] ? ?]. Qed.

Lemma set_qubits_twice q1 q2 rt :
  set_qubits q2 (set_qubits q1 rt) = set_qubits q2 rt.
Proof. done. Qed.

Lemma qubits_set_qubits q rt : qubits (memory (set_qubits q rt)) = q.
Proof. done. Qed.

Lemma qubit_count_set_qubits q rt :
  qubit_count (memory (set_qubits q rt)) = N.of_nat (length q).
Proof. done. Qed.

End BitArrays.

(** ** Gate primitives *)

Section Gates.
Import R.

Ltac in_range :=
  repeat match goal with
  | |- context [N.leb ?x ?y] => destruct (N.leb_spec x y); try lia
  end; simpl.

Lemma in_range_lt (q : list Z) (a : N) :
  a < N.of_nat (length q) -> (N.to_nat a < length q)%nat.
Proof. lia. Qed.

Lemma CCNOT_twice rt a b c :
  a < qubit_count (memory rt) -> b < qubit_count (memory rt) ->
  c < qubit_count (memory rt) -> c <> a -> c <> b ->
  r_execute_CCNOT (snd (r_execute_CCNOT rt a b c)) a b c = (true, rt).
Proof.
  intros Ha Hb Hc Hca Hcb. unfold r_execute_CCNOT at 2.
  unfold qubit_count in *. in_range.
  destruct (negb (qget (qubits (memory rt)) a =? 0)%Z
            && negb (qget (qubits (memory rt)) b =? 0)%Z) eqn:Hctl; simpl.
  - unfold r_execute_CCNOT, qubit_count. simpl.
    rewrite length_qset. in_range.
    rewrite !qget_qset_ne by done. rewrite Hctl.
    rewrite qget_qset_eq by lia.
    rewrite qset_qset, lxor_1_1, qset_qget by lia.
    by rewrite set_qubits_twice, set_qubits_same.
  - unfold r_execute_CCNOT, qubit_count. in_range. by rewrite Hctl.
Qed.

Lemma CNOT_twice rt a b :
  a < qubit_count (memory rt) -> b < qubit_count (memory rt) -> b <> a ->
  r_execute_CNOT (snd (r_execute_CNOT rt a b)) a b = (true, rt).
Proof.
  intros Ha Hb Hba. unfold r_execute_CNOT at 2.
  unfold qubit_count in *. in_range.
  destruct (negb (qget (qubits (memory rt)) a =? 0)%Z) eqn:Hctl; simpl.
  - unfold r_execute_CNOT, qubit_count. simpl.
    rewrite length_qset. in_range.
    rewrite !qget_qset_ne by done. rewrite Hctl.
    rewrite qget_qset_eq by lia.
    rewrite qset_qset, lxor_1_1, qset_qget by lia.
    by rewrite set_qubits_twice, set_qubits_same.
  - unfold r_execute_CNOT, qubit_count. in_range. by rewrite Hctl.
Qed.

Lemma NOT_twice rt a :
  a < qubit_count (memory rt) ->
  r_execute_NOT (snd (r_execute_NOT rt a)) a = (true, rt).
Proof.
  intros Ha. unfold r_execute_NOT at 2.
  unfold qubit_count in *. in_range.
  unfold r_execute_NOT, qubit_count. simpl.
  rewrite length_qset. in_range.
  rewrite qget_qset_eq by lia.
  rewrite qset_qset, lxor_1_1, qset_qget by lia.
  by rewrite set_qubits_twice, set_qubits_same.
Qed.

Lemma swap_swap (q : list Z) a b :
  (N.to_nat a < length q)%nat -> (N.to_nat b < length q)%nat ->
  let q' := qset (qset q a (qget q b)) b (qget q a) in
  qset (qset q' a (qget q' b)) b (qget q' a) = q.
Proof.
  intros Ha Hb q'. subst q'.
  destruct (N.eq_dec a b) as [->|Hne].
  - rewrite !qset_qset, !qget_qset_eq by (rewrite ?length_qset; lia).
    by apply qset_qget.
  - rewrite (qget_qset_eq _ b) by (rewrite ?length_qset; lia).
    rewrite (qget_qset_ne _ b a) by done.
    rewrite (qget_qset_eq _ a) by lia.
    destruct (lookup_lt_is_Some_2 q (N.to_nat a) Ha) as [va Hva].
    destruct (lookup_lt_is_Some_2 q (N.to_nat b) Hb) as [vb Hvb].
    apply list_eq. intros i. unfold qset, qget. rewrite Hva, Hvb. simpl.
    destruct (decide (i = N.to_nat b)) as [->|Hib].
    + by rewrite list_lookup_insert_eq by (rewrite ?length_insert; lia).
    + rewrite list_lookup_insert_ne by done.
      destruct (decide (i = N.to_nat a)) as [->|Hia].
      * by rewrite list_lookup_insert_eq by (rewrite ?length_insert; lia).
      * by rewrite !list_lookup_insert_ne by done.
Qed.

Lemma SWAP_twice rt a b :
  a < qubit_count (memory rt) -> b < qubit_count (memory rt) ->
  r_execute_SWAP (snd (r_execute_SWAP rt a b)) a b = (true, rt).
Proof.
  intros Ha Hb. unfold r_execute_SWAP at 2.
  unfold qubit_count in *. in_range.
  unfold r_execute_SWAP, qubit_count. simpl.
  rewrite !length_qset. in_range.
  rewrite set_qubits_twice.
  pose proof (swap_swap (qubits (memory rt)) a b) as Hq. simpl in Hq.
  rewrite Hq by lia. by rewrite set_qubits_same.
Qed.

End Gates.

Section GateClaims.
Import R.

(** C1 (as amended): each primitive applied twice with the same in-range
    operands returns success and restores the runtime, bit array
    included, exactly; for toggle2 (CCNOT) and toggle1 (CNOT) this needs
    the target to differ from the controls, while flip (NOT) and swap
    (SWAP) are involutions for every choice of in-range operands, equal
    ones included. *)
Theorem gate_twice_restores (rt : R_Runtime) (a b c : N) :
  a < qubit_count (memory rt) ->
  b < qubit_count (memory rt) ->
  c < qubit_count (memory rt) ->
  (c <> a -> c <> b ->
   r_execute_CCNOT (snd (r_execute_CCNOT rt a b c)) a b c = (true, rt)) /\
  (b <> a ->
   r_execute_CNOT (snd (r_execute_CNOT rt a b)) a b = (true, rt)) /\
  r_execute_NOT (snd (r_execute_NOT rt a)) a = (true, rt) /\
  r_execute_SWAP (snd (r_execute_SWAP rt a b)) a b = (true, rt).
Proof.
  intros Ha Hb Hc. repeat split.
  - intros. by apply CCNOT_twice.
  - intros. by apply CNOT_twice.
  - by apply NOT_twice.
  - by apply SWAP_twice.
Qed.

(** A three-bit store holding 1, 1, 0. *)
Definition store_110 : R_Runtime :=
  snd (r_execute_NOT (snd (r_execute_NOT (r_runtime_init 3 0) 0)) 1).

Lemma gate_twice_restores_witness :
  (2 <> 0 -> 2 <> 1 ->
   r_execute_CCNOT (snd (r_execute_CCNOT store_110 0 1 2)) 0 1 2
   = (true, store_110)) /\
  (1 <> 0 ->
   r_execute_CNOT (snd (r_execute_CNOT store_110 0 1)) 0 1
   = (true, store_110)) /\
  r_execute_NOT (snd (r_execute_NOT store_110 0)) 0 = (true, store_110) /\
  r_execute_SWAP (snd (r_execute_SWAP store_110 0 1)) 0 1
  = (true, store_110).
Proof.
  apply (gate_twice_restores store_110 0 1 2); reflexivity.
Defined.

(** C1 as stated fails when the target coincides with a control: on the
    store 1,1,0 both [CNOT 0 0] and [CCNOT 0 1 0] are in range, succeed
    twice, and leave bit 0 cleared instead of restoring it. *)
Lemma gate_twice_coinciding_target :
  0 < qubit_count (memory store_110) /\
  1 < qubit_count (memory store_110) /\
  qubits (memory store_110) = [1; 1; 0]%Z /\
  fst (r_execute_CNOT (snd (r_execute_CNOT store_110 0 0)) 0 0) = true /\
  qubits (memory (snd (r_execute_CNOT (snd (r_execute_CNOT store_110 0 0)) 0 0)))
  = [0; 1; 0]%Z /\
  snd (r_execute_CNOT (snd (r_execute_CNOT store_110 0 0)) 0 0) <> store_110 /\
  fst (r_execute_CCNOT (snd (r_execute_CCNOT store_110 0 1 0)) 0 1 0) = true /\
  snd (r_execute_CCNOT (snd (r_execute_CCNOT store_110 0 1 0)) 0 1 0) <> store_110.
Proof.
  repeat split; try reflexivity; vm_compute; discriminate.
Qed.

(** Out-of-range operands: the primitive reports failure and the runtime
    is returned as it was. *)
Lemma CCNOT_out_of_range rt a b c :
  qubit_count (memory rt) <= a \/ qubit_count (memory rt) <= b \/
  qubit_count (memory rt) <= c ->
  r_execute_CCNOT rt a b c = (false, rt).
Proof.
  intros H. unfold r_execute_CCNOT.
  destruct (N.leb_spec (qubit_count (memory rt)) a);
  destruct (N.leb_spec (qubit_count (memory rt)) b);
  destruct (N.leb_spec (qubit_count (memory rt)) c); simpl; try done; lia.
Qed.

Lemma CNOT_out_of_range rt a b :
  qubit_count (memory rt) <= a \/ qubit_count (memory rt) <= b ->
  r_execute_CNOT rt a b = (false, rt).
Proof.
  intros H. unfold r_execute_CNOT.
  destruct (N.leb_spec (qubit_count (memory rt)) a);
  destruct (N.leb_spec (qubit_count (memory rt)) b); simpl; try done; lia.
Qed.

Lemma NOT_out_of_range rt a :
  qubit_count (memory rt) <= a -> r_execute_NOT rt a = (false, rt).
Proof.
  intros H. unfold r_execute_NOT.
  destruct (N.leb_spec (qubit_count (memory rt)) a); simpl; try done; lia.
Qed.

Lemma SWAP_out_of_range rt a b :
  qubit_count (memory rt) <= a \/ qubit_count (memory rt) <= b ->
  r_execute_SWAP rt a b = (false, rt).
Proof.
  intros H. unfold r_execute_SWAP.
  destruct (N.leb_spec (qubit_count (memory rt)) a);
  destruct (N.leb_spec (qubit_count (memory rt)) b); simpl; try done; lia.
Qed.

End GateClaims.

(** ** Cell execution and rewinding *)

Section CellExecution.
Import R.

(** One bit, one cell [NOT 0], not yet executed. *)
Definition one_not_cell : cell_ptr * R_Runtime :=
  r_create_cell (r_runtime_init 1 0) "NOT" ["0"%string] None.

Definition one_not_executed : bool * R_Runtime :=
  r_execute_cell (snd one_not_cell) (fst one_not_cell).

(** A successful execution marks the cell, so a second call fails. *)
Lemma r_execute_cell_marks rt p rt' :
  r_execute_cell rt p = (true, rt') ->
  exists c, cells (memory rt') !! p = Some c /\ executed c = true.
Proof.
  unfold r_execute_cell. intros H.
  destruct (cells (memory rt) !! p) as [c|] eqn:Hp; [|done].
  destruct (executed c); [done|].
  destruct (dispatch_gate rt c) as [ok rt1] eqn:Hd.
  destruct ok; [|done]. injection H as <-. simpl.
  exists (set_executed true c). split; [|done].
  apply list_lookup_insert_eq.
  assert (Hlen : length (cells (memory rt1)) = length (cells (memory rt))).
  { revert Hd. unfold dispatch_gate.
    unfold r_execute_CCNOT, r_execute_CNOT, r_execute_NOT, r_execute_SWAP.
    repeat match goal with
           | |- context [if ?b then _ else _] => destruct b
           end; intros [= <-]; done. }
  rewrite Hlen. by apply lookup_lt_Some in Hp.
Qed.

(** Every slot of the history below [execution_count] designates a cell
    marked as executed. *)
Definition history_executed (rt : R_Runtime) : Prop :=
  forall i, i < execution_count (memory rt) ->
    exists p c, execution_history (memory rt) !! N.to_nat i = Some p /\
                cells (memory rt) !! p = Some c /\ executed c = true.

Lemma rewind_loop_executed n i rt :
  history_executed rt -> i <= execution_count (memory rt) ->
  (n <= N.to_nat i)%nat ->
  rewind_loop n i rt = rt.
Proof.
  intros Hh. revert i. induction n as [|n IH]; intros i Hi Hn; [done|].
  simpl. destruct (Hh (i - 1)) as (p & c & Hp & Hc & He); [lia|].
  rewrite Hp. unfold r_execute_inverse, r_execute_cell. rewrite Hc, He.
  simpl. apply IH; lia.
Qed.

(** On a runtime whose history holds executed cells, rewinding replays
    nothing: only the execution count moves. *)
Lemma r_rewind_only_moves_count rt k :
  history_executed rt -> k <= execution_count (memory rt) ->
  r_rewind_to_index rt k = (true, set_execution_count k rt).
Proof.
  intros Hh Hk. unfold r_rewind_to_index.
  destruct (N.ltb_spec (execution_count (memory rt)) k); [lia|].
  rewrite rewind_loop_executed; [done..|lia].
Qed.

(** C2 fails on the code: on one bit initially 0, after executing the
    cell [NOT 0] the bit is 1 and the execution count is 1; rewinding to
    index 0 succeeds and sets the count to 0, but the bit is still 1 and
    not the 0 it was at position 0, because [r_execute_inverse] refuses
    the already executed cell. *)
Theorem r_rewind_does_not_restore_bits :
  qubits (memory (snd one_not_cell)) = [0%Z] /\
  execution_count (memory (snd one_not_cell)) = 0 /\
  fst one_not_executed = true /\
  qubits (memory (snd one_not_executed)) = [1%Z] /\
  execution_count (memory (snd one_not_executed)) = 1 /\
  fst (r_rewind_to_index (snd one_not_executed) 0) = true /\
  execution_count (memory (snd (r_rewind_to_index (snd one_not_executed) 0))) = 0 /\
  qubits (memory (snd (r_rewind_to_index (snd one_not_executed) 0))) = [1%Z].
Proof. repeat split. Qed.

End CellExecution.

(** ** The dissipative gates *)

Section DissipativeGates.
Import R D.

(** A bit cell read as a C truth value. *)
Definition bit_of (v : Z) : bool := negb (v =? 0)%Z.

(** Every cell of the array holds 0 or 1. *)
Definition bits_ok (q : list Z) : Prop := Forall (fun v => v = 0 \/ v = 1)%Z q.

(** The runtime has the shape [d_runtime_init] gives it when the sum of
    its two counts fits [uint32_t]: the ancillas are the last
    [ancilla_count] cells of the bit array. *)
Definition d_wf (rt : D_Runtime) : Prop :=
  ancilla_start rt + ancilla_count rt = qubit_count (memory (r_runtime rt)) /\
  qubit_count (memory (r_runtime rt)) < 2 ^ 32.

Lemma bits_ok_qget q a :
  bits_ok q -> (N.to_nat a < length q)%nat ->
  (qget q a = 0 \/ qget q a = 1)%Z.
Proof.
  intros Hq Ha. unfold qget.
  destruct (lookup_lt_is_Some_2 q (N.to_nat a) Ha) as [v Hv].
  rewrite Hv. simpl. exact (proj1 (Forall_lookup _ q) Hq _ _ Hv).
Qed.

Lemma bits_ok_qset q a v :
  bits_ok q -> (v = 0 \/ v = 1)%Z -> bits_ok (qset q a v).
Proof.
  intros Hq Hv. unfold bits_ok, qset.
  destruct (decide (N.to_nat a < length q)%nat).
  - by apply Forall_insert.
  - rewrite list_insert_ge; [done | lia].
Qed.

Lemma bits_ok_repeat n : bits_ok (repeat 0%Z n).
Proof. induction n; simpl; [constructor | constructor; [by left | done]]. Qed.

Lemma d_runtime_init_wf q anc i :
  q + anc < 2 ^ 32 ->
  d_wf (d_runtime_init q anc i) /\ bits_ok (bits (d_runtime_init q anc i)).
Proof.
  intros Hsum. split; [split|]; unfold d_runtime_init, bits; simpl.
  - unfold qubit_count. simpl. rewrite repeat_length.
    unfold LibC.to_uint32. rewrite Z.mod_small by lia. lia.
  - unfold qubit_count. simpl. rewrite repeat_length.
    unfold LibC.to_uint32. rewrite Z.mod_small by lia. lia.
  - apply bits_ok_repeat.
Qed.

(** *** The primitives on in-range operands, as functions of the array *)

Definition not_bits (q : list Z) (a : N) : list Z :=
  qset q a (Z.lxor (qget q a) 1).

Definition cnot_bits (q : list Z) (a b : N) : list Z :=
  if bit_of (qget q a) then not_bits q b else q.

Definition ccnot_bits (q : list Z) (a b c : N) : list Z :=
  if bit_of (qget q a) && bit_of (qget q b) then not_bits q c else q.

Lemma NOT_in_range rt a :
  a < qubit_count (memory rt) ->
  r_execute_NOT rt a = (true, set_qubits (not_bits (qubits (memory rt)) a) rt).
Proof.
  intros Ha. unfold r_execute_NOT.
  destruct (N.leb_spec (qubit_count (memory rt)) a); [lia | done].
Qed.

Lemma CNOT_in_range rt a b :
  a < qubit_count (memory rt) -> b < qubit_count (memory rt) ->
  r_execute_CNOT rt a b = (true, set_qubits (cnot_bits (qubits (memory rt)) a b) rt).
Proof.
  intros Ha Hb. unfold r_execute_CNOT, cnot_bits, bit_of.
  destruct (N.leb_spec (qubit_count (memory rt)) a); [lia|].
  destruct (N.leb_spec (qubit_count (memory rt)) b); [lia|]. simpl.
  destruct (negb _); [done|]. by rewrite set_qubits_same.
Qed.

Lemma CCNOT_in_range rt a b c :
  a < qubit_count (memory rt) -> b < qubit_count (memory rt) ->
  c < qubit_count (memory rt) ->
  r_execute_CCNOT rt a b c
  = (true, set_qubits (ccnot_bits (qubits (memory rt)) a b c) rt).
Proof.
  intros Ha Hb Hc. unfold r_execute_CCNOT, ccnot_bits, bit_of.
  destruct (N.leb_spec (qubit_count (memory rt)) a); [lia|].
  destruct (N.leb_spec (qubit_count (memory rt)) b); [lia|].
  destruct (N.leb_spec (qubit_count (memory rt)) c); [lia|]. simpl.
  destruct (_ && _); [done|]. by rewrite set_qubits_same.
Qed.

Lemma read_in_range rt a :
  a < qubit_count (memory rt) ->
  r_read_qubit rt a = qget (qubits (memory rt)) a.
Proof.
  intros Ha. unfold r_read_qubit.
  destruct (N.leb_spec (qubit_count (memory rt)) a); [lia | done].
Qed.

Lemma write_in_range rt a v :
  a < qubit_count (memory rt) ->
  r_write_qubit rt a v
  = (true, set_qubits (qset (qubits (memory rt)) a (Z.land v 1)) rt).
Proof.
  intros Ha. unfold r_write_qubit.
  destruct (N.leb_spec (qubit_count (memory rt)) a); [lia | done].
Qed.

Lemma length_not_bits q a : length (not_bits q a) = length q.
Proof. apply length_qset. Qed.

Lemma length_cnot_bits q a b : length (cnot_bits q a b) = length q.
Proof. unfold cnot_bits. destruct (bit_of _); [apply length_qset | done]. Qed.

Lemma length_ccnot_bits q a b c : length (ccnot_bits q a b c) = length q.
Proof. unfold ccnot_bits. destruct (_ && _); [apply length_qset | done]. Qed.

(** *** AND, XOR, NAND as functions of the array *)

Definition clear_bits (q : list Z) (r : N) : list Z :=
  if bit_of (qget q r) then not_bits q r else q.

Lemma length_clear_bits q r : length (clear_bits q r) = length q.
Proof. unfold clear_bits. destruct (bit_of _); [apply length_qset | done]. Qed.

Lemma clear_bits_spec q r :
  bits_ok q -> (N.to_nat r < length q)%nat -> clear_bits q r = qset q r 0%Z.
Proof.
  intros Hq Hr. unfold clear_bits, not_bits, bit_of.
  destruct (bits_ok_qget q r Hq Hr) as [E|E]; rewrite E; simpl; [|done].
  rewrite <- E. symmetry. by apply qset_qget.
Qed.

Lemma AND_in_range rt a b r :
  a < qubit_count (memory (r_runtime rt)) ->
  b < qubit_count (memory (r_runtime rt)) ->
  r < qubit_count (memory (r_runtime rt)) ->
  d_execute_AND rt a b r
  = (true, set_r (set_qubits (ccnot_bits (clear_bits (bits rt) r) a b r)
                             (r_runtime rt)) rt).
Proof.
  intros Ha Hb Hr. unfold d_execute_AND, clear_bits, bits.
  rewrite read_in_range, NOT_in_range by done. fold (bit_of (qget (qubits (memory (r_runtime rt))) r)).
  destruct (bit_of _); simpl.
  - rewrite CCNOT_in_range
      by (unfold qubit_count in *; simpl; rewrite length_not_bits; done).
    done.
  - by rewrite CCNOT_in_range.
Qed.

Lemma and_bits_spec q a b r :
  bits_ok q -> (N.to_nat r < length q)%nat -> r <> a -> r <> b ->
  ccnot_bits (clear_bits q r) a b r
  = qset q r (Z.b2z (bit_of (qget q a) && bit_of (qget q b))).
Proof.
  intros Hq Hr Hra Hrb. rewrite clear_bits_spec by done.
  unfold ccnot_bits, not_bits.
  rewrite !qget_qset_ne by done.
  destruct (_ && _); simpl; [|done].
  by rewrite qget_qset_eq, qset_qset.
Qed.

Ltac qsimp :=
  repeat first
    [ rewrite qget_qset_ne by done
    | rewrite qget_qset_eq by (rewrite ?length_qset; done)
    | rewrite qset_qset ];
  simpl.

Lemma xor_bits_spec q a b r :
  bits_ok q -> (N.to_nat r < length q)%nat -> r <> a -> r <> b ->
  cnot_bits (cnot_bits (clear_bits q r) a r) b r
  = qset q r (Z.b2z (xorb (bit_of (qget q a)) (bit_of (qget q b)))).
Proof.
  intros Hq Hr Hra Hrb. rewrite clear_bits_spec by done.
  unfold cnot_bits, not_bits. qsimp.
  destruct (bit_of (qget q a)); qsimp;
    destruct (bit_of (qget q b)); qsimp; done.
Qed.

Lemma set_r_set_r r1 r2 rt : set_r r2 (set_r r1 rt) = set_r r2 rt.
Proof. done. Qed.

Lemma XOR_in_range rt a b r :
  a < qubit_count (memory (r_runtime rt)) ->
  b < qubit_count (memory (r_runtime rt)) ->
  r < qubit_count (memory (r_runtime rt)) ->
  d_execute_XOR rt a b r
  = (true, set_r (set_qubits (cnot_bits (cnot_bits (clear_bits (bits rt) r) a r) b r)
                             (r_runtime rt)) rt).
Proof.
  intros Ha Hb Hr. unfold d_execute_XOR, bits.
  rewrite read_in_range, NOT_in_range by done.
  fold (bit_of (qget (qubits (memory (r_runtime rt))) r)).
  assert (Hr1 : (if bit_of (qget (qubits (memory (r_runtime rt))) r)
                 then snd (true, set_qubits (not_bits (qubits (memory (r_runtime rt))) r) (r_runtime rt))
                 else r_runtime rt)
                = set_qubits (clear_bits (qubits (memory (r_runtime rt))) r) (r_runtime rt)).
  { unfold clear_bits. destruct (bit_of _); [done|]. by rewrite set_qubits_same. }
  rewrite Hr1. unfold qubit_count in *.
  rewrite (CNOT_in_range (set_qubits _ (r_runtime rt)) a r)
    by (unfold qubit_count; simpl; rewrite length_clear_bits; done).
  simpl. rewrite CNOT_in_range
    by (unfold qubit_count; simpl; rewrite length_cnot_bits, length_clear_bits; done).
  done.
Qed.

Lemma NAND_in_range rt a b r :
  a < qubit_count (memory (r_runtime rt)) ->
  b < qubit_count (memory (r_runtime rt)) ->
  r < qubit_count (memory (r_runtime rt)) ->
  d_execute_NAND rt a b r
  = (true, set_r (set_qubits (not_bits (ccnot_bits (clear_bits (bits rt) r) a b r) r)
                             (r_runtime rt)) rt).
Proof.
  intros Ha Hb Hr. unfold d_execute_NAND.
  rewrite AND_in_range by done. simpl.
  rewrite NOT_in_range
    by (unfold qubit_count in *; simpl;
        rewrite length_ccnot_bits, length_clear_bits; done).
  done.
Qed.

(** *** OR and NOR *)

Definition or_bits (q : list Z) (a b r anc_a anc_b : N) : list Z :=
  let q1 := qset q anc_a (Z.land (qget q a) 1) in
  let q2 := not_bits q1 anc_a in
  let q3 := qset q2 anc_b (Z.land (qget q2 b) 1) in
  let q4 := not_bits q3 anc_b in
  let q5 := ccnot_bits (clear_bits q4 r) anc_a anc_b r in
  not_bits q5 r.

Lemma length_or_bits q a b r x y : length (or_bits q a b r x y) = length q.
Proof.
  unfold or_bits.
  by rewrite length_not_bits, length_ccnot_bits, length_clear_bits,
    length_not_bits, length_qset, length_not_bits, length_qset.
Qed.

Lemma ancilla_b_no_wrap rt :
  d_wf rt -> 2 <= ancilla_count rt ->
  LibC.to_uint32 (Z.of_N (ancilla_start rt + 1)) = ancilla_start rt + 1.
Proof.
  intros [Hsum Hlt] Hc. unfold LibC.to_uint32.
  rewrite Z.mod_small by lia. lia.
Qed.

(** The same steps on a runtime whose bit array has just been replaced. *)
Lemma NOT_set q r0 a :
  a < N.of_nat (length q) ->
  r_execute_NOT (set_qubits q r0) a = (true, set_qubits (not_bits q a) r0).
Proof. intros Ha. by rewrite NOT_in_range. Qed.

Lemma read_set q r0 a :
  a < N.of_nat (length q) -> r_read_qubit (set_qubits q r0) a = qget q a.
Proof. intros Ha. by rewrite read_in_range. Qed.

Lemma write_set q r0 a v :
  a < N.of_nat (length q) ->
  r_write_qubit (set_qubits q r0) a v
  = (true, set_qubits (qset q a (Z.land v 1)) r0).
Proof. intros Ha. by rewrite write_in_range. Qed.

Lemma AND_set q r0 rt a b r :
  a < N.of_nat (length q) -> b < N.of_nat (length q) ->
  r < N.of_nat (length q) ->
  d_execute_AND (set_r (set_qubits q r0) rt) a b r
  = (true, set_r (set_qubits (ccnot_bits (clear_bits q r) a b r) r0) rt).
Proof. intros Ha Hb Hr. by rewrite AND_in_range. Qed.

Lemma OR_set q r0 s c a b r :
  2 <= c -> s + c = N.of_nat (length q) -> N.of_nat (length q) < 2 ^ 32 ->
  a < N.of_nat (length q) -> b < N.of_nat (length q) ->
  r < N.of_nat (length q) ->
  d_execute_OR (mkD (set_qubits q r0) s c) a b r
  = (true, mkD (set_qubits (or_bits q a b r s (s + 1)) r0) s c).
Proof.
  intros Hc Hsum Hlt Ha Hb Hr. unfold d_execute_OR.
  cbn [ancilla_count ancilla_start r_runtime].
  destruct (N.ltb_spec c 2); [lia|].
  replace (LibC.to_uint32 (Z.of_N (s + 1))) with (s + 1)
    by (unfold LibC.to_uint32; rewrite Z.mod_small by lia; lia).
  assert (HA : s < N.of_nat (length q)) by lia.
  assert (HB : s + 1 < N.of_nat (length q)) by lia.
  unfold or_bits.
  rewrite read_set, write_set by done. cbn [snd].
  rewrite NOT_set by (rewrite length_qset; done). cbn [snd].
  rewrite read_set, write_set by (rewrite length_not_bits, length_qset; done).
  cbn [snd].
  rewrite NOT_set
    by (rewrite length_qset, length_not_bits, length_qset; done).
  cbn [snd].
  rewrite !AND_set
    by (rewrite length_not_bits, length_qset, length_not_bits, length_qset; done).
  cbn [snd r_runtime set_r ancilla_count ancilla_start].
  rewrite NOT_set
    by (rewrite length_ccnot_bits, length_clear_bits,
          length_not_bits, length_qset, length_not_bits, length_qset; done).
  done.
Qed.

Lemma OR_in_range rt a b r :
  d_wf rt -> 2 <= ancilla_count rt ->
  a < qubit_count (memory (r_runtime rt)) ->
  b < qubit_count (memory (r_runtime rt)) ->
  r < qubit_count (memory (r_runtime rt)) ->
  d_execute_OR rt a b r
  = (true, set_r (set_qubits (or_bits (bits rt) a b r (ancilla_start rt)
                                      (ancilla_start rt + 1))
                             (r_runtime rt)) rt).
Proof.
  intros [Hsum Hlt] Hc Ha Hb Hr. destruct rt as [r0 s c].
  unfold qubit_count, bits in *. cbn [ancilla_count ancilla_start r_runtime] in *.
  pose proof (OR_set (qubits (memory r0)) r0 s c a b r Hc Hsum Hlt Ha Hb Hr) as H.
  rewrite set_qubits_same in H. exact H.
Qed.

Lemma land_bit v : (v = 0 \/ v = 1)%Z -> Z.land v 1 = v.
Proof. by intros [->| ->]. Qed.

Lemma lxor_bit v : (v = 0 \/ v = 1)%Z -> Z.lxor v 1 = Z.b2z (negb (bit_of v)).
Proof. by intros [->| ->]. Qed.

Lemma b2z_bit (x : bool) : (Z.b2z x = 0 \/ Z.b2z x = 1)%Z.
Proof. destruct x; [by right | by left]. Qed.

Lemma bit_of_b2z (x : bool) : bit_of (Z.b2z x) = x.
Proof. by destruct x. Qed.

(** The array after OR: the first ancilla holds NOT a, the second NOT b,
    result holds a OR b, and nothing else has changed. *)
Lemma or_bits_spec q a b r x y :
  bits_ok q ->
  (N.to_nat a < length q)%nat -> (N.to_nat b < length q)%nat ->
  (N.to_nat r < length q)%nat ->
  (N.to_nat x < length q)%nat -> (N.to_nat y < length q)%nat ->
  x <> y -> a <> x -> a <> y -> b <> x -> b <> y -> r <> x -> r <> y ->
  or_bits q a b r x y
  = qset (qset (qset q x (Z.b2z (negb (bit_of (qget q a)))))
               y (Z.b2z (negb (bit_of (qget q b)))))
         r (Z.b2z (bit_of (qget q a) || bit_of (qget q b))).
Proof.
  intros Hq Ha Hb Hr Hx Hy Hxy Hax Hay Hbx Hby Hrx Hry.
  pose proof (bits_ok_qget q a Hq Ha) as Hva.
  pose proof (bits_ok_qget q b Hq Hb) as Hvb.
  unfold or_bits, not_bits.
  rewrite (land_bit _ Hva). qsimp.
  rewrite (land_bit _ Hvb). qsimp.
  rewrite (lxor_bit _ Hva), (lxor_bit _ Hvb).
  set (q4 := qset (qset q x _) y _).
  assert (Hq4 : bits_ok q4)
    by (subst q4; repeat apply bits_ok_qset; auto using b2z_bit).
  assert (Hl4 : length q4 = length q) by (subst q4; by rewrite !length_qset).
  rewrite and_bits_spec by (rewrite ?Hl4; done).
  rewrite qget_qset_eq by (rewrite Hl4; done). rewrite qset_qset.
  subst q4. qsimp. rewrite !bit_of_b2z.
  rewrite lxor_bit by apply b2z_bit. rewrite bit_of_b2z.
  by rewrite negb_andb, !negb_involutive.
Qed.

Lemma NOR_in_range rt a b r :
  d_wf rt -> 2 <= ancilla_count rt ->
  a < qubit_count (memory (r_runtime rt)) ->
  b < qubit_count (memory (r_runtime rt)) ->
  r < qubit_count (memory (r_runtime rt)) ->
  d_execute_NOR rt a b r
  = (true, set_r (set_qubits
                    (not_bits (or_bits (bits rt) a b r (ancilla_start rt)
                                       (ancilla_start rt + 1)) r)
                    (r_runtime rt)) rt).
Proof.
  intros Hwf Hc Ha Hb Hr. unfold d_execute_NOR.
  rewrite OR_in_range by done. simpl.
  rewrite NOT_in_range
    by (unfold qubit_count in *; simpl; rewrite length_or_bits; done).
  done.
Qed.

(** *** Claims about the dissipative gates *)

(** C3 (as amended): with all cells holding 0 or 1, inputs [a], [b] and a
    result index distinct from both, all in range, AND, XOR and NAND
    leave the truth-table value in the result cell whatever it held
    before; OR and NOR do so on a runtime whose (at least two) ancilla
    cells are the tail of the bit array, when [a], [b] and [result] are
    not ancilla indices. *)
Theorem d_gates_truth_table (rt : D_Runtime) (a b result : N) :
  bits_ok (bits rt) ->
  a < qubit_count (memory (r_runtime rt)) ->
  b < qubit_count (memory (r_runtime rt)) ->
  result < qubit_count (memory (r_runtime rt)) ->
  result <> a -> result <> b ->
  qget (bits (snd (d_execute_AND rt a b result))) result
  = Z.b2z (bit_of (qget (bits rt) a) && bit_of (qget (bits rt) b)) /\
  qget (bits (snd (d_execute_XOR rt a b result))) result
  = Z.b2z (xorb (bit_of (qget (bits rt) a)) (bit_of (qget (bits rt) b))) /\
  qget (bits (snd (d_execute_NAND rt a b result))) result
  = Z.b2z (negb (bit_of (qget (bits rt) a) && bit_of (qget (bits rt) b))) /\
  (d_wf rt -> 2 <= ancilla_count rt ->
   a < ancilla_start rt -> b < ancilla_start rt -> result < ancilla_start rt ->
   qget (bits (snd (d_execute_OR rt a b result))) result
   = Z.b2z (bit_of (qget (bits rt) a) || bit_of (qget (bits rt) b)) /\
   qget (bits (snd (d_execute_NOR rt a b result))) result
   = Z.b2z (negb (bit_of (qget (bits rt) a) || bit_of (qget (bits rt) b)))).
Proof.
  intros Hq Ha Hb Hr Hra Hrb.
  assert (Hr' : (N.to_nat result < length (bits rt))%nat)
    by (unfold bits, qubit_count in *; lia).
  split; [|split; [|split]].
  - rewrite AND_in_range by done. unfold bits at 1. simpl.
    rewrite and_bits_spec by done. by rewrite qget_qset_eq.
  - rewrite XOR_in_range by done. unfold bits at 1. simpl.
    rewrite xor_bits_spec by done. by rewrite qget_qset_eq.
  - rewrite NAND_in_range by done. unfold bits at 1. simpl.
    rewrite and_bits_spec by done. unfold not_bits.
    rewrite qget_qset_eq by (rewrite length_qset; done).
    rewrite qget_qset_eq by done.
    rewrite lxor_bit by apply b2z_bit. by rewrite bit_of_b2z.
  - intros Hwf Hc Haa Hba Hra'.
    assert (Hs : ancilla_start rt + 1 < qubit_count (memory (r_runtime rt)))
      by (destruct Hwf; lia).
    unfold bits, qubit_count in *.
    rewrite NOR_in_range, OR_in_range by done. unfold bits. simpl.
    rewrite !or_bits_spec by (try done; lia).
    unfold not_bits.
    rewrite !qget_qset_eq by (rewrite ?length_qset; lia).
    rewrite lxor_bit by apply b2z_bit. by rewrite bit_of_b2z.
Qed.

(** Three data bits holding 1, 0, 0 followed by two ancilla bits. *)
Definition d_store_100 : D_Runtime :=
  let rt := d_runtime_init 3 2 0 in
  set_r (snd (r_execute_NOT (r_runtime rt) 0)) rt.

Lemma d_store_100_bits_ok : bits_ok (bits d_store_100).
Proof.
  change (bits_ok [1; 0; 0; 0; 0]%Z).
  repeat (apply List.Forall_cons; [(by left) || (by right)|]).
  apply List.Forall_nil.
Defined.

Lemma d_store_100_wf : d_wf d_store_100.
Proof. split; reflexivity. Defined.

Lemma d_gates_truth_table_witness :
  qget (bits (snd (d_execute_AND d_store_100 0 1 2))) 2
  = Z.b2z (bit_of (qget (bits d_store_100) 0) && bit_of (qget (bits d_store_100) 1)) /\
  qget (bits (snd (d_execute_XOR d_store_100 0 1 2))) 2
  = Z.b2z (xorb (bit_of (qget (bits d_store_100) 0)) (bit_of (qget (bits d_store_100) 1))) /\
  qget (bits (snd (d_execute_NAND d_store_100 0 1 2))) 2
  = Z.b2z (negb (bit_of (qget (bits d_store_100) 0) && bit_of (qget (bits d_store_100) 1))) /\
  (d_wf d_store_100 -> 2 <= ancilla_count d_store_100 ->
   0 < ancilla_start d_store_100 -> 1 < ancilla_start d_store_100 ->
   2 < ancilla_start d_store_100 ->
   qget (bits (snd (d_execute_OR d_store_100 0 1 2))) 2
   = Z.b2z (bit_of (qget (bits d_store_100) 0) || bit_of (qget (bits d_store_100) 1)) /\
   qget (bits (snd (d_execute_NOR d_store_100 0 1 2))) 2
   = Z.b2z (negb (bit_of (qget (bits d_store_100) 0) || bit_of (qget (bits d_store_100) 1)))).
Proof.
  apply (d_gates_truth_table d_store_100 0 1 2);
    [exact d_store_100_bits_ok | reflexivity | reflexivity | reflexivity
    | discriminate | discriminate].
Defined.

(** Three data bits holding 1, 0, 0 and no ancilla. *)
Definition d_store_100_bare : D_Runtime :=
  let rt := d_runtime_init 3 0 0 in
  set_r (snd (r_execute_NOT (r_runtime rt) 0)) rt.

(** C3 as stated fails for OR and NOR.  Without ancilla bits OR(0,1,2)
    on 1,0,0 returns [false] and leaves result at 0 where 1 OR 0 = 1, and
    NOR then leaves 1 where NOT(1 OR 0) = 0.  With two ancillas (cells 2
    and 3 of four) and inputs 0, 0, OR with the in-range result index 2,
    an ancilla, leaves 1 where 0 OR 0 = 0. *)
Lemma d_gates_truth_table_or_fails :
  bits d_store_100_bare = [1; 0; 0]%Z /\
  d_execute_OR d_store_100_bare 0 1 2 = (false, d_store_100_bare) /\
  qget (bits (snd (d_execute_OR d_store_100_bare 0 1 2))) 2 = 0%Z /\
  Z.b2z (bit_of (qget (bits d_store_100_bare) 0)
         || bit_of (qget (bits d_store_100_bare) 1)) = 1%Z /\
  qget (bits (snd (d_execute_NOR d_store_100_bare 0 1 2))) 2 = 1%Z /\
  bits (d_runtime_init 2 2 0) = [0; 0; 0; 0]%Z /\
  qget (bits (snd (d_execute_OR (d_runtime_init 2 2 0) 0 1 2))) 2 = 1%Z.
Proof. repeat split. Qed.

(** C4 (as amended): on a runtime whose (at least two) ancilla cells are
    the tail of the bit array, with [a], [b] and [result] in range and not
    ancilla indices, OR returns [true]; afterwards the first ancilla holds
    NOT a and the second NOT b (they are overwritten, not restored),
    result holds a OR b, every other cell of the bit array and the rest
    of the runtime are as before the call. *)
Theorem d_execute_OR_effect (rt : D_Runtime) (a b result : N) :
  d_wf rt -> bits_ok (bits rt) -> 2 <= ancilla_count rt ->
  a < ancilla_start rt -> b < ancilla_start rt -> result < ancilla_start rt ->
  d_execute_OR rt a b result
  = (true,
     set_r (set_qubits
              (qset (qset (qset (bits rt) (ancilla_start rt)
                                (Z.b2z (negb (bit_of (qget (bits rt) a)))))
                          (ancilla_start rt + 1)
                          (Z.b2z (negb (bit_of (qget (bits rt) b)))))
                    result
                    (Z.b2z (bit_of (qget (bits rt) a) || bit_of (qget (bits rt) b))))
              (r_runtime rt)) rt).
Proof.
  intros Hwf Hq Hc Ha Hb Hr.
  assert (Hs : ancilla_start rt + 1 < qubit_count (memory (r_runtime rt)))
    by (destruct Hwf; lia).
  unfold bits, qubit_count in *.
  rewrite OR_in_range by (try done; destruct Hwf; unfold qubit_count in *; lia).
  unfold bits. by rewrite or_bits_spec by (try done; lia).
Qed.

Lemma d_execute_OR_effect_witness :
  d_execute_OR d_store_100 0 1 2
  = (true,
     set_r (set_qubits
              (qset (qset (qset (bits d_store_100) (ancilla_start d_store_100)
                                (Z.b2z (negb (bit_of (qget (bits d_store_100) 0)))))
                          (ancilla_start d_store_100 + 1)
                          (Z.b2z (negb (bit_of (qget (bits d_store_100) 1)))))
                    2
                    (Z.b2z (bit_of (qget (bits d_store_100) 0)
                            || bit_of (qget (bits d_store_100) 1))))
              (r_runtime d_store_100)) d_store_100).
Proof.
  apply (d_execute_OR_effect d_store_100 0 1 2);
    [exact d_store_100_wf | exact d_store_100_bits_ok
    | discriminate | reflexivity | reflexivity | reflexivity].
Defined.

(** C4 as stated fails: on three zeroed data bits and two zeroed
    ancillas, OR(0,1,2) returns [true] with both ancilla cells changed
    from 0 to 1 and the result cell unchanged. *)
Lemma d_execute_OR_dirties_ancillas :
  2 <= ancilla_count (d_runtime_init 3 2 0) /\
  bits (d_runtime_init 3 2 0) = [0; 0; 0; 0; 0]%Z /\
  fst (d_execute_OR (d_runtime_init 3 2 0) 0 1 2) = true /\
  bits (snd (d_execute_OR (d_runtime_init 3 2 0) 0 1 2)) = [0; 0; 0; 1; 1]%Z.
Proof. repeat split. discriminate. Qed.

Lemma NOT_qubit_count r a :
  qubit_count (memory (snd (r_execute_NOT r a))) = qubit_count (memory r).
Proof.
  unfold r_execute_NOT. destruct (_ <=? _); [done|].
  unfold qubit_count. simpl. by rewrite length_qset.
Qed.

Lemma NOT_other_bits r a i :
  i <> a ->
  qget (qubits (memory (snd (r_execute_NOT r a)))) i = qget (qubits (memory r)) i.
Proof.
  intros Hi. unfold r_execute_NOT. destruct (_ <=? _); [done|].
  simpl. by rewrite qget_qset_ne.
Qed.

Lemma AND_out_of_range rt a b result :
  qubit_count (memory (r_runtime rt)) <= a \/
  qubit_count (memory (r_runtime rt)) <= b \/
  qubit_count (memory (r_runtime rt)) <= result ->
  fst (d_execute_AND rt a b result) = false /\
  forall i, i <> result ->
    qget (bits (snd (d_execute_AND rt a b result))) i = qget (bits rt) i.
Proof.
  intros H. unfold d_execute_AND.
  set (r1 := if negb (r_read_qubit (r_runtime rt) result =? 0)%Z
             then snd (r_execute_NOT (r_runtime rt) result)
             else r_runtime rt).
  assert (Hc : qubit_count (memory r1) = qubit_count (memory (r_runtime rt))).
  { subst r1. destruct (negb _); [apply NOT_qubit_count | done]. }
  rewrite CCNOT_out_of_range by (rewrite Hc; done).
  split; [done|]. intros i Hi. unfold bits. simpl. subst r1.
  destruct (negb _); [by apply NOT_other_bits | done].
Qed.

Lemma AND_result_out_of_range rt a b result :
  qubit_count (memory (r_runtime rt)) <= result ->
  d_execute_AND rt a b result = (false, rt).
Proof.
  intros H. unfold d_execute_AND, r_read_qubit.
  destruct (N.leb_spec (qubit_count (memory (r_runtime rt))) result); [|lia].
  simpl. rewrite CCNOT_out_of_range by auto. by destruct rt.
Qed.

(** What the code does validate.  Each of the four gate primitives,
    given an out-of-range index [x] in any operand position (whatever the
    other operands [y], [z] are), returns [false] and leaves the whole
    runtime, bit array included, unchanged.  [d_execute_AND] returns the
    result of its final [r_execute_CCNOT], so it returns [false] too; it
    has cleared the result cell by then, and touches no other cell. *)
Theorem out_of_range_fails (rt : D_Runtime) (x y z : N) :
  qubit_count (memory (r_runtime rt)) <= x ->
  (r_execute_CCNOT (r_runtime rt) x y z = (false, r_runtime rt) /\
   r_execute_CCNOT (r_runtime rt) y x z = (false, r_runtime rt) /\
   r_execute_CCNOT (r_runtime rt) y z x = (false, r_runtime rt)) /\
  (r_execute_CNOT (r_runtime rt) x y = (false, r_runtime rt) /\
   r_execute_CNOT (r_runtime rt) y x = (false, r_runtime rt)) /\
  r_execute_NOT (r_runtime rt) x = (false, r_runtime rt) /\
  (r_execute_SWAP (r_runtime rt) x y = (false, r_runtime rt) /\
   r_execute_SWAP (r_runtime rt) y x = (false, r_runtime rt)) /\
  d_execute_AND rt y z x = (false, rt) /\
  (fst (d_execute_AND rt x y z) = false /\
   forall i, i <> z -> qget (bits (snd (d_execute_AND rt x y z))) i = qget (bits rt) i) /\
  (fst (d_execute_AND rt y x z) = false /\
   forall i, i <> z -> qget (bits (snd (d_execute_AND rt y x z))) i = qget (bits rt) i).
Proof.
  intros Hx.
  repeat match goal with |- _ /\ _ => split end;
    try (apply CCNOT_out_of_range; auto);
    try (apply CNOT_out_of_range; auto);
    try (apply NOT_out_of_range; auto);
    try (apply SWAP_out_of_range; auto);
    try (apply AND_result_out_of_range; auto);
    try (apply AND_out_of_range; auto).
Qed.

(** Two data bits holding 0, 1 and no ancilla. *)
Definition d_store_01 : D_Runtime :=
  let rt := d_runtime_init 2 0 0 in
  set_r (snd (r_execute_NOT (r_runtime rt) 1)) rt.

Lemma out_of_range_fails_witness :
  (r_execute_CCNOT (r_runtime d_store_01) 5 0 1 = (false, r_runtime d_store_01) /\
   r_execute_CCNOT (r_runtime d_store_01) 0 5 1 = (false, r_runtime d_store_01) /\
   r_execute_CCNOT (r_runtime d_store_01) 0 1 5 = (false, r_runtime d_store_01)) /\
  (r_execute_CNOT (r_runtime d_store_01) 5 0 = (false, r_runtime d_store_01) /\
   r_execute_CNOT (r_runtime d_store_01) 0 5 = (false, r_runtime d_store_01)) /\
  r_execute_NOT (r_runtime d_store_01) 5 = (false, r_runtime d_store_01) /\
  (r_execute_SWAP (r_runtime d_store_01) 5 0 = (false, r_runtime d_store_01) /\
   r_execute_SWAP (r_runtime d_store_01) 0 5 = (false, r_runtime d_store_01)) /\
  d_execute_AND d_store_01 0 1 5 = (false, d_store_01) /\
  (fst (d_execute_AND d_store_01 5 0 1) = false /\
   forall i, i <> 1 ->
     qget (bits (snd (d_execute_AND d_store_01 5 0 1))) i = qget (bits d_store_01) i) /\
  (fst (d_execute_AND d_store_01 0 5 1) = false /\
   forall i, i <> 1 ->
     qget (bits (snd (d_execute_AND d_store_01 0 5 1))) i = qget (bits d_store_01) i).
Proof.
  apply (out_of_range_fails d_store_01 5 0 1). discriminate.
Defined.

(** C5: the D-layer gates do not fail cleanly on an out-of-range index,
    unlike the four primitives they are built from.  On the bits 0, 1
    with the out-of-range input index 5, AND returns [false] but has
    cleared the result bit, while XOR, NAND, NOR and (given two ancillas)
    OR return [true], XOR, NOR and OR having changed the bit array: the
    gates write the result cell before the primitives check the operands,
    and all but AND discard what the primitives return. *)
Lemma d_gates_out_of_range :
  qubit_count (memory (r_runtime d_store_01)) <= 5 /\
  bits d_store_01 = [0; 1]%Z /\
  fst (d_execute_AND d_store_01 5 0 1) = false /\
  bits (snd (d_execute_AND d_store_01 5 0 1)) = [0; 0]%Z /\
  fst (d_execute_XOR d_store_01 5 0 1) = true /\
  bits (snd (d_execute_XOR d_store_01 5 0 1)) = [0; 0]%Z /\
  fst (d_execute_NAND d_store_01 5 0 1) = true /\
  fst (d_execute_NOR d_store_01 5 0 1) = true /\
  bits (snd (d_execute_NOR d_store_01 5 0 1)) = [0; 0]%Z /\
  fst (d_execute_OR (d_runtime_init 1 2 0) 7 0 0) = true /\
  bits (d_runtime_init 1 2 0) = [0; 0; 0]%Z /\
  bits (snd (d_execute_OR (d_runtime_init 1 2 0) 7 0 0)) = [0; 1; 1]%Z.
Proof. repeat split. discriminate. Qed.

End DissipativeGates.

(** ** The behavioural consistency check *)

Section ConsistencyCheck.
Import HRIR Checker.

(** What a step or an undo leaves alone in a cell. *)
Definition shape (c : HRIR_Cell) : string * bool := (opcode c, is_reversible c).

(** Number of irreversible cells in a list of cell shapes. *)
Definition d_count (l : list (string * bool)) : nat :=
  length (filter (fun s => negb (snd s)) l).

Lemma shape_alter e r k (cs : list HRIR_Cell) :
  map shape (alter (set_exec e r) k cs) = map shape cs.
Proof.
  revert k. induction cs as [|c cs IH]; intros [|k]; simpl; try done.
  f_equal. apply IH.
Qed.

Lemma length_alter_cells e r k (cs : list HRIR_Cell) :
  length (alter (set_exec e r) k cs) = length cs.
Proof. apply length_alter. Qed.

Lemma step_below rt :
  pc (program rt) < cell_count (program rt) ->
  exists rt', hr_ir_step rt = (true, rt') /\
    pc (program rt') = pc (program rt) + 1 /\
    map shape (cells (program rt')) = map shape (cells (program rt)).
Proof.
  intros Hlt. unfold hr_ir_step.
  destruct (N.leb_spec (cell_count (program rt)) (pc (program rt))); [lia|].
  eexists. split; [done|]. simpl. split; [done | apply shape_alter].
Qed.

Lemma undo_above rt :
  pc (program rt) <> 0 ->
  exists rt', hr_ir_undo rt = (true, rt') /\
    pc (program rt') = pc (program rt) - 1 /\
    map shape (cells (program rt')) = map shape (cells (program rt)).
Proof.
  intros Hne. unfold hr_ir_undo.
  destruct (N.eqb_spec (pc (program rt)) 0); [done|].
  eexists. split; [done|]. simpl. split; [done | apply shape_alter].
Qed.

Lemma cell_count_shape p p' :
  map shape (cells p') = map shape (cells p) -> cell_count p' = cell_count p.
Proof.
  intros H. unfold cell_count.
  by rewrite <- (length_map shape (cells p')), H, length_map.
Qed.

Lemma get_cell_shape p (i : nat) op rv :
  map shape (cells p) !! i = Some (op, rv) ->
  exists c, hr_ir_get_cell p (N.of_nat i) = Some c /\
            opcode c = op /\ is_reversible c = rv.
Proof.
  intros H. rewrite list_lookup_fmap in H.
  destruct (cells p !! i) as [c|] eqn:Hc; [|done].
  injection H as <- <-. exists c. split; [|done].
  unfold hr_ir_get_cell, cell_count.
  apply lookup_lt_Some in Hc as Hlt.
  destruct (N.leb_spec (N.of_nat (length (cells p))) (N.of_nat i)); [lia|].
  by rewrite Nat2N.id.
Qed.

Lemma d_count_take_S (sh : list (string * bool)) (i : nat) (op : string) (rv : bool) :
  sh !! i = Some (op, rv) ->
  d_count (take (S i) sh)
  = (d_count (take i sh) + (if rv then 0 else 1))%nat.
Proof.
  intros H. rewrite (take_S_r _ _ _ H). unfold d_count.
  rewrite filter_app, length_app. f_equal.
  by destruct rv.
Qed.

Lemma d_count_take_mono (sh : list (string * bool)) (j i : nat) :
  (j <= i)%nat -> (d_count (take j sh) <= d_count (take i sh))%nat.
Proof.
  intros Hji. replace i with (j + (i - j))%nat by lia.
  rewrite <- take_take_drop. unfold d_count.
  rewrite filter_app, length_app. lia.
Qed.

(** The outcome of the step taken for the cell of index [j]: the check
    calls [hr_ir_step] once for each cell it reaches, a step succeeds as
    long as the program counter is below the number of cells, and every
    cell the check gets past leaves the counter one further, so that the
    counter is [pc p + j] when the cell of index [j] is reached. *)
Definition step_succeeds (p : HRIR_Program) (j : nat) : bool :=
  pc p + N.of_nat j <? cell_count p.

Lemma step_outcome rt :
  exists rt1,
    hr_ir_step rt = (pc (program rt) <? cell_count (program rt), rt1) /\
    map shape (cells (program rt1)) = map shape (cells (program rt)) /\
    pc (program rt1)
    = (if pc (program rt) <? cell_count (program rt)
       then pc (program rt) + 1 else pc (program rt)).
Proof.
  unfold hr_ir_step.
  destruct (N.leb_spec (cell_count (program rt)) (pc (program rt))),
    (N.ltb_spec (pc (program rt)) (cell_count (program rt))); try lia.
  - by exists rt.
  - eexists. split; [done|]. simpl. split; [apply shape_alter | done].
Qed.

Section AbortAtMismatch.
Variable sh : list (string * bool).
Variable effects : list ExpectedSideEffect.
Variable i : nat.
Variable eff : ExpectedSideEffect.
Variable pc0 : N.
Hypothesis Hcell : sh !! i = Some (operation eff, false).
Hypothesis Heff : effects !! d_count (take i sh) = Some eff.
Hypothesis Hmismatch :
  should_succeed eff = negb (pc0 + N.of_nat i <? N.of_nat (length sh)).
Hypothesis Hearlier_R :
  forall (j : nat) (op : string),
    (j < i)%nat -> sh !! j = Some (op, true) ->
    (pc0 + N.of_nat j <? N.of_nat (length sh)) = true.
Hypothesis Hearlier_D :
  forall (j : nat) (ej : ExpectedSideEffect),
    (j < i)%nat -> sh !! j = Some (operation ej, false) ->
    effects !! d_count (take j sh) = Some ej ->
    should_succeed ej = (pc0 + N.of_nat j <? N.of_nat (length sh)).

(** The counter of [rt] stands to the cells as [pc0 + j] does. *)
Definition counter_at (rt : HRIR_Runtime) (j : nat) : Prop :=
  forall d, (pc (program rt) + d <? N.of_nat (length sh))
            = (pc0 + N.of_nat j + d <? N.of_nat (length sh)).

Lemma counter_at_next rt rt1 (j : nat) :
  counter_at rt j ->
  pc (program rt1)
  = (if pc (program rt) <? N.of_nat (length sh)
     then pc (program rt) + 1 else pc (program rt)) ->
  counter_at rt1 (S j).
Proof.
  intros Hat Hpc d. rewrite Hpc. specialize (Hat (1 + d)).
  replace (pc0 + N.of_nat (S j) + d) with (pc0 + N.of_nat j + (1 + d)) by lia.
  rewrite <- Hat.
  destruct (N.ltb_spec (pc (program rt)) (N.of_nat (length sh))).
  - by replace (pc (program rt) + 1 + d) with (pc (program rt) + (1 + d)) by lia.
  - destruct (N.ltb_spec (pc (program rt) + d) (N.of_nat (length sh))),
      (N.ltb_spec (pc (program rt) + (1 + d)) (N.of_nat (length sh))); try done; lia.
Qed.

Lemma counter_at_outcome rt (j : nat) :
  counter_at rt j ->
  (pc (program rt) <? N.of_nat (length sh))
  = (pc0 + N.of_nat j <? N.of_nat (length sh)).
Proof. intros Hat. specialize (Hat 0). by rewrite !N.add_0_r in Hat. Qed.

Lemma check_loop_reaches_mismatch (k j n : nat) rt res :
  i = (j + k)%nat ->
  map shape (cells (program rt)) = sh ->
  counter_at rt j ->
  (k < n)%nat ->
  let r := fst (check_loop n (N.of_nat j) rt effects
                           (N.of_nat (d_count (take j sh))) res) in
  is_consistent r = false /\
  error_message r = Some "D-term side effect mismatch"%string /\
  operations_checked r = operations_checked res + N.of_nat k + 1.
Proof.
  revert j n rt res. induction k as [|k IH]; intros j n rt res Hi Hsh Hat Hn.
  - (* the mismatching cell itself *)
    assert (j = i) as -> by lia. destruct n as [|n]; [lia|]. simpl.
    destruct (get_cell_shape (program rt) i (operation eff) false) as (c & -> & Hop & Hrev);
      [by rewrite Hsh|].
    assert (Hcnt : cell_count (program rt) = N.of_nat (length sh)).
    { unfold cell_count. by rewrite <- (length_map shape), Hsh. }
    destruct (step_outcome rt) as (rt1 & -> & _ & _).
    rewrite Hrev. apply lookup_lt_Some in Heff as Hlte.
    destruct (N.ltb_spec (N.of_nat (d_count (take i sh))) (N.of_nat (length effects))); [|lia].
    rewrite Nat2N.id, Heff, Hop.
    unfold LibC.streq. rewrite String.eqb_refl, Hmismatch, Hcnt.
    rewrite (counter_at_outcome rt i Hat).
    destruct (pc0 + N.of_nat i <? N.of_nat (length sh)); simpl;
      (repeat split; lia).
  - (* an earlier cell, which passes *)
    destruct n as [|n]; [lia|].
    assert (Hj : (j < i)%nat) by lia.
    assert (Hlt : (i < length sh)%nat) by (by apply lookup_lt_Some in Hcell).
    destruct (lookup_lt_is_Some_2 sh j) as [[opj rv] Hshj]; [lia|].
    destruct (get_cell_shape (program rt) j opj rv) as (c & Hget & Hop & Hrev);
      [by rewrite Hsh|].
    assert (Hcnt : cell_count (program rt) = N.of_nat (length sh)).
    { unfold cell_count. by rewrite <- (length_map shape), Hsh. }
    destruct (step_outcome rt) as (rt1 & Hstep & Hsh1 & Hpc1).
    rewrite Hcnt in Hstep, Hpc1.
    pose proof (counter_at_outcome rt j Hat) as Hout.
    pose proof (counter_at_next rt rt1 j Hat Hpc1) as Hat1.
    pose proof (d_count_take_S sh j opj rv Hshj) as HdS.
    simpl. rewrite Hget, Hstep, Hrev.
    assert (Hgoal : forall rt' res',
      map shape (cells (program rt')) = sh ->
      counter_at rt' (S j) ->
      operations_checked res' = operations_checked res + 1 ->
      let r := fst (check_loop n (N.of_nat j + 1) rt' effects
                               (N.of_nat (d_count (take (S j) sh))) res') in
      is_consistent r = false /\
      error_message r = Some "D-term side effect mismatch"%string /\
      operations_checked r = operations_checked res + N.of_nat (S k) + 1).
    { intros rt' res' Hsh' Hat' Hops.
      replace (N.of_nat j + 1) with (N.of_nat (S j)) by lia.
      destruct (IH (S j) n rt' res') as (H1 & H2 & H3); [lia | done | done | lia |].
      repeat split; [done | done |]. rewrite H3, Hops. lia. }
    destruct rv; simpl.
    + (* reversible: the step succeeds, then undo and step again *)
      rewrite Hout, (Hearlier_R j opj Hj Hshj) in *. simpl.
      apply N.ltb_lt in Hout.
      destruct (undo_above rt1) as (rt2 & -> & Hpc2 & Hsh2); [lia|]. simpl.
      destruct (step_below rt2) as (rt3 & -> & Hpc3 & Hsh3).
      { rewrite (cell_count_shape (program rt) (program rt2)) by congruence. lia. }
      simpl. rewrite HdS, Nat.add_0_r in Hgoal.
      apply Hgoal; [congruence | | done].
      intros d. rewrite <- (Hat1 d). f_equal. lia.
    + (* irreversible: consumes the next expected effect *)
      pose proof (d_count_take_mono sh j i ltac:(lia)) as Hmono.
      apply lookup_lt_Some in Heff as Hlte.
      destruct (N.ltb_spec (N.of_nat (d_count (take j sh))) (N.of_nat (length effects))); [|lia].
      rewrite Nat2N.id.
      destruct (lookup_lt_is_Some_2 effects (d_count (take j sh))) as [ej Hej]; [lia|].
      rewrite Hej, Hop.
      replace (N.of_nat (d_count (take j sh)) + 1)
        with (N.of_nat (d_count (take (S j) sh))) by lia.
      unfold LibC.streq. destruct (String.eqb_spec opj (operation ej)) as [->|Hne].
      * rewrite (Hearlier_D j ej Hj Hshj Hej), Hout.
        rewrite eqb_reflx. simpl.
        apply Hgoal; [congruence | done | done].
      * apply Hgoal; [congruence | done | done].
Qed.

End AbortAtMismatch.

(** C7 (as amended): the irreversible cells consume the expected effects
    in order, one each.  A cell whose operation differs from that of its
    expected effect does not stop the check.  At the first irreversible
    cell [i] whose operation equals that of its expected effect while the
    outcome of its step differs from the declared [should_succeed],
    whichever of the two is the success, the check stops: it reports
    [is_consistent = false] with "D-term side effect mismatch" and
    [operations_checked = i + 1], so no later cell is checked.  The cells
    before [i] are those the check gets past: reversible cells whose step
    succeeds, and irreversible cells that do not name the operation of
    their expected effect or whose outcome is the declared one. *)
Theorem check_aborts_at_first_outcome_mismatch
    (p : HRIR_Program) (effects : list ExpectedSideEffect)
    (i : nat) (cell : HRIR_Cell) (eff : ExpectedSideEffect) :
  cells p !! i = Some cell ->
  is_reversible cell = false ->
  effects !! d_count (take i (map shape (cells p))) = Some eff ->
  opcode cell = operation eff ->
  should_succeed eff = negb (step_succeeds p i) ->
  (forall (j : nat) (cj : HRIR_Cell),
     (j < i)%nat -> cells p !! j = Some cj -> is_reversible cj = true ->
     step_succeeds p j = true) ->
  (forall (j : nat) (cj : HRIR_Cell) (ej : ExpectedSideEffect),
     (j < i)%nat -> cells p !! j = Some cj -> is_reversible cj = false ->
     effects !! d_count (take j (map shape (cells p))) = Some ej ->
     opcode cj = operation ej -> should_succeed ej = step_succeeds p j) ->
  let r := fst (check_l1_l0_consistency (Some p) (Some effects)) in
  is_consistent r = false /\
  error_message r = Some "D-term side effect mismatch"%string /\
  operations_checked r = N.of_nat i + 1.
Proof.
  intros Hcell Hrev Heff Hop Hss HearlierR HearlierD.
  unfold check_l1_l0_consistency, step_succeeds, cell_count in *.
  pose proof (check_loop_reaches_mismatch (map shape (cells p)) effects i eff (pc p))
    as H.
  rewrite length_map in H.
  destruct (H) with (k := i) (j := 0%nat) (n := N.to_nat (N.of_nat (length (cells p))))
                    (rt := hr_ir_create_runtime p) (res := mkResult true None 0 0)
    as (H1 & H2 & H3).
  - rewrite list_lookup_fmap, Hcell. simpl. unfold shape. by rewrite Hop, Hrev.
  - done.
  - done.
  - intros j op Hj Hshj. rewrite list_lookup_fmap in Hshj.
    destruct (cells p !! j) as [cj|] eqn:Hcj; [|done].
    injection Hshj as Ho Hr. by apply (HearlierR j cj).
  - intros j ej Hj Hshj Hej. rewrite list_lookup_fmap in Hshj.
    destruct (cells p !! j) as [cj|] eqn:Hcj; [|done].
    injection Hshj as Ho Hr. by apply (HearlierD j cj ej).
  - done.
  - done.
  - intros d. simpl. by rewrite length_map, N.add_0_r.
  - apply lookup_lt_Some in Hcell. lia.
  - simpl in *.
    destruct (check_loop _ _ _ _ _ _) as [r rt']. simpl in *.
    rewrite H1. simpl. repeat split; [done | done | lia].
Qed.

(** The program [log("a")], [print("done")], [add(5,3)], the first two
    irreversible, built through the API. *)
Definition log_print_add : HRIR_Program :=
  let p0 := hr_ir_create_program (Some "demo"%string) in
  let p1 := snd (hr_ir_add_cell p0 (hr_ir_from_d_term_operation "log" ["a"%string])) in
  let p2 := snd (hr_ir_add_cell p1 (hr_ir_from_d_term_operation "print" ["done"%string])) in
  snd (hr_ir_add_cell p2 (hr_ir_create_cell "add" ["5"%string; "3"%string])).

Definition read_then_failing_print : list ExpectedSideEffect :=
  [mkEffect "read" [] true; mkEffect "print" ["done"%string] false].

Definition read_then_print : list ExpectedSideEffect :=
  [mkEffect "read" [] true; mkEffect "print" ["done"%string] true].

(** [log_print_add] after three steps. *)
Definition log_print_add_run : HRIR_Program :=
  program (snd (hr_ir_step (snd (hr_ir_step (snd (hr_ir_step
    (hr_ir_create_runtime log_print_add))))))).

Lemma check_aborts_at_first_outcome_mismatch_witness :
  let r := fst (check_l1_l0_consistency (Some log_print_add)
                                        (Some read_then_failing_print)) in
  is_consistent r = false /\
  error_message r = Some "D-term side effect mismatch"%string /\
  operations_checked r = N.of_nat 1 + 1.
Proof.
  apply (check_aborts_at_first_outcome_mismatch log_print_add
           read_then_failing_print 1
           (mkCell 2 "print" ["done"%string] None false None 0 None false None)
           (mkEffect "print" ["done"%string] false));
    try reflexivity.
  - intros j cj Hj Hc Hr. destruct j as [|j]; [|lia].
    injection Hc as <-. discriminate Hr.
  - intros j cj ej Hj Hc Hr He Hop.
    destruct j as [|j]; [|lia].
    injection Hc as <-. injection He as <-. discriminate Hop.
Defined.

(** The other polarity: [log_print_add] run to its end, where every step
    of the check fails, against expectations that declare successes.  The
    [log] cell meets the expectation [read] and is passed; the [print]
    cell meets the expectation [print] declared to succeed, and the check
    stops there. *)
Lemma check_aborts_on_failed_step :
  pc log_print_add_run = 3 /\
  fst (check_l1_l0_consistency (Some log_print_add_run) (Some read_then_print))
  = mkResult false (Some "D-term side effect mismatch"%string) 2 1.
Proof. split; reflexivity. Qed.

(** C7 as stated fails for a wrong operation: the first irreversible cell
    is [log] where the next expected effect is [read], yet the check does
    not stop there; it goes on to check the remaining two cells and reports
    a consistent program with three operations checked. *)
Lemma check_continues_after_wrong_operation :
  map shape (cells log_print_add)
  = [("log"%string, false); ("print"%string, false); ("add"%string, true)] /\
  fst (check_l1_l0_consistency (Some log_print_add) (Some read_then_print))
  = mkResult true None 3 1.
Proof. split; reflexivity. Qed.

End ConsistencyCheck.

(** ** Conditions of the handler interpreter *)

Section Conditions.
Import L3.

(** Whatever the two texts are, [==] holds and [!=] fails as soon as
    [atof] maps them to equal numbers; [atof] maps every text that does not
    start with a number to [0.0]. *)
Lemma compare_values_atof_agree `{Platform} (left_val right_val : string) :
  PrimFloat.eqb (atof left_val) (atof right_val) = true ->
  compare_values "==" left_val right_val = true /\
  compare_values "!=" left_val right_val = false.
Proof.
  intros Heq. unfold compare_values. simpl. by rewrite Heq.
Qed.

(** The text [s] between double quotes. *)
Definition quoted (s : string) : string :=
  String "034" (s ++ String "034" EmptyString).

(** C9 fails on the code: the quoted operands abc and def evaluate to the
    strings abc and def, neither of which is numeric, and the two strings
    differ; yet [==] evaluates to true and [!=] to false, in every context,
    because [atof] gives 0.0 for both and the numeric comparison is tried
    first. *)
Theorem nonnumeric_equality_ignores_strings (fuel : nat) (ctx : L3_ExecutionContext) :
  @l3_evaluate_expression bare_platform fuel (quoted "abc") ctx = Some "abc"%string /\
  @l3_evaluate_expression bare_platform fuel (quoted "def") ctx = Some "def"%string /\
  l3_is_number "abc" = false /\ l3_is_number "def" = false /\
  LibC.streq "abc" "def" = false /\
  @l3_evaluate_condition bare_platform fuel
    (quoted "abc" ++ " == " ++ quoted "def") ctx = Some true /\
  @l3_evaluate_condition bare_platform fuel
    (quoted "abc" ++ " != " ++ quoted "def") ctx = Some false.
Proof. repeat split. Qed.

End Conditions.

(** ** Fuel of the handler interpreter *)

Section Fuel.
Import L3.
Context `{Platform}.













End Fuel.

(** ** The capped while loop *)

Section WhileCap.
Import L3.
Context `{Platform}.











End WhileCap.

Section WhileCapExamples.
Import L3.



Definition empty_context : L3_ExecutionContext :=
  mkContext l3_runtime_init 0 None 0 [].












End WhileCapExamples.


(** ** Mailboxes *)

Section Mailboxes.
Import L3.
Context `{Platform}.

(** The ring buffer is in a consistent state: it has room, [count]
    messages are stored from [head] on, wrapping around, and [tail] is the
    slot after the last of them. *)
Definition queue_wf (q : L3_MessageQueue) : Prop :=
  0 < capacity q /\ count q <= capacity q /\ head q < capacity q /\
  tail q = (head q + count q) mod capacity q /\
  Forall (fun i => is_Some (slot q ((head q + N.of_nat i) mod capacity q)))
         (seq 0 (N.to_nat (count q))).

(** The messages waiting in the queue, the one enqueued first in front. *)
Definition mailbox (q : L3_MessageQueue) : list L3_Message :=
  omap (fun i => slot q ((head q + N.of_nat i) mod capacity q))
       (seq 0 (N.to_nat (count q))).

Lemma mod_add_1 (a c : N) : 0 < c -> (a mod c + 1) mod c = (a + 1) mod c.
Proof. intros Hc. rewrite N.Div0.add_mod_idemp_l. done. Qed.

Lemma mod_offset_inj (h i j c : N) :
  i < c -> j < c -> (h + i) mod c = (h + j) mod c -> i = j.
Proof.
  intros Hi Hj Heq.
  assert (Hc : c <> 0) by lia.
  pose proof (N.div_mod (h + i) c Hc) as Ei.
  pose proof (N.div_mod (h + j) c Hc) as Ej.
  pose proof (N.mod_lt (h + i) c Hc) as Li.
  rewrite Heq in Ei.
  assert (Hd : (h + i) / c = (h + j) / c \/ (h + i) / c < (h + j) / c
               \/ (h + j) / c < (h + i) / c) by lia.
  destruct Hd as [Hd | [Hd | Hd]].
  - rewrite Hd in Ei. lia.
  - nia.
  - nia.
Qed.

Lemma omap_seq_ext {B} (f g : nat -> option B) (n : nat) :
  (forall i, (i < n)%nat -> f i = g i) -> omap f (seq 0 n) = omap g (seq 0 n).
Proof.
  intros Hfg. apply list_omap_ext. apply Forall2_same_length_lookup.
  split; [done|]. intros i x y Hx Hy.
  apply lookup_seq in Hx as [-> Hi]. apply lookup_seq in Hy as [-> _].
  by apply Hfg.
Qed.

Lemma omap_fmap {A A' B} (f : A' -> option B) (g : A -> A') (l : list A) :
  omap f (g <$> l) = omap (fun x => f (g x)) l.
Proof.
  induction l as [|x l IH]; [done|]. csimpl. by rewrite IH.
Qed.

Lemma omap_length_Some {A B} (f : A -> option B) (l : list A) :
  Forall (fun x => is_Some (f x)) l -> length (omap f l) = length l.
Proof.
  induction 1 as [|x l [y Hy] _ IH]; [done|].
  csimpl. rewrite Hy. simpl. by rewrite IH.
Qed.

Lemma length_mailbox q : queue_wf q -> length (mailbox q) = N.to_nat (count q).
Proof.
  intros (_ & _ & _ & _ & Hs). unfold mailbox.
  by rewrite omap_length_Some, length_seq.
Qed.

Lemma mailbox_empty q : queue_wf q -> (count q = 0 <-> mailbox q = []).
Proof.
  intros Hwf. pose proof (length_mailbox q Hwf) as Hl. split.
  - intros Hc. apply nil_length_inv. lia.
  - intros Hm. rewrite Hm in Hl. simpl in Hl. lia.
Qed.

(** Storing a message in the slot at [tail] of a queue that has room. *)
Definition store_at_tail (q : L3_MessageQueue) (msg : L3_Message)
  : L3_MessageQueue :=
  mkQueue (<[N.to_nat (tail q) := Some msg]> (messages q))
          (count q + 1) (head q) ((tail q + 1) mod capacity q).

Lemma slot_store_at_tail q msg (x : N) :
  x < capacity q ->
  slot (store_at_tail q msg) x = if decide (x = tail q) then Some msg else slot q x.
Proof.
  intros Hx. unfold slot, store_at_tail, capacity in *. simpl.
  destruct (decide (x = tail q)) as [->|Hne].
  - by rewrite list_lookup_insert_eq by lia.
  - by rewrite list_lookup_insert_ne by lia.
Qed.

Lemma store_at_tail_spec q msg :
  queue_wf q -> count q < capacity q ->
  queue_wf (store_at_tail q msg) /\
  mailbox (store_at_tail q msg) = mailbox q ++ [msg].
Proof.
  intros (Hc & Hn & Hh & Ht & Hs) Hroom.
  assert (Hcap : capacity (store_at_tail q msg) = capacity q).
  { unfold capacity, store_at_tail. simpl. by rewrite length_insert. }
  assert (Hold : forall i : nat, (i < N.to_nat (count q))%nat ->
            slot (store_at_tail q msg) ((head q + N.of_nat i) mod capacity q)
            = slot q ((head q + N.of_nat i) mod capacity q)).
  { intros i Hi. rewrite slot_store_at_tail by (apply N.mod_lt; lia).
    destruct (decide _) as [Heq|]; [|done].
    rewrite Ht in Heq. apply mod_offset_inj in Heq; lia. }
  assert (Hnew : slot (store_at_tail q msg)
                   ((head q + N.of_nat (N.to_nat (count q))) mod capacity q)
                 = Some msg).
  { rewrite N2Nat.id, <- Ht. rewrite slot_store_at_tail by (rewrite Ht; apply N.mod_lt; lia).
    by destruct (decide _). }
  assert (Hseq : seq 0 (N.to_nat (count q + 1))
                 = seq 0 (N.to_nat (count q)) ++ [N.to_nat (count q)]).
  { replace (N.to_nat (count q + 1)) with (S (N.to_nat (count q))) by lia.
    by rewrite seq_S. }
  split.
  - unfold queue_wf. rewrite Hcap. cbn [count head tail store_at_tail].
    repeat split; [done | lia | done | |].
    + rewrite Ht, mod_add_1 by done. f_equal. lia.
    + rewrite Hseq. apply Forall_app. split.
      * apply Forall_seq. intros i Hi. rewrite Hold by lia.
        apply (proj1 (Forall_seq _ _ _) Hs). lia.
      * apply Forall_singleton. by rewrite Hnew.
  - unfold mailbox. rewrite Hcap. cbn [count head store_at_tail].
    rewrite Hseq, omap_app. f_equal.
    + by apply omap_seq_ext.
    + csimpl. by rewrite Hnew.
Qed.

(** The queue after the expansion performed by [l3_queue_push]. *)
Definition expanded (q : L3_MessageQueue) : L3_MessageQueue :=
  mkQueue (expanded_messages q) (count q) 0 (count q).

Lemma expanded_spec q :
  queue_wf q -> capacity q <= count q ->
  queue_wf (expanded q) /\ mailbox (expanded q) = mailbox q /\
  count (expanded q) < capacity (expanded q).
Proof.
  intros (Hc & Hn & Hh & Ht & Hs) Hfull.
  assert (Hcap : capacity (expanded q) = capacity q * 2).
  { unfold capacity, expanded, expanded_messages. simpl.
    rewrite length_app, length_map, length_seq, repeat_length.
    unfold capacity in *. lia. }
  assert (Hslot : forall i : nat, (i < N.to_nat (count q))%nat ->
            slot (expanded q) ((0 + N.of_nat i) mod (capacity q * 2))
            = slot q ((head q + N.of_nat i) mod capacity q)).
  { intros i Hi. rewrite N.add_0_l, N.mod_small by lia.
    unfold slot at 1, expanded, expanded_messages. simpl.
    rewrite Nat2N.id, lookup_app_l by (rewrite length_map, length_seq; done).
    rewrite list_lookup_fmap, lookup_seq_lt by done. done. }
  split; [|split].
  - unfold queue_wf. rewrite Hcap. cbn [count head tail expanded].
    repeat split; [lia | lia | lia | |].
    + rewrite N.add_0_l, N.mod_small by lia. done.
    + apply Forall_seq. intros i Hi. rewrite Hslot by lia.
      apply (proj1 (Forall_seq _ _ _) Hs). lia.
  - unfold mailbox. rewrite Hcap. cbn [count head expanded].
    by apply omap_seq_ext.
  - rewrite Hcap. cbn [count expanded]. lia.
Qed.

Lemma l3_queue_push_store q ev dat :
  l3_queue_push q ev dat
  = (true, store_at_tail (if capacity q <=? count q then expanded q else q)
                         (mkMessage ev (default "{}"%string dat) time_now)).
Proof. done. Qed.

(** Pushing appends to the mailbox. *)
Lemma push_mailbox q ev dat :
  queue_wf q ->
  queue_wf (snd (l3_queue_push q ev dat)) /\
  mailbox (snd (l3_queue_push q ev dat))
  = mailbox q ++ [mkMessage ev (default "{}"%string dat) time_now].
Proof.
  intros Hwf. rewrite l3_queue_push_store. cbn [snd].
  destruct (N.leb_spec (capacity q) (count q)) as [Hfull|Hroom].
  - destruct (expanded_spec q Hwf Hfull) as (Hwf' & Hm & Hroom).
    rewrite <- Hm. by apply store_at_tail_spec.
  - by apply store_at_tail_spec.
Qed.

(** Popping takes the front of the mailbox. *)
Lemma pop_mailbox q :
  queue_wf q -> 0 < count q ->
  exists m, fst (l3_queue_pop q) = Some m /\
            queue_wf (snd (l3_queue_pop q)) /\
            mailbox q = m :: mailbox (snd (l3_queue_pop q)).
Proof.
  intros (Hc & Hn & Hh & Ht & Hs) Hpos. unfold l3_queue_pop.
  destruct (N.eqb_spec (count q) 0) as [?|_]; [lia|]. cbn [fst snd].
  set (q' := mkQueue _ _ _ _).
  assert (Hcap : capacity q' = capacity q) by done.
  assert (Hshift : forall i : nat,
            slot q' ((head q' + N.of_nat i) mod capacity q')
            = slot q ((head q + N.of_nat (S i)) mod capacity q)).
  { intros i. rewrite Hcap. unfold q' at 2. cbn [head].
    rewrite N.Div0.add_mod_idemp_l. unfold slot, q'. simpl.
    by replace (head q + 1 + N.of_nat i) with (head q + N.of_nat (S i)) by lia. }
  pose proof (proj1 (Forall_seq _ _ _) Hs) as Hs'.
  destruct (Hs' O) as [m Hm]; [lia|].
  rewrite N.add_0_r, N.mod_small in Hm by done.
  exists m. split; [done|]. split.
  - unfold queue_wf. rewrite Hcap.
    assert (Hcount : count q' = count q - 1) by done.
    assert (Hhead : head q' = (head q + 1) mod capacity q) by done.
    assert (Htail : tail q' = tail q) by done.
    repeat split.
    + done.
    + lia.
    + rewrite Hhead. apply N.mod_lt. lia.
    + rewrite Htail, Hhead, Hcount, Ht, N.Div0.add_mod_idemp_l. f_equal. lia.
    + apply Forall_seq. intros i Hi. rewrite <- Hcap, Hshift.
      apply Hs'. lia.
  - unfold mailbox at 1.
    replace (N.to_nat (count q)) with (S (N.to_nat (count q'))) by (unfold q'; simpl; lia).
    cbn [seq]. csimpl.
    rewrite N.add_0_r, N.mod_small, Hm by done. f_equal.
    rewrite <- fmap_S_seq. unfold mailbox.
    rewrite omap_fmap. apply omap_seq_ext. intros i Hi.
    simpl. by rewrite Hshift.
Qed.

(** *** Runtimes *)

(** Every actor has its queue, and every queue is consistent. *)
Definition rt_wf (rt : L3_ActorRuntime) : Prop :=
  length (message_queues rt) = length (actors rt) /\
  Forall queue_wf (message_queues rt).

(** The mailbox of the [j]-th actor. *)
Definition mailbox_of (rt : L3_ActorRuntime) (j : nat) : list L3_Message :=
  match message_queues rt !! j with
  | Some q => mailbox q
  | None => []
  end.




Lemma queue_create_wf : queue_wf l3_queue_create.
Proof. repeat split; try done; try constructor. Qed.





(** *** Handlers only append to mailboxes *)












(** *** Sending *)

Lemma find_actor_lt p acts i : find_actor p acts = Some i -> (i < length acts)%nat.
Proof.
  revert i. induction acts as [|a acts IH]; intros i; simpl; [done|].
  destruct (p a); [intros [= <-]; lia|].
  destruct (find_actor p acts) as [k|]; [|done].
  intros [= <-]. specialize (IH k eq_refl). lia.
Qed.

(** The message built by [l3_queue_push]. *)
Definition new_message (ev : string) (dat : option string) : L3_Message :=
  mkMessage ev (default "{}"%string dat) time_now.

Lemma send_mailbox rt actor_id ev dat i j :
  rt_wf rt ->
  find_actor (fun a => (id a =? actor_id)%Z) (actors rt) = Some i ->
  mailbox_of (snd (l3_send_message rt actor_id ev dat)) j
  = mailbox_of rt j ++ (if decide (j = i) then [new_message ev dat] else []).
Proof.
  intros [Hl Hqs] Hi. unfold l3_send_message. rewrite Hi.
  apply find_actor_lt in Hi. rewrite <- Hl in Hi.
  destruct (lookup_lt_is_Some_2 _ _ Hi) as [q Hq]. rewrite Hq.
  pose proof (proj1 (Forall_lookup _ _) Hqs i q Hq) as Hqwf.
  destruct (push_mailbox q ev dat Hqwf) as [_ Hm].
  destruct (l3_queue_push q ev dat) as [ok q']. cbn [snd] in *.
  unfold mailbox_of. simpl. destruct (decide (j = i)) as [->|Hne].
  - by rewrite list_lookup_insert_eq, Hq by done.
  - rewrite list_lookup_insert_ne by done. by rewrite app_nil_r.
Qed.

(** *** One scheduling pass *)








End Mailboxes.

Section MailboxExamples.
Import L3.

(** [Ping] relays every [go] to [Pong] as a [hit]; [Pong] has no handler.
    Two [go] messages wait in the mailbox of [Ping]. *)
Definition relay_runtime : L3_ActorRuntime :=
  let rt1 := snd (l3_spawn_actor l3_runtime_init
                    (mkDefinition "Ping" "worker" []
                                  [mkHandler "go" "Pong -> hit"])) in
  let rt2 := snd (l3_spawn_actor rt1 (mkDefinition "Pong" "worker" [] [])) in
  let rt3 := snd (@l3_send_message bare_platform rt2 1 "go" (Some "1"%string)) in
  snd (@l3_send_message bare_platform rt3 1 "go" (Some "2"%string)).

Definition relay_ticked : L3_ActorRuntime :=
  default relay_runtime (@l3_tick bare_platform 10 relay_runtime).


(** One tick takes the first [go] out of the mailbox of [Ping] and the
    [hit] it produced out of the mailbox of [Pong]. *)
Lemma relay_tick_mailboxes :
  mailbox_of relay_runtime 0
  = [mkMessage "go" "1" 0; mkMessage "go" "2" 0] /\
  mailbox_of relay_runtime 1 = [] /\
  mailbox_of relay_ticked 0 = [mkMessage "go" "2" 0] /\
  mailbox_of relay_ticked 1 = [].
Proof. by vm_compute. Qed.

Lemma relay_tick_returns :
  @l3_tick bare_platform 10 relay_runtime = Some relay_ticked.
Proof. by vm_compute. Qed.







End MailboxExamples.

(** ** Checkpoints and stepping of the R layer *)

Section Checkpoints.
Import R.

Lemma length_unmark_loop n i cs : length (unmark_loop n i cs) = length cs.
Proof.
  revert i cs. induction n as [|n IH]; intros i cs; simpl; [done|].
  by rewrite IH, length_alter.
Qed.

Lemma unmark_loop_lookup n i cs (j : nat) :
  unmark_loop n i cs !! j
  = if (i <=? N.of_nat j) && (N.of_nat j <? i + N.of_nat n)
    then set_executed false <$> cs !! j
    else cs !! j.
Proof.
  revert i cs. induction n as [|n IH]; intros i cs; cbn [unmark_loop].
  - destruct (N.leb_spec i (N.of_nat j)),
      (N.ltb_spec (N.of_nat j) (i + N.of_nat 0)); simpl; try done; lia.
  - rewrite IH. destruct (decide (j = N.to_nat i)) as [->|Hne].
    + rewrite list_lookup_alter_eq.
      destruct (N.leb_spec (i + 1) (N.of_nat (N.to_nat i))); [lia|]. simpl.
      destruct (N.leb_spec i (N.of_nat (N.to_nat i))); [|lia].
      destruct (N.ltb_spec (N.of_nat (N.to_nat i)) (i + N.of_nat (S n)));
        [done | lia].
    + rewrite list_lookup_alter_ne by done.
      destruct (N.leb_spec (i + 1) (N.of_nat j)), (N.leb_spec i (N.of_nat j)),
        (N.ltb_spec (N.of_nat j) (i + 1 + N.of_nat n)),
        (N.ltb_spec (N.of_nat j) (i + N.of_nat (S n)));
        simpl; try done; lia.
Qed.

(** The gates touch nothing but the bit array, whose length they keep. *)
Lemma dispatch_gate_qubits rt c ok rt1 :
  dispatch_gate rt c = (ok, rt1) ->
  exists q, rt1 = set_qubits q rt /\ length q = length (qubits (memory rt)).
Proof.
  unfold dispatch_gate, r_execute_CCNOT, r_execute_CNOT, r_execute_NOT,
    r_execute_SWAP.
  intros Hd.
  repeat match type of Hd with
         | (if ?b then _ else _) = _ => destruct b
         end;
    injection Hd as <- <-;
    first [ exists (qubits (memory rt)); split; [by destruct rt as [[]]|done]
          | eexists; split; [reflexivity|];
            unfold qset; by rewrite ?length_insert ].
Qed.

Lemma dispatch_gate_failure rt c rt1 :
  dispatch_gate rt c = (false, rt1) -> rt1 = rt.
Proof.
  unfold dispatch_gate, r_execute_CCNOT, r_execute_CNOT, r_execute_NOT,
    r_execute_SWAP.
  intros Hd.
  repeat match type of Hd with
         | (if ?b then _ else _) = _ => destruct b
         end; by injection Hd.
Qed.

(** What a successful [r_execute_cell] does. *)
Lemma r_execute_cell_success rt p rt' :
  r_execute_cell rt p = (true, rt') ->
  exists c q,
    cells (memory rt) !! p = Some c /\ executed c = false /\
    length q = length (qubits (memory rt)) /\
    rt' = mkRuntime
            (mkMemory q (<[p := set_executed true c]> (cells (memory rt)))
                      (checkpoints (memory rt))
                      (array_store (execution_history (memory rt))
                                   (execution_count (memory rt)) p)
                      (execution_count (memory rt) + 1))
            (next_cell_id rt) (instance_id rt).
Proof.
  unfold r_execute_cell. intros Hx.
  destruct (cells (memory rt) !! p) as [c|] eqn:Hp; [|done].
  destruct (executed c) eqn:He; [done|].
  destruct (dispatch_gate rt c) as [ok rt1] eqn:Hd.
  destruct (dispatch_gate_qubits _ _ _ _ Hd) as (q & -> & Hq).
  destruct ok; [|done]. injection Hx as <-.
  by exists c, q.
Qed.

Lemma r_execute_cell_failure rt p rt' :
  r_execute_cell rt p = (false, rt') -> rt' = rt.
Proof.
  unfold r_execute_cell.
  destruct (cells (memory rt) !! p) as [c|]; [|by intros [= <-]].
  destruct (executed c); [by intros [= <-]|].
  destruct (dispatch_gate rt c) as [[] rt1] eqn:Hd; [done|].
  intros [= <-]. by apply dispatch_gate_failure in Hd.
Qed.

(** X1.  A failed [r_execute_cell] (no such cell, a cell already executed,
    an opcode or an argument count that is no gate, a bit index out of
    range) leaves the whole runtime as it was. *)
Theorem r_execute_cell_failure_keeps_runtime (rt : R_Runtime) (p : cell_ptr) :
  fst (r_execute_cell rt p) = false -> snd (r_execute_cell rt p) = rt.
Proof.
  destruct (r_execute_cell rt p) as [ok rt'] eqn:Hx. simpl. intros ->.
  by apply r_execute_cell_failure in Hx.
Qed.

(** A cell whose opcode is no gate of the R layer. *)
Definition one_nop_cell : cell_ptr * R_Runtime :=
  r_create_cell (r_runtime_init 1 0) "NOP" ["0"%string] None.

Lemma r_execute_cell_failure_keeps_runtime_witness :
  snd (r_execute_cell (snd one_nop_cell) (fst one_nop_cell)) = snd one_nop_cell.
Proof.
  apply (r_execute_cell_failure_keeps_runtime (snd one_nop_cell) (fst one_nop_cell)).
  reflexivity.
Defined.

(** X2.  Restoring a checkpoint taken on [rt] into a later runtime [rt']
    of the same size succeeds: the bit array and the execution count are
    those of [rt], every cell from the saved execution index on is marked
    as not executed, and the cells below that index are left as they are
    in [rt']. *)
Theorem r_restore_checkpoint_round_trip (rt rt' : R_Runtime)
    (label : option string) (now : Z) :
  qubit_count (memory rt') = qubit_count (memory rt) ->
  exists rt'',
    r_restore_checkpoint rt' (Some (fst (r_save_checkpoint rt label now)))
    = (true, rt'') /\
    qubits (memory rt'') = qubits (memory rt) /\
    execution_count (memory rt'') = execution_count (memory rt) /\
    length (cells (memory rt'')) = length (cells (memory rt')) /\
    forall (i : nat) c,
      cells (memory rt') !! i = Some c ->
      cells (memory rt'') !! i
      = Some (if execution_count (memory rt) <=? N.of_nat i
              then set_executed false c else c).
Proof.
  intros Hq. unfold r_restore_checkpoint, r_save_checkpoint. cbn [fst].
  unfold cp_qubit_count. cbn [qubit_state execution_index].
  fold (qubit_count (memory rt)). rewrite Hq, N.eqb_refl. cbn [negb].
  eexists. split; [reflexivity|]. cbn [memory qubits execution_count cells].
  split; [done|]. split; [done|]. split; [by rewrite length_unmark_loop|].
  intros i c Hc. rewrite unmark_loop_lookup, Hc.
  apply lookup_lt_Some in Hc as Hi. unfold cell_count.
  destruct (N.leb_spec (execution_count (memory rt)) (N.of_nat i)); simpl; [|done].
  destruct (N.ltb_spec (N.of_nat i)
              (execution_count (memory rt)
               + N.of_nat (N.to_nat (N.of_nat (length (cells (memory rt')))
                                     - execution_count (memory rt)))));
    [done | lia].
Qed.

(** One bit and the cell [NOT 0]: a checkpoint is taken, then the cell is
    executed. *)
Definition not_then_saved : R_Checkpoint * R_Runtime :=
  r_save_checkpoint (snd one_not_cell) (Some "start"%string) 7.

Definition saved_then_executed : R_Runtime :=
  snd (r_execute_cell (snd not_then_saved) 0%nat).

Lemma r_restore_checkpoint_round_trip_witness :
  exists rt'',
    r_restore_checkpoint saved_then_executed
      (Some (fst (r_save_checkpoint (snd one_not_cell) (Some "start"%string) 7)))
    = (true, rt'') /\
    qubits (memory rt'') = qubits (memory (snd one_not_cell)) /\
    execution_count (memory rt'') = execution_count (memory (snd one_not_cell)) /\
    length (cells (memory rt'')) = length (cells (memory saved_then_executed)) /\
    forall (i : nat) c,
      cells (memory saved_then_executed) !! i = Some c ->
      cells (memory rt'') !! i
      = Some (if execution_count (memory (snd one_not_cell)) <=? N.of_nat i
              then set_executed false c else c).
Proof.
  apply (r_restore_checkpoint_round_trip (snd one_not_cell) saved_then_executed
           (Some "start"%string) 7).
  reflexivity.
Defined.

(** X3.  A bit written in range is read back as [value & 1], which is 0
    or 1, and the other bits read as before. *)
Theorem r_write_then_read_qubit (rt : R_Runtime) (index j : N) (value : Z) :
  index < qubit_count (memory rt) ->
  fst (r_write_qubit rt index value) = true /\
  r_read_qubit (snd (r_write_qubit rt index value)) j
  = (if j =? index then Z.land value 1 else r_read_qubit rt j) /\
  (Z.land value 1 = 0 \/ Z.land value 1 = 1)%Z.
Proof.
  intros Hi. unfold r_write_qubit, r_read_qubit.
  destruct (N.leb_spec (qubit_count (memory rt)) index) as [|_]; [lia|].
  cbn [fst snd]. rewrite qubit_count_set_qubits, qubits_set_qubits, length_qset.
  fold (qubit_count (memory rt)).
  split; [done|]. split.
  - destruct (N.eqb_spec j index) as [->|Hne].
    + destruct (N.leb_spec (qubit_count (memory rt)) index); [lia|].
      apply qget_qset_eq. unfold qubit_count in Hi. lia.
    + destruct (N.leb_spec (qubit_count (memory rt)) j); [done|].
      by apply qget_qset_ne.
  - assert (Z.land value 1 = value mod 2)%Z as ->
      by (change 1%Z with (Z.ones 1); by apply Z.land_ones).
    pose proof (Z.mod_pos_bound value 2 eq_refl). lia.
Qed.

Lemma r_write_then_read_qubit_witness :
  fst (r_write_qubit (r_runtime_init 4 0) 2 3) = true /\
  r_read_qubit (snd (r_write_qubit (r_runtime_init 4 0) 2 3)) 2
  = (if 2 =? 2 then Z.land 3 1 else r_read_qubit (r_runtime_init 4 0) 2) /\
  (Z.land 3 1 = 0 \/ Z.land 3 1 = 1)%Z.
Proof. apply (r_write_then_read_qubit (r_runtime_init 4 0) 2 2 3). reflexivity. Defined.

(** *** Cell identifiers *)

(** The cells described by [specs] (opcode, arguments, canonical path),
    created one after the other. *)
Definition create_cells (specs : list (string * list string * option string))
    (rt : R_Runtime) : R_Runtime :=
  fold_left (fun r s => snd (r_create_cell r (fst (fst s)) (snd (fst s)) (snd s)))
            specs rt.

Lemma create_cells_spec specs rt :
  next_cell_id rt + N.of_nat (length specs) < 2 ^ 32 ->
  cells (memory (create_cells specs rt))
  = cells (memory rt)
    ++ imap (fun i s => mkCell (next_cell_id rt + N.of_nat i) (fst (fst s))
                               (snd (fst s)) None true (snd s) None false [] [])
            specs /\
  qubits (memory (create_cells specs rt)) = qubits (memory rt).
Proof.
  revert rt. induction specs as [|[[op ar] path] specs IH]; intros rt Hn.
  - simpl. by rewrite app_nil_r.
  - change (create_cells ((op, ar, path) :: specs) rt)
      with (create_cells specs (snd (r_create_cell rt op ar path))).
    cbn [length] in Hn.
    assert (LibC.to_uint32 (Z.of_N (next_cell_id rt) + 1) = next_cell_id rt + 1)
      as Hid.
    { unfold LibC.to_uint32. rewrite Z.mod_small by lia. lia. }
    destruct (IH (snd (r_create_cell rt op ar path))) as [Hc Hq].
    { cbn [r_create_cell snd next_cell_id]. rewrite Hid. lia. }
    rewrite Hc, Hq. cbn [r_create_cell snd memory cells qubits next_cell_id fst].
    split; [|done]. rewrite <- app_assoc. f_equal. cbn [app imap].
    rewrite N.add_0_r. f_equal. apply imap_ext. intros i s _. simpl.
    rewrite Hid.
    replace (next_cell_id rt + 1 + N.of_nat i)
      with (next_cell_id rt + N.of_nat (S i)) by lia.
    reflexivity.
Qed.

(** X4.  Up to [2^31] cells created on a fresh runtime, which is as many
    as the cell array can hold before [cell_capacity] wraps, get the
    identifiers 0, 1, 2, ... in creation order: the cell at index [i]
    carries the identifier [i] and the opcode, arguments and path it was
    created with, is reversible, not executed and without inverse; the bit
    array is untouched. *)
Theorem r_create_cell_sequential_ids (qubit_count instance_id : N)
    (specs : list (string * list string * option string)) :
  N.of_nat (length specs) <= 2 ^ 31 ->
  qubits (memory (create_cells specs (r_runtime_init qubit_count instance_id)))
  = repeat 0%Z (N.to_nat qubit_count) /\
  forall (i : nat) op ar path,
    specs !! i = Some (op, ar, path) ->
    cells (memory (create_cells specs (r_runtime_init qubit_count instance_id))) !! i
    = Some (mkCell (N.of_nat i) op ar None true path None false [] []).
Proof.
  intros Hn.
  destruct (create_cells_spec specs (r_runtime_init qubit_count instance_id))
    as [Hc Hq]; [simpl; lia|].
  split; [by rewrite Hq|].
  intros i op ar path Hi. rewrite Hc. simpl.
  by rewrite list_lookup_imap, Hi.
Qed.

Lemma r_create_cell_sequential_ids_witness :
  qubits (memory (create_cells [("NOT", ["0"], None); ("CNOT", ["0"; "1"], None)]%string
                               (r_runtime_init 2 0)))
  = repeat 0%Z (N.to_nat 2) /\
  forall (i : nat) op ar path,
    [("NOT", ["0"], None); ("CNOT", ["0"; "1"], None)]%string !! i
    = Some (op, ar, path) ->
    cells (memory (create_cells [("NOT", ["0"], None); ("CNOT", ["0"; "1"], None)]%string
                                (r_runtime_init 2 0))) !! i
    = Some (mkCell (N.of_nat i) op ar None true path None false [] []).
Proof.
  apply (r_create_cell_sequential_ids 2 0
           [("NOT", ["0"], None); ("CNOT", ["0"; "1"], None)]%string).
  simpl. lia.
Defined.

(** *** Stepping forward and backward *)

(** The runtimes a debugger session goes through: cells are created,
    bits are written, and the execution moves by [r_step_forward] and
    [r_step_backward]. *)
Inductive stepped : R_Runtime -> Prop :=
| stepped_init n inst : stepped (r_runtime_init n inst)
| stepped_create rt op ar path :
    stepped rt -> stepped (snd (r_create_cell rt op ar path))
| stepped_write rt index value :
    stepped rt -> stepped (snd (r_write_qubit rt index value))
| stepped_forward rt : stepped rt -> stepped (snd (r_step_forward rt))
| stepped_backward rt : stepped rt -> stepped (snd (r_step_backward rt)).

(** The cells below the execution count are marked as executed, and so
    are the cells of the history. *)
Definition executed_prefix (rt : R_Runtime) : Prop :=
  history_executed rt /\
  forall i : nat, N.of_nat i < execution_count (memory rt) ->
    exists c, cells (memory rt) !! i = Some c /\ executed c = true.

Lemma executed_prefix_set_count rt k :
  executed_prefix rt -> k <= execution_count (memory rt) ->
  executed_prefix (set_execution_count k rt).
Proof.
  intros [Hh Hc] Hk. split.
  - intros i Hi. simpl in Hi. destruct (Hh i) as (p & c & ? & ? & ?); [lia|].
    by exists p, c.
  - intros i Hi. simpl in Hi. apply Hc. lia.
Qed.

Lemma stepped_executed_prefix rt : stepped rt -> executed_prefix rt.
Proof.
  induction 1 as [n inst|rt op ar path _ [Hh Hc]|rt index value _ [Hh Hc]
                 |rt _ [Hh Hc]|rt _ IH].
  - split; [intros i Hi|intros i Hi]; simpl in Hi; lia.
  - split.
    + intros i Hi. simpl in Hi. destruct (Hh i Hi) as (p & c & Hp & Hcp & He).
      exists p, c. simpl. split; [done|]. split; [|done].
      by apply lookup_app_l_Some.
    + intros i Hi. simpl in Hi. destruct (Hc i Hi) as (c & Hcp & He).
      exists c. simpl. split; [|done]. by apply lookup_app_l_Some.
  - unfold r_write_qubit. by destruct (_ <=? _).
  - unfold r_step_forward.
    destruct (N.leb_spec (cell_count (memory rt)) (execution_count (memory rt)));
      [done|].
    destruct (r_execute_cell rt (N.to_nat (execution_count (memory rt))))
      as [[] rt'] eqn:Hx.
    + destruct (r_execute_cell_success _ _ _ Hx) as (c & q & Hp & He & Hq & ->).
      cbn [snd]. apply lookup_lt_Some in Hp as Hlt.
      assert (forall (i : nat) c0, cells (memory rt) !! i = Some c0 ->
                executed c0 = true ->
                exists c1, <[N.to_nat (execution_count (memory rt))
                             := set_executed true c]> (cells (memory rt)) !! i
                           = Some c1 /\ executed c1 = true) as Hkeep.
      { intros i c0 Hi He0.
        destruct (decide (i = N.to_nat (execution_count (memory rt)))) as [->|Hne].
        - rewrite list_lookup_insert_eq by done. by eexists.
        - rewrite list_lookup_insert_ne by done. by exists c0. }
      split.
      * intros i Hi. cbn [memory execution_count execution_history cells] in *.
        destruct (decide (i = execution_count (memory rt))) as [->|Hne].
        -- exists (N.to_nat (execution_count (memory rt))), (set_executed true c).
           split; [|split; [by apply list_lookup_insert_eq|done]].
           unfold array_store.
           destruct (Nat.ltb_spec (N.to_nat (execution_count (memory rt)))
                       (length (execution_history (memory rt)))).
           ++ by apply list_lookup_insert_eq.
           ++ destruct (execution_count (memory rt)) as [|k] eqn:Hk.
              ** by destruct (execution_history (memory rt)); [|simpl in *; lia].
              ** destruct (Hh (N.pos k - 1)) as (p & _ & Hp' & _); [lia|].
                 apply lookup_lt_Some in Hp'.
                 rewrite lookup_app_r by lia.
                 replace (N.to_nat (N.pos k) - length (execution_history (memory rt)))%nat
                   with 0%nat; [done|].
                 assert (N.to_nat (N.pos k)
                         = length (execution_history (memory rt))); [|lia].
                 lia.
        -- destruct (Hh i) as (p & c0 & Hp' & Hc0 & He0); [lia|].
           destruct (Hkeep p c0 Hc0 He0) as (c1 & Hc1 & He1).
           exists p, c1. split; [|done]. unfold array_store.
           apply lookup_lt_Some in Hp' as Hlt'.
           destruct (Nat.ltb_spec (N.to_nat (execution_count (memory rt)))
                       (length (execution_history (memory rt)))).
           ++ rewrite list_lookup_insert_ne by lia. done.
           ++ by apply lookup_app_l_Some.
      * intros i Hi. cbn [memory execution_count cells] in *.
        destruct (decide (i = N.to_nat (execution_count (memory rt)))) as [->|Hne].
        -- rewrite list_lookup_insert_eq by done. by eexists.
        -- destruct (Hc i) as (c0 & Hc0 & He0); [lia|]. by eapply Hkeep.
    + apply r_execute_cell_failure in Hx as ->. by split.
  - unfold r_step_backward. destruct (N.eqb_spec (execution_count (memory rt)) 0);
      [done|].
    rewrite r_rewind_only_moves_count by (apply IH || lia). cbn [snd].
    apply executed_prefix_set_count; [done | lia].
Qed.

Lemma executed_cell_refused rt p c :
  cells (memory rt) !! p = Some c -> executed c = true ->
  r_execute_cell rt p = (false, rt).
Proof. intros Hp He. unfold r_execute_cell. by rewrite Hp, He. Qed.

(** X5.  In a debugger session, [r_step_backward] after at least one
    executed step succeeds by moving the execution count down by one,
    without changing any bit; the step taken back cannot be redone:
    [r_step_forward] then fails and changes nothing, the cell at the
    execution count being still marked as executed. *)
Theorem r_step_backward_then_forward_fails (rt : R_Runtime) :
  stepped rt -> 0 < execution_count (memory rt) ->
  exists rt1,
    r_step_backward rt = (true, rt1) /\
    qubits (memory rt1) = qubits (memory rt) /\
    execution_count (memory rt1) = execution_count (memory rt) - 1 /\
    r_step_forward rt1 = (false, rt1).
Proof.
  intros Hs Hpos. destruct (stepped_executed_prefix rt Hs) as [Hh Hc].
  exists (set_execution_count (execution_count (memory rt) - 1) rt).
  unfold r_step_backward.
  destruct (N.eqb_spec (execution_count (memory rt)) 0); [lia|].
  rewrite r_rewind_only_moves_count by (done || lia).
  split; [done|]. split; [done|]. split; [done|].
  unfold r_step_forward. cbn [set_execution_count set_history memory execution_count].
  destruct (_ <=? _); [done|].
  destruct (Hc (N.to_nat (execution_count (memory rt) - 1))) as (c & Hcell & He);
    [lia|].
  by apply (executed_cell_refused _ _ c).
Qed.

Definition one_not_stepped : R_Runtime := snd (r_step_forward (snd one_not_cell)).

Lemma r_step_backward_then_forward_fails_witness :
  exists rt1,
    r_step_backward one_not_stepped = (true, rt1) /\
    qubits (memory rt1) = qubits (memory one_not_stepped) /\
    execution_count (memory rt1) = execution_count (memory one_not_stepped) - 1 /\
    r_step_forward rt1 = (false, rt1).
Proof.
  apply (r_step_backward_then_forward_fails one_not_stepped).
  - apply stepped_forward, (stepped_create (r_runtime_init 1 0)), stepped_init.
  - reflexivity.
Defined.

End Checkpoints.

(** ** A cell runs at most once between two restores *)

Section ExecutedOnce.
Import R.

(** What a session does to a runtime, restoring a checkpoint apart. *)
Inductive R_Op :=
| op_create (opcode : string) (args : list string) (path : option string)
| op_write (index : N) (value : Z)
| op_NOT (a : N)
| op_CNOT (a b : N)
| op_CCNOT (a b c : N)
| op_SWAP (a b : N)
| op_execute (cell : cell_ptr)
| op_inverse (cell : cell_ptr)
| op_rewind (execution_index : N)
| op_step_forward
| op_step_backward
| op_save (label : option string) (now : Z).

Definition r_apply (rt : R_Runtime) (op : R_Op) : R_Runtime :=
  match op with
  | op_create opcode args path => snd (r_create_cell rt opcode args path)
  | op_write index value => snd (r_write_qubit rt index value)
  | op_NOT a => snd (r_execute_NOT rt a)
  | op_CNOT a b => snd (r_execute_CNOT rt a b)
  | op_CCNOT a b c => snd (r_execute_CCNOT rt a b c)
  | op_SWAP a b => snd (r_execute_SWAP rt a b)
  | op_execute cell => snd (r_execute_cell rt cell)
  | op_inverse cell => snd (r_execute_inverse rt cell)
  | op_rewind execution_index => snd (r_rewind_to_index rt execution_index)
  | op_step_forward => snd (r_step_forward rt)
  | op_step_backward => snd (r_step_backward rt)
  | op_save label now => snd (r_save_checkpoint rt label now)
  end.

(** The cell [p] of [rt] is marked as executed. *)
Definition flagged (rt : R_Runtime) (p : cell_ptr) : Prop :=
  exists c, cells (memory rt) !! p = Some c /\ executed c = true.

Lemma flagged_same_cells rt rt' p :
  cells (memory rt') = cells (memory rt) -> flagged rt p -> flagged rt' p.
Proof. intros E (c & Hc & He). exists c. by rewrite E. Qed.

Lemma flagged_execute rt p q : flagged rt p -> flagged (snd (r_execute_cell rt q)) p.
Proof.
  intros (c & Hc & He). destruct (r_execute_cell rt q) as [[] rt'] eqn:Hx.
  - destruct (r_execute_cell_success _ _ _ Hx) as (cq & bits & Hq & _ & _ & ->).
    unfold flagged. simpl. destruct (decide (q = p)) as [-> | Hne].
    + exists (set_executed true cq). split; [|done].
      apply list_lookup_insert_eq. by apply lookup_lt_Some in Hq.
    + exists c. by rewrite list_lookup_insert_ne.
  - apply r_execute_cell_failure in Hx as ->. by exists c.
Qed.

Lemma flagged_rewind_loop n i rt p :
  flagged rt p -> flagged (rewind_loop n i rt) p.
Proof.
  revert i rt. induction n as [|n IH]; intros i rt Hf; [done|]. simpl.
  apply IH. destruct (execution_history (memory rt) !! _); [|done].
  by apply flagged_execute.
Qed.

Lemma flagged_rewind rt k p :
  flagged rt p -> flagged (snd (r_rewind_to_index rt k)) p.
Proof.
  intros Hf. unfold r_rewind_to_index. destruct (_ <? _); [done|].
  cbv zeta. cbn [snd].
  apply (flagged_same_cells
           (rewind_loop (N.to_nat (execution_count (memory rt) - k))
                        (execution_count (memory rt)) rt)); [done|].
  by apply flagged_rewind_loop.
Qed.

Lemma flagged_apply rt p op : flagged rt p -> flagged (r_apply rt op) p.
Proof.
  intros Hf. destruct op; cbn [r_apply].
  - destruct Hf as (c & Hc & He). exists c. split; [|done].
    simpl. by apply lookup_app_l_Some.
  - apply (flagged_same_cells rt); [|done].
    unfold r_write_qubit. by destruct (_ <=? _).
  - apply (flagged_same_cells rt); [|done].
    unfold r_execute_NOT. by destruct (_ <=? _).
  - apply (flagged_same_cells rt); [|done].
    unfold r_execute_CNOT. destruct (_ || _); [done|]. by destruct (negb _).
  - apply (flagged_same_cells rt); [|done].
    unfold r_execute_CCNOT. destruct (_ || _); [done|]. by destruct (_ && _).
  - apply (flagged_same_cells rt); [|done].
    unfold r_execute_SWAP. by destruct (_ || _).
  - by apply flagged_execute.
  - by apply flagged_execute.
  - by apply flagged_rewind.
  - unfold r_step_forward. destruct (_ <=? _); [done|]. by apply flagged_execute.
  - unfold r_step_backward. destruct (_ =? _); [done|]. by apply flagged_rewind.
  - by apply (flagged_same_cells rt).
Qed.

Lemma flagged_session rt p ops :
  flagged rt p -> flagged (fold_left r_apply ops rt) p.
Proof.
  revert rt. induction ops as [|op ops IH]; intros rt Hf; [done|].
  simpl. by apply IH, flagged_apply.
Qed.

(** C10 (as amended): a call of [r_execute_cell] on a cell whose
    [executed] flag is set returns [false] and leaves the whole runtime
    (bit array, cells, execution history and count) as it was, and so does
    [r_execute_inverse], which therefore never re-applies the gate.  A
    successful execution sets the flag, and nothing but the restoring of a
    checkpoint clears it: whatever cells are created, bits written, gates
    applied, cells executed or inverted, rewinds and steps taken and
    checkpoints saved afterwards, the flag is still set.  So, as long as no
    checkpoint is restored, a cell is executed at most once. *)
Theorem cell_executed_at_most_once (rt : R_Runtime) (p : cell_ptr) (c : HRIR_Cell)
    (ops : list R_Op) :
  cells (memory rt) !! p = Some c -> executed c = true ->
  (r_execute_cell rt p = (false, rt) /\ r_execute_inverse rt p = (false, rt)) /\
  flagged (fold_left r_apply ops rt) p /\
  r_execute_cell (fold_left r_apply ops rt) p = (false, fold_left r_apply ops rt) /\
  r_execute_inverse (fold_left r_apply ops rt) p
  = (false, fold_left r_apply ops rt) /\
  forall q rt',
    r_execute_cell (fold_left r_apply ops rt) q = (true, rt') ->
    q <> p /\ flagged rt' q /\ flagged rt' p.
Proof.
  intros Hc He.
  assert (flagged rt p) as Hf by (by exists c).
  pose proof (flagged_session rt p ops Hf) as Hs.
  split; [split; by apply (executed_cell_refused _ _ c)|].
  split; [done|].
  destruct Hs as (c' & Hc' & He').
  split; [by apply (executed_cell_refused _ _ c')|].
  split; [by apply (executed_cell_refused _ _ c')|].
  intros q rt' Hx. split.
  - intros ->. rewrite (executed_cell_refused _ _ c' Hc' He') in Hx. discriminate Hx.
  - split.
    + by apply r_execute_cell_marks in Hx.
    + change rt' with (snd (true, rt')). rewrite <- Hx.
      apply flagged_execute. by exists c'.
Qed.

(** After the cell [NOT 0] has run: a rewind, a step forward, a second
    cell created and executed. *)
Definition after_not_session : list R_Op :=
  [op_rewind 0; op_step_forward; op_create "NOT" ["0"%string] None; op_execute 1%nat].

Lemma cell_executed_at_most_once_witness :
  (r_execute_cell (snd one_not_executed) 0%nat = (false, snd one_not_executed) /\
   r_execute_inverse (snd one_not_executed) 0%nat = (false, snd one_not_executed)) /\
  flagged (fold_left r_apply after_not_session (snd one_not_executed)) 0%nat /\
  r_execute_cell (fold_left r_apply after_not_session (snd one_not_executed)) 0%nat
  = (false, fold_left r_apply after_not_session (snd one_not_executed)) /\
  r_execute_inverse (fold_left r_apply after_not_session (snd one_not_executed)) 0%nat
  = (false, fold_left r_apply after_not_session (snd one_not_executed)) /\
  forall q rt',
    r_execute_cell (fold_left r_apply after_not_session (snd one_not_executed)) q
    = (true, rt') ->
    q <> 0%nat /\ flagged rt' q /\ flagged rt' 0%nat.
Proof.
  apply (cell_executed_at_most_once (snd one_not_executed) 0%nat
           (mkCell 0 "NOT" ["0"%string] None true None None true [] [])
           after_not_session); reflexivity.
Defined.

(** C10 as stated fails: restoring a checkpoint clears the flag, and the
    cell runs a second time.  On one bit and the cell [NOT 0], a
    checkpoint is saved, the cell is executed (the bit is 1), the
    checkpoint is restored (the bit is 0 again and the cell is marked as
    not executed), and the same cell is executed again: the call succeeds
    and the gate is applied anew. *)
Lemma restore_lets_cell_run_again :
  fst (r_execute_cell (snd not_then_saved) 0%nat) = true /\
  qubits (memory saved_then_executed) = [1%Z] /\
  flagged saved_then_executed 0%nat /\
  fst (r_restore_checkpoint saved_then_executed (Some (fst not_then_saved))) = true /\
  qubits (memory (snd (r_restore_checkpoint saved_then_executed
                         (Some (fst not_then_saved))))) = [0%Z] /\
  fst (r_execute_cell (snd (r_restore_checkpoint saved_then_executed
                              (Some (fst not_then_saved)))) 0%nat) = true /\
  qubits (memory (snd (r_execute_cell
                         (snd (r_restore_checkpoint saved_then_executed
                                 (Some (fst not_then_saved)))) 0%nat))) = [1%Z].
Proof.
  repeat split. by eexists.
Qed.

End ExecutedOnce.

(** ** HRIR programs: stepping, running, rolling back *)

Section ProgramRuntime.
Import LibC HRIR.

Lemma size_inc_dec (s : N) :
  ((s + 1) mod SIZE_MOD + SIZE_MOD - 1) mod SIZE_MOD = s mod SIZE_MOD.
Proof.
  assert (1 <= SIZE_MOD) as Hpos by done.
  rewrite <- N.add_sub_assoc by done.
  rewrite N.Div0.add_mod_idemp_l.
  rewrite <- N.add_assoc, (N.add_comm 1), N.sub_add by done.
  rewrite <- (N.mul_1_l SIZE_MOD) at 1. by rewrite N.Div0.mod_add.
Qed.

Lemma size_dec_inc (s : N) :
  ((s + SIZE_MOD - 1) mod SIZE_MOD + 1) mod SIZE_MOD = s mod SIZE_MOD.
Proof.
  assert (1 <= SIZE_MOD) as Hpos by done.
  rewrite N.Div0.add_mod_idemp_l.
  rewrite <- N.add_sub_assoc by done.
  rewrite <- N.add_assoc, N.sub_add by done.
  rewrite <- (N.mul_1_l SIZE_MOD) at 1. by rewrite N.Div0.mod_add.
Qed.

Lemma alter_alter {A} (f g : A -> A) (i : nat) (l : list A) :
  alter f i (alter g i l) = alter (fun x => f (g x)) i l.
Proof.
  apply list_eq. intros j. destruct (decide (j = i)) as [->|Hne].
  - rewrite !list_lookup_alter_eq. by destruct (l !! i).
  - by rewrite !list_lookup_alter_ne.
Qed.

(** X6.  A step followed by an undo is back at the same program counter:
    the cell stepped over is pending again (not executed, no result), the
    other cells, the checkpoint and the step counter are as before, and
    the rollback counter has grown by one. *)
Theorem hr_ir_step_then_undo (rt : HRIR_Runtime) :
  pc (program rt) < cell_count (program rt) ->
  exists rt1 rt2,
    hr_ir_step rt = (true, rt1) /\ hr_ir_undo rt1 = (true, rt2) /\
    pc (program rt2) = pc (program rt) /\
    cells (program rt2)
    = alter (set_exec false None) (N.to_nat (pc (program rt)))
            (cells (program rt)) /\
    checkpoint rt2 = checkpoint rt /\
    steps_executed rt2 = steps_executed rt mod SIZE_MOD /\
    rollbacks rt2 = (rollbacks rt + 1) mod SIZE_MOD.
Proof.
  intros Hlt. unfold hr_ir_step.
  destruct (N.leb_spec (cell_count (program rt)) (pc (program rt))); [lia|].
  eexists. eexists. split; [reflexivity|]. unfold hr_ir_undo.
  cbn [program pc cells source_name next_id checkpoint steps_executed rollbacks
       last_error].
  destruct (N.eqb_spec (pc (program rt) + 1) 0); [lia|].
  split; [reflexivity|]. cbn [program pc cells checkpoint steps_executed rollbacks].
  replace (pc (program rt) + 1 - 1) with (pc (program rt)) by lia.
  split; [done|]. split; [by rewrite alter_alter|]. split; [done|].
  split; [apply size_inc_dec | done].
Qed.

(** A program of two pending cells, [add] and a side effect. *)
Definition add_print : HRIR_Program :=
  snd (hr_ir_add_cell
         (snd (hr_ir_add_cell (hr_ir_create_program None)
                 (hr_ir_create_cell "add" ["5"; "3"]%string)))
         (hr_ir_from_d_term_operation "print" ["x"]%string)).

Lemma hr_ir_step_then_undo_witness :
  exists rt1 rt2,
    hr_ir_step (hr_ir_create_runtime add_print) = (true, rt1) /\
    hr_ir_undo rt1 = (true, rt2) /\
    pc (program rt2) = pc (program (hr_ir_create_runtime add_print)) /\
    cells (program rt2)
    = alter (set_exec false None)
            (N.to_nat (pc (program (hr_ir_create_runtime add_print))))
            (cells (program (hr_ir_create_runtime add_print))) /\
    checkpoint rt2 = checkpoint (hr_ir_create_runtime add_print) /\
    steps_executed rt2
    = steps_executed (hr_ir_create_runtime add_print) mod SIZE_MOD /\
    rollbacks rt2 = (rollbacks (hr_ir_create_runtime add_print) + 1) mod SIZE_MOD.
Proof.
  apply (hr_ir_step_then_undo (hr_ir_create_runtime add_print)). reflexivity.
Defined.

(** X7.  An undo followed by a step is back at the same program counter,
    with the cell before it executed and holding the result text
    [executed]; the other cells are untouched. *)
Theorem hr_ir_undo_then_step (rt : HRIR_Runtime) :
  0 < pc (program rt) -> pc (program rt) <= cell_count (program rt) ->
  exists rt1 rt2,
    hr_ir_undo rt = (true, rt1) /\ hr_ir_step rt1 = (true, rt2) /\
    pc (program rt2) = pc (program rt) /\
    cells (program rt2)
    = alter (set_exec true (Some "executed"%string))
            (N.to_nat (pc (program rt) - 1)) (cells (program rt)) /\
    checkpoint rt2 = checkpoint rt /\
    steps_executed rt2 = steps_executed rt mod SIZE_MOD /\
    rollbacks rt2 = (rollbacks rt + 1) mod SIZE_MOD.
Proof.
  intros Hpos Hle. unfold hr_ir_undo.
  destruct (N.eqb_spec (pc (program rt)) 0); [lia|].
  eexists. eexists. split; [reflexivity|]. unfold hr_ir_step.
  cbn [program pc cells source_name next_id checkpoint steps_executed rollbacks
       last_error].
  unfold cell_count in *. cbn [cells]. rewrite length_alter.
  destruct (N.leb_spec (N.of_nat (length (cells (program rt))))
              (pc (program rt) - 1)); [lia|].
  split; [reflexivity|]. cbn [program pc cells checkpoint steps_executed rollbacks].
  split; [lia|]. split; [by rewrite alter_alter|]. split; [done|].
  split; [apply size_dec_inc | done].
Qed.

Lemma hr_ir_undo_then_step_witness :
  exists rt1 rt2,
    hr_ir_undo (snd (hr_ir_step (hr_ir_create_runtime add_print))) = (true, rt1) /\
    hr_ir_step rt1 = (true, rt2) /\
    pc (program rt2)
    = pc (program (snd (hr_ir_step (hr_ir_create_runtime add_print)))) /\
    cells (program rt2)
    = alter (set_exec true (Some "executed"%string))
        (N.to_nat (pc (program (snd (hr_ir_step (hr_ir_create_runtime add_print)))) - 1))
        (cells (program (snd (hr_ir_step (hr_ir_create_runtime add_print))))) /\
    checkpoint rt2 = checkpoint (snd (hr_ir_step (hr_ir_create_runtime add_print))) /\
    steps_executed rt2
    = steps_executed (snd (hr_ir_step (hr_ir_create_runtime add_print)))
      mod SIZE_MOD /\
    rollbacks rt2
    = (rollbacks (snd (hr_ir_step (hr_ir_create_runtime add_print))) + 1)
      mod SIZE_MOD.
Proof.
  apply (hr_ir_undo_then_step (snd (hr_ir_step (hr_ir_create_runtime add_print))));
    vm_compute; [reflexivity | discriminate].
Defined.

(** *** Running to the end *)

Lemma run_loop_reaches (k : nat) (rt : HRIR_Runtime) :
  N.to_nat (cell_count (program rt) - pc (program rt)) = k ->
  exists rt',
    (forall fuel, (k < fuel)%nat -> run_loop fuel rt = Some rt') /\
    pc (program rt') = N.max (pc (program rt)) (cell_count (program rt)) /\
    length (cells (program rt')) = length (cells (program rt)) /\
    checkpoint rt' = checkpoint rt /\
    forall (j : nat) c,
      cells (program rt) !! j = Some c ->
      cells (program rt') !! j
      = Some (if pc (program rt) <=? N.of_nat j
              then set_exec true (Some "executed"%string) c else c).
Proof.
  revert rt. induction k as [|k IH]; intros rt Hk.
  - exists rt. split; [|split; [lia|split; [done|split; [done|]]]].
    + intros [|fuel] Hf; [lia|]. simpl. unfold hr_ir_step.
      destruct (N.leb_spec (cell_count (program rt)) (pc (program rt))); [done|lia].
    + intros j c Hj. apply lookup_lt_Some in Hj as Hlt. unfold cell_count in Hk.
      destruct (N.leb_spec (pc (program rt)) (N.of_nat j)); [lia|done].
  - pose (rt1 := snd (hr_ir_step rt)).
    assert (hr_ir_step rt = (true, rt1)) as Hstep.
    { unfold rt1, hr_ir_step.
      by destruct (N.leb_spec (cell_count (program rt)) (pc (program rt))); [lia|]. }
    assert (pc (program rt1) = pc (program rt) + 1 /\
            cells (program rt1)
            = alter (set_exec true (Some "executed"%string))
                    (N.to_nat (pc (program rt))) (cells (program rt)) /\
            checkpoint rt1 = checkpoint rt) as (Hpc & Hcells & Hcp).
    { unfold rt1, hr_ir_step.
      by destruct (N.leb_spec (cell_count (program rt)) (pc (program rt))); [lia|]. }
    assert (cell_count (program rt1) = cell_count (program rt)) as Hcount.
    { unfold cell_count. by rewrite Hcells, length_alter. }
    destruct (IH rt1) as (rt' & Hrun & Hpc' & Hlen & Hcp' & Hc'); [lia|].
    exists rt'. split; [|split; [lia|split; [|split; [congruence|]]]].
    + intros [|fuel] Hf; [lia|]. simpl. rewrite Hstep. apply Hrun. lia.
    + by rewrite Hlen, Hcells, length_alter.
    + intros j c Hj. destruct (decide (j = N.to_nat (pc (program rt)))) as [->|Hne].
      * rewrite (Hc' _ (set_exec true (Some "executed"%string) c)).
        -- rewrite Hpc.
           destruct (N.leb_spec (pc (program rt) + 1)
                       (N.of_nat (N.to_nat (pc (program rt))))); [lia|].
           by destruct (N.leb_spec (pc (program rt))
                          (N.of_nat (N.to_nat (pc (program rt))))); [|lia].
        -- by rewrite Hcells, list_lookup_alter_eq, Hj.
      * rewrite (Hc' _ c) by (by rewrite Hcells, list_lookup_alter_ne).
        rewrite Hpc.
        destruct (N.leb_spec (pc (program rt) + 1) (N.of_nat j)),
          (N.leb_spec (pc (program rt)) (N.of_nat j)); try done; lia.
Qed.

(** X8.  [hr_ir_run] ends on every runtime, after as many steps as there
    are cells from the program counter on, and answers [true]: the program
    counter is at the end, every cell from the old program counter on is
    executed with the result text [executed], and the cells before it are
    untouched. *)
Theorem hr_ir_run_completes (rt : HRIR_Runtime) :
  exists rt',
    (forall fuel,
        (N.to_nat (cell_count (program rt) - pc (program rt)) < fuel)%nat ->
        hr_ir_run fuel rt = Some (true, rt')) /\
    pc (program rt') = N.max (pc (program rt)) (cell_count (program rt)) /\
    cell_count (program rt') = cell_count (program rt) /\
    forall (j : nat) c,
      cells (program rt) !! j = Some c ->
      cells (program rt') !! j
      = Some (if pc (program rt) <=? N.of_nat j
              then set_exec true (Some "executed"%string) c else c).
Proof.
  destruct (run_loop_reaches _ rt eq_refl) as (rt' & Hrun & Hpc & Hlen & _ & Hc).
  exists rt'. split; [|split; [done|split; [unfold cell_count; by rewrite Hlen|done]]].
  intros fuel Hf. unfold hr_ir_run. rewrite (Hrun fuel Hf).
  unfold cell_count in *. rewrite Hpc, Hlen.
  by destruct (N.leb_spec (N.of_nat (length (cells (program rt))))
                 (N.max (pc (program rt)) (N.of_nat (length (cells (program rt))))));
    [|lia].
Qed.

(** *** Rolling back to the checkpoint *)

Lemma rollback_reaches (k : nat) (rt : HRIR_Runtime) :
  N.to_nat (pc (program rt) - checkpoint rt) = k ->
  exists rt',
    (forall fuel, (k < fuel)%nat -> hr_ir_rollback fuel rt = Some (true, rt')) /\
    pc (program rt') = N.min (pc (program rt)) (checkpoint rt) /\
    length (cells (program rt')) = length (cells (program rt)) /\
    checkpoint rt' = checkpoint rt /\
    forall (j : nat) c,
      cells (program rt) !! j = Some c ->
      cells (program rt') !! j
      = Some (if (checkpoint rt <=? N.of_nat j) && (N.of_nat j <? pc (program rt))
              then set_exec false None c else c).
Proof.
  revert rt. induction k as [|k IH]; intros rt Hk.
  - exists rt. split; [|split; [lia|split; [done|split; [done|]]]].
    + intros [|fuel] Hf; [lia|]. simpl.
      destruct (N.ltb_spec (checkpoint rt) (pc (program rt))); [lia|done].
    + intros j c Hj.
      destruct (N.leb_spec (checkpoint rt) (N.of_nat j)),
        (N.ltb_spec (N.of_nat j) (pc (program rt))); simpl; try done; lia.
  - pose (rt1 := snd (hr_ir_undo rt)).
    assert (hr_ir_undo rt = (true, rt1) /\
            pc (program rt1) = pc (program rt) - 1 /\
            cells (program rt1)
            = alter (set_exec false None) (N.to_nat (pc (program rt) - 1))
                    (cells (program rt)) /\
            checkpoint rt1 = checkpoint rt) as (Hundo & Hpc & Hcells & Hcp).
    { unfold rt1, hr_ir_undo.
      by destruct (N.eqb_spec (pc (program rt)) 0); [lia|]. }
    destruct (IH rt1) as (rt' & Hrun & Hpc' & Hlen & Hcp' & Hc'); [lia|].
    exists rt'. split; [|split; [lia|split; [|split; [congruence|]]]].
    + intros [|fuel] Hf; [lia|]. simpl.
      destruct (N.ltb_spec (checkpoint rt) (pc (program rt))); [|lia].
      rewrite Hundo. apply Hrun. lia.
    + by rewrite Hlen, Hcells, length_alter.
    + intros j c Hj.
      destruct (decide (j = N.to_nat (pc (program rt) - 1))) as [->|Hne].
      * rewrite (Hc' _ (set_exec false None c))
          by (by rewrite Hcells, list_lookup_alter_eq, Hj).
        rewrite Hpc, Hcp.
        destruct (N.leb_spec (checkpoint rt)
                    (N.of_nat (N.to_nat (pc (program rt) - 1)))); [|lia].
        destruct (N.ltb_spec (N.of_nat (N.to_nat (pc (program rt) - 1)))
                    (pc (program rt))); [|lia].
        by destruct (N.ltb_spec (N.of_nat (N.to_nat (pc (program rt) - 1)))
                       (pc (program rt) - 1)); [lia|].
      * rewrite (Hc' _ c) by (by rewrite Hcells, list_lookup_alter_ne).
        rewrite Hpc, Hcp.
        destruct (N.leb_spec (checkpoint rt) (N.of_nat j)),
          (N.ltb_spec (N.of_nat j) (pc (program rt) - 1)),
          (N.ltb_spec (N.of_nat j) (pc (program rt))); simpl; try done; lia.
Qed.

(** X9.  [hr_ir_rollback] ends and answers [true]: a program counter
    above the checkpoint comes back to it by undoing the cells in between,
    which are pending again, while the cells outside that range are
    untouched; a program counter at or below the checkpoint stays where it
    is. *)
Theorem hr_ir_rollback_returns_to_checkpoint (rt : HRIR_Runtime) :
  pc (program rt) <= cell_count (program rt) ->
  exists rt',
    (forall fuel,
        (N.to_nat (pc (program rt) - checkpoint rt) < fuel)%nat ->
        hr_ir_rollback fuel rt = Some (true, rt')) /\
    pc (program rt') = N.min (pc (program rt)) (checkpoint rt) /\
    checkpoint rt' = checkpoint rt /\
    cell_count (program rt') = cell_count (program rt) /\
    forall (j : nat) c,
      cells (program rt) !! j = Some c ->
      cells (program rt') !! j
      = Some (if (checkpoint rt <=? N.of_nat j) && (N.of_nat j <? pc (program rt))
              then set_exec false None c else c).
Proof.
  intros _.
  destruct (rollback_reaches _ rt eq_refl) as (rt' & Hrun & Hpc & Hlen & Hcp & Hc).
  exists rt'. unfold cell_count. by rewrite Hlen.
Qed.

(** The two cells of [add_print], both executed after a checkpoint at
    the start. *)
Definition add_print_run : HRIR_Runtime :=
  snd (hr_ir_step (snd (hr_ir_step
    (snd (hr_ir_checkpoint (hr_ir_create_runtime add_print)))))).

Lemma hr_ir_rollback_returns_to_checkpoint_witness :
  exists rt',
    (forall fuel,
        (N.to_nat (pc (program add_print_run) - checkpoint add_print_run) < fuel)%nat ->
        hr_ir_rollback fuel add_print_run = Some (true, rt')) /\
    pc (program rt') = N.min (pc (program add_print_run)) (checkpoint add_print_run) /\
    checkpoint rt' = checkpoint add_print_run /\
    cell_count (program rt') = cell_count (program add_print_run) /\
    forall (j : nat) c,
      cells (program add_print_run) !! j = Some c ->
      cells (program rt') !! j
      = Some (if (checkpoint add_print_run <=? N.of_nat j)
                 && (N.of_nat j <? pc (program add_print_run))
              then set_exec false None c else c).
Proof.
  apply (hr_ir_rollback_returns_to_checkpoint add_print_run).
  vm_compute. discriminate.
Defined.

End ProgramRuntime.

(** ** HRIR programs: cells, identifiers, statistics *)

Section ProgramBuilding.
Import LibC HRIR.

(** The cells [cs] added one after the other. *)
Definition add_cells (cs : list HRIR_Cell) (p : HRIR_Program) : HRIR_Program :=
  fold_left (fun q c => snd (hr_ir_add_cell q c)) cs p.

(** The cell as [hr_ir_add_cell] stores it under the identifier [n]. *)
Definition stored (n : N) (c : HRIR_Cell) : HRIR_Cell :=
  default c (last (cells (snd (hr_ir_add_cell (mkProgram [] 0 None n) c)))).

Lemma stored_fields n c :
  id (stored n c) = n /\ opcode (stored n c) = opcode c /\
  args (stored n c) = args c /\ is_reversible (stored n c) = is_reversible c /\
  executed (stored n c) = executed c /\
  inverse (stored n c)
  = (if is_reversible c
     then match inverse c with
          | None => hr_ir_create_inverse c
          | Some i => Some i
          end
     else inverse c).
Proof. done. Qed.

Lemma add_cells_spec cs p :
  next_id p + N.of_nat (length cs) < 2 ^ 32 ->
  cells (add_cells cs p)
  = cells p ++ imap (fun i c => stored (next_id p + N.of_nat i) c) cs /\
  pc (add_cells cs p) = pc p /\
  next_id (add_cells cs p) = next_id p + N.of_nat (length cs).
Proof.
  revert p. induction cs as [|c cs IH]; intros p Hn.
  - simpl. rewrite app_nil_r. repeat split; lia.
  - change (add_cells (c :: cs) p) with (add_cells cs (snd (hr_ir_add_cell p c))).
    cbn [length] in Hn.
    assert (to_uint32 (Z.of_N (next_id p) + 1) = next_id p + 1) as Hid.
    { unfold to_uint32. rewrite Z.mod_small by lia. lia. }
    destruct (IH (snd (hr_ir_add_cell p c))) as (Hc & Hpc & Hnext).
    { cbn [hr_ir_add_cell snd next_id]. rewrite Hid. lia. }
    rewrite Hc, Hpc, Hnext. cbn [hr_ir_add_cell snd cells pc next_id].
    rewrite Hid. split; [|split; [done|cbn [length]; lia]].
    rewrite <- app_assoc. f_equal. cbn [app imap]. rewrite N.add_0_r.
    f_equal. apply imap_ext. intros i x _. simpl.
    by replace (next_id p + 1 + N.of_nat i) with (next_id p + N.of_nat (S i)) by lia.
Qed.

Lemma find_first {A} (f : A -> bool) (l : list A) (i : nat) (x : A) :
  l !! i = Some x -> f x = true ->
  (forall j y, (j < i)%nat -> l !! j = Some y -> f y = false) ->
  List.find f l = Some x.
Proof.
  revert i. induction l as [|a l IH]; intros i Hi Hx Hbefore; [done|].
  destruct i as [|i].
  - injection Hi as ->. simpl. by rewrite Hx.
  - simpl. rewrite (Hbefore O a) by (done || lia).
    apply (IH i); [done..|]. intros j y Hj Hy. apply (Hbefore (S j) y); [lia|done].
Qed.

(** X10.  Fewer than [2^32 - 1] cells added to a new program are stored in
    the order of the calls under the identifiers 1, 2, 3, ...: the cell at
    index [i] has the identifier [i + 1] and the opcode, arguments and
    reversibility of the [i]-th cell added, and [hr_ir_get_cell_by_id]
    finds it under that identifier.  The program counter stays at 0. *)
Theorem hr_ir_add_cell_sequential_ids (name : option string) (cs : list HRIR_Cell) :
  N.of_nat (length cs) < 2 ^ 32 - 1 ->
  cell_count (add_cells cs (hr_ir_create_program name)) = N.of_nat (length cs) /\
  pc (add_cells cs (hr_ir_create_program name)) = 0 /\
  forall (i : nat) c,
    cs !! i = Some c ->
    exists c',
      hr_ir_get_cell (add_cells cs (hr_ir_create_program name)) (N.of_nat i)
      = Some c' /\
      hr_ir_get_cell_by_id (add_cells cs (hr_ir_create_program name)) (N.of_nat i + 1)
      = Some c' /\
      id c' = N.of_nat i + 1 /\ opcode c' = opcode c /\ args c' = args c /\
      is_reversible c' = is_reversible c.
Proof.
  intros Hn.
  destruct (add_cells_spec cs (hr_ir_create_program name)) as (Hc & Hpc & _);
    [simpl; lia|].
  cbn [hr_ir_create_program cells app next_id pc] in Hc, Hpc.
  assert (forall (j : nat) y,
             cells (add_cells cs (hr_ir_create_program name)) !! j = Some y ->
             id y = 1 + N.of_nat j) as Hids.
  { intros j y. rewrite Hc, list_lookup_imap.
    destruct (cs !! j); [|done]. by intros [= <-]. }
  split; [unfold cell_count; by rewrite Hc, length_imap|]. split; [done|].
  intros i c Hi. exists (stored (1 + N.of_nat i) c).
  assert (cells (add_cells cs (hr_ir_create_program name)) !! i
          = Some (stored (1 + N.of_nat i) c)) as Hcell
    by (by rewrite Hc, list_lookup_imap, Hi).
  apply lookup_lt_Some in Hi as Hlt. split; [|split].
  - unfold hr_ir_get_cell, cell_count. rewrite Hc, length_imap.
    destruct (N.leb_spec (N.of_nat (length cs)) (N.of_nat i)); [lia|].
    by rewrite Nat2N.id, <- Hc.
  - unfold hr_ir_get_cell_by_id.
    apply (find_first _ _ i); [done|apply N.eqb_eq; simpl; lia|].
    intros j y Hj Hy. apply Hids in Hy. apply N.eqb_neq. lia.
  - repeat split. simpl. lia.
Qed.

Lemma hr_ir_add_cell_sequential_ids_witness :
  cell_count (add_cells [hr_ir_create_cell "add" ["5"; "3"]%string;
                         hr_ir_from_d_term_operation "print" ["x"]%string]
                        (hr_ir_create_program None))
  = N.of_nat (length [hr_ir_create_cell "add" ["5"; "3"]%string;
                      hr_ir_from_d_term_operation "print" ["x"]%string]) /\
  pc (add_cells [hr_ir_create_cell "add" ["5"; "3"]%string;
                 hr_ir_from_d_term_operation "print" ["x"]%string]
                (hr_ir_create_program None)) = 0 /\
  forall (i : nat) c,
    [hr_ir_create_cell "add" ["5"; "3"]%string;
     hr_ir_from_d_term_operation "print" ["x"]%string] !! i = Some c ->
    exists c',
      hr_ir_get_cell (add_cells [hr_ir_create_cell "add" ["5"; "3"]%string;
                                 hr_ir_from_d_term_operation "print" ["x"]%string]
                                (hr_ir_create_program None)) (N.of_nat i)
      = Some c' /\
      hr_ir_get_cell_by_id
        (add_cells [hr_ir_create_cell "add" ["5"; "3"]%string;
                    hr_ir_from_d_term_operation "print" ["x"]%string]
                   (hr_ir_create_program None)) (N.of_nat i + 1)
      = Some c' /\
      id c' = N.of_nat i + 1 /\ opcode c' = opcode c /\ args c' = args c /\
      is_reversible c' = is_reversible c.
Proof.
  apply (hr_ir_add_cell_sequential_ids None
           [hr_ir_create_cell "add" ["5"; "3"]%string;
            hr_ir_from_d_term_operation "print" ["x"]%string]).
  reflexivity.
Defined.

(** X11.  [hr_ir_create_inverse] pairs [add] with [subtract] and
    [multiply] with [divide]: when it builds an inverse, the cell is
    reversible, its opcode is one of the four and the inverse has the
    paired opcode.  The inverse keeps the arguments, is reversible and
    not executed, and its own inverse has the opcode and the arguments of
    the cell again. *)
Theorem hr_ir_create_inverse_involutive (cell inv : HRIR_Cell) :
  hr_ir_create_inverse cell = Some inv ->
  is_reversible cell = true /\
  ((opcode cell = "add"%string /\ opcode inv = "subtract"%string) \/
   (opcode cell = "subtract"%string /\ opcode inv = "add"%string) \/
   (opcode cell = "multiply"%string /\ opcode inv = "divide"%string) \/
   (opcode cell = "divide"%string /\ opcode inv = "multiply"%string)) /\
  args inv = args cell /\ is_reversible inv = true /\ executed inv = false /\
  exists back,
    hr_ir_create_inverse inv = Some back /\
    opcode back = opcode cell /\ args back = args cell.
Proof.
  unfold hr_ir_create_inverse, streq.
  destruct (is_reversible cell); [|done]. cbn [negb].
  destruct (String.eqb_spec (opcode cell) "add") as [Ho|_];
    [|destruct (String.eqb_spec (opcode cell) "subtract") as [Ho|_];
      [|destruct (String.eqb_spec (opcode cell) "multiply") as [Ho|_];
        [|destruct (String.eqb_spec (opcode cell) "divide") as [Ho|_]; [|done]]]];
    intros [= <-]; rewrite Ho; (split; [done|]);
    (split; [by auto 6|]); repeat split; by eexists.
Qed.

Lemma hr_ir_create_inverse_involutive_witness :
  is_reversible (hr_ir_create_cell "add" ["5"; "3"]%string) = true /\
  ((opcode (hr_ir_create_cell "add" ["5"; "3"]%string) = "add"%string /\
    opcode (hr_ir_create_cell "subtract" ["5"; "3"]%string) = "subtract"%string) \/
   (opcode (hr_ir_create_cell "add" ["5"; "3"]%string) = "subtract"%string /\
    opcode (hr_ir_create_cell "subtract" ["5"; "3"]%string) = "add"%string) \/
   (opcode (hr_ir_create_cell "add" ["5"; "3"]%string) = "multiply"%string /\
    opcode (hr_ir_create_cell "subtract" ["5"; "3"]%string) = "divide"%string) \/
   (opcode (hr_ir_create_cell "add" ["5"; "3"]%string) = "divide"%string /\
    opcode (hr_ir_create_cell "subtract" ["5"; "3"]%string) = "multiply"%string)) /\
  args (hr_ir_create_cell "subtract" ["5"; "3"]%string)
  = args (hr_ir_create_cell "add" ["5"; "3"]%string) /\
  is_reversible (hr_ir_create_cell "subtract" ["5"; "3"]%string) = true /\
  executed (hr_ir_create_cell "subtract" ["5"; "3"]%string) = false /\
  exists back,
    hr_ir_create_inverse (hr_ir_create_cell "subtract" ["5"; "3"]%string)
    = Some back /\
    opcode back = opcode (hr_ir_create_cell "add" ["5"; "3"]%string) /\
    args back = args (hr_ir_create_cell "add" ["5"; "3"]%string).
Proof.
  apply (hr_ir_create_inverse_involutive
           (hr_ir_create_cell "add" ["5"; "3"]%string)
           (hr_ir_create_cell "subtract" ["5"; "3"]%string)).
  reflexivity.
Defined.

(** *** Statistics *)

Lemma count_cells_spec (l : list HRIR_Cell) (st : HRIR_Stats) :
  r_term_cells st + d_term_cells st + N.of_nat (length l) < SIZE_MOD ->
  executed_cells st + N.of_nat (length l) < SIZE_MOD ->
  total_cells (fold_left count_cell l st) = total_cells st /\
  r_term_cells (fold_left count_cell l st)
  = r_term_cells st + N.of_nat (length (filter (fun c => is_reversible c = true) l)) /\
  d_term_cells (fold_left count_cell l st)
  = d_term_cells st + N.of_nat (length (filter (fun c => is_reversible c = false) l)) /\
  executed_cells (fold_left count_cell l st)
  = executed_cells st + N.of_nat (length (filter (fun c => executed c = true) l)).
Proof.
  revert st. induction l as [|c l IH]; intros st Hrd He.
  - simpl. repeat split; lia.
  - cbn [fold_left length] in *.
    destruct (IH (count_cell st c)) as (Ht & Hr & Hd & Hx).
    + unfold count_cell. destruct (is_reversible c), (executed c); simpl;
        rewrite ?N.mod_small by lia; lia.
    + unfold count_cell. destruct (is_reversible c), (executed c); simpl;
        rewrite ?N.mod_small by lia; lia.
    + rewrite Ht, Hr, Hd, Hx. rewrite !filter_cons.
      unfold count_cell. destruct (is_reversible c), (executed c); simpl;
        rewrite ?N.mod_small by lia;
        repeat (destruct (decide _) as [?|?]; try done); simpl; repeat split; lia.
Qed.

(** X12.  The statistics of a program split its cells into reversible
    and dissipative ones: the two counts add up to the number of cells,
    which is the total reported, and the count of executed cells is the
    number of cells whose [executed] flag is set. *)
Theorem hr_ir_get_stats_partition (p : HRIR_Program) :
  cell_count p < SIZE_MOD ->
  total_cells (hr_ir_get_stats p) = cell_count p /\
  r_term_cells (hr_ir_get_stats p) + d_term_cells (hr_ir_get_stats p)
  = cell_count p /\
  r_term_cells (hr_ir_get_stats p)
  = N.of_nat (length (filter (fun c => is_reversible c = true) (cells p))) /\
  executed_cells (hr_ir_get_stats p)
  = N.of_nat (length (filter (fun c => executed c = true) (cells p))) /\
  executed_cells (hr_ir_get_stats p) <= cell_count p.
Proof.
  intros Hn. unfold hr_ir_get_stats.
  destruct (count_cells_spec (cells p) (mkStats (cell_count p) 0 0 0 0))
    as (Ht & Hr & Hd & Hx); [done..|].
  rewrite Ht, Hr, Hd, Hx. cbn [total_cells r_term_cells d_term_cells executed_cells].
  pose proof (length_filter (fun c => executed c = true) (cells p)) as Hle.
  assert (length (filter (fun c => is_reversible c = true) (cells p))
          + length (filter (fun c => is_reversible c = false) (cells p))
          = length (cells p))%nat as Hsplit.
  { clear. induction (cells p) as [|c l IH]; [done|]. rewrite !filter_cons.
    destruct (is_reversible c);
      repeat (destruct (decide _) as [?|?]; try done); simpl; lia. }
  unfold cell_count in *. repeat split; lia.
Qed.

Lemma hr_ir_get_stats_partition_witness :
  total_cells (hr_ir_get_stats add_print) = cell_count add_print /\
  r_term_cells (hr_ir_get_stats add_print) + d_term_cells (hr_ir_get_stats add_print)
  = cell_count add_print /\
  r_term_cells (hr_ir_get_stats add_print)
  = N.of_nat (length (filter (fun c => is_reversible c = true) (cells add_print))) /\
  executed_cells (hr_ir_get_stats add_print)
  = N.of_nat (length (filter (fun c => executed c = true) (cells add_print))) /\
  executed_cells (hr_ir_get_stats add_print) <= cell_count add_print.
Proof. apply (hr_ir_get_stats_partition add_print). reflexivity. Defined.

End ProgramBuilding.

(** ** Validation of HRIR programs *)

Section Validation.
Import LibC HRIR Checker.

(** What [validate_hrir_consistency] asks of the cell at index [i]:
    arguments, an inverse when it is reversible, and an identifier no
    other cell carries. *)
Definition cell_sound (p : HRIR_Program) (i : nat) (c : HRIR_Cell) : Prop :=
  args c <> [] /\
  (is_reversible c = true -> is_Some (inverse c)) /\
  forall j c', cells p !! j = Some c' -> j <> i -> id c' <> id c.

Lemma duplicate_id_spec p i cell :
  duplicate_id p i cell = true <->
  exists j c', cells p !! j = Some c' /\ j <> i /\ id c' = id cell.
Proof.
  unfold duplicate_id. rewrite existsb_exists. split.
  - intros ([j c'] & Hin & Hb). apply list_elem_of_In, elem_of_lookup_imap in Hin.
    destruct Hin as (j' & y & [= -> ->] & Hy).
    apply andb_true_iff in Hb as [Hne Heq]. simpl in *.
    exists j', y. split; [done|]. split.
    + intros ->. by rewrite Nat.eqb_refl in Hne.
    + symmetry. by apply N.eqb_eq.
  - intros (j & c' & Hc' & Hne & Hid). exists (j, c'). split.
    + apply list_elem_of_In, elem_of_lookup_imap. by exists j, c'.
    + simpl. apply andb_true_iff. split.
      * apply negb_true_iff. by apply Nat.eqb_neq.
      * apply N.eqb_eq. by symmetry.
Qed.

Lemma validate_loop_spec n i p res :
  (N.to_nat i + n = length (cells p))%nat -> is_consistent res = true ->
  (is_consistent (validate_loop n i p res) = true <->
   forall k c, (N.to_nat i <= k)%nat -> cells p !! k = Some c -> cell_sound p k c) /\
  (is_consistent (validate_loop n i p res) = true ->
   validate_loop n i p res
   = mkResult true (error_message res) (operations_checked res + N.of_nat n)
              (side_effects_verified res)).
Proof.
  revert i res. induction n as [|n IH]; intros i res Hn Hres.
  - simpl. split.
    + split; [|done]. intros _ k c Hk Hc. apply lookup_lt_Some in Hc. lia.
    + intros _. destruct res as [b e o v]. simpl in *. subst b.
      by rewrite N.add_0_r.
  - cbn [validate_loop].
    destruct (lookup_lt_is_Some_2 (cells p) (N.to_nat i)) as [cell Hcell]; [lia|].
    assert (hr_ir_get_cell p i = Some cell) as ->.
    { unfold hr_ir_get_cell, cell_count.
      by destruct (N.leb_spec (N.of_nat (length (cells p))) i); [lia|]. }
    assert (forall msg,
               is_consistent (fail msg (count_operation res)) = true <-> False)
      as Hfail by done.
    destruct (args cell) as [|a ar] eqn:Hargs.
    { split; [|done]. rewrite Hfail. split; [done|]. intros Hall.
      destruct (Hall _ _ (Nat.le_refl _) Hcell) as (Ha & _). by rewrite Hargs in Ha. }
    destruct (is_reversible cell && negb (bool_decide (is_Some (inverse cell))))
      eqn:Hinv.
    { split; [|done]. rewrite Hfail. split; [done|]. intros Hall.
      destruct (Hall _ _ (Nat.le_refl _) Hcell) as (_ & Hi & _).
      apply andb_true_iff in Hinv as [Hr Hno]. apply negb_true_iff in Hno.
      apply bool_decide_eq_false in Hno. by apply Hno, Hi. }
    destruct (duplicate_id p (N.to_nat i) cell) eqn:Hdup.
    { split; [|done]. rewrite Hfail. split; [done|]. intros Hall.
      destruct (Hall _ _ (Nat.le_refl _) Hcell) as (_ & _ & Hu).
      apply duplicate_id_spec in Hdup as (j & c' & Hc' & Hne & Hid).
      by apply (Hu j c'). }
    assert (cell_sound p (N.to_nat i) cell) as Hsound.
    { split; [by rewrite Hargs|]. split.
      - intros Hr. rewrite Hr in Hinv. simpl in Hinv.
        apply negb_false_iff in Hinv. by apply bool_decide_eq_true in Hinv.
      - intros j c' Hc' Hne Hid.
        assert (duplicate_id p (N.to_nat i) cell = true); [|congruence].
        apply duplicate_id_spec. by exists j, c'. }
    destruct (IH (i + 1) (count_operation res)) as [Hiff Hval]; [lia|done|].
    split.
    + rewrite Hiff. split.
      * intros Hall k c Hk Hc.
        destruct (decide (k = N.to_nat i)) as [->|Hne].
        -- rewrite Hcell in Hc. by injection Hc as <-.
        -- apply Hall; [lia|done].
      * intros Hall k c Hk Hc. apply Hall; [lia|done].
    + intros Hc. rewrite (Hval Hc). simpl. f_equal. lia.
Qed.

Lemma total_cells_count (l : list HRIR_Cell) (st : HRIR_Stats) :
  total_cells (fold_left count_cell l st) = total_cells st.
Proof. revert st. induction l as [|c l IH]; intros st; [done|]. simpl. by rewrite IH. Qed.

Lemma validate_spec p :
  (is_consistent (validate_hrir_consistency (Some p)) = true <->
   forall i c, cells p !! i = Some c -> cell_sound p i c) /\
  (is_consistent (validate_hrir_consistency (Some p)) = true ->
   validate_hrir_consistency (Some p) = mkResult true None (cell_count p) 0).
Proof.
  unfold validate_hrir_consistency, hr_ir_get_stats.
  rewrite total_cells_count. cbn [total_cells]. rewrite N.eqb_refl, andb_false_r.
  destruct (validate_loop_spec (N.to_nat (cell_count p)) 0 p (mkResult true None 0 0))
    as [Hiff Hval]; [unfold cell_count; lia|done|].
  split.
  - rewrite Hiff. split; intros Hall; [intros i c; apply Hall; simpl; lia|].
    intros k c _. apply Hall.
  - intros Hc. rewrite (Hval Hc). simpl. by rewrite N2Nat.id.
Qed.

(** X13.  [validate_hrir_consistency] accepts a program exactly when
    every cell has arguments, every reversible cell has an inverse and no
    two cells share an identifier; it then reports every cell as checked
    and no error. *)
Theorem validate_hrir_consistency_iff (p : HRIR_Program) :
  (is_consistent (validate_hrir_consistency (Some p)) = true <->
   forall i c, cells p !! i = Some c -> cell_sound p i c) /\
  (is_consistent (validate_hrir_consistency (Some p)) = true ->
   validate_hrir_consistency (Some p) = mkResult true None (cell_count p) 0).
Proof. apply validate_spec. Qed.

(** A cell the validation accepts once it is in a program: it has
    arguments and, when reversible, an inverse or one of the four opcodes
    for which [hr_ir_add_cell] builds one. *)
Definition accepted (c : HRIR_Cell) : Prop :=
  args c <> [] /\
  (is_reversible c = true ->
   is_Some (inverse c) \/
   opcode c = "add"%string \/ opcode c = "subtract"%string \/
   opcode c = "multiply"%string \/ opcode c = "divide"%string).

(** X14.  A new program to which fewer than [2^32 - 1] accepted cells
    were added passes the validation. *)
Theorem validate_accepts_added_cells (name : option string) (cs : list HRIR_Cell) :
  N.of_nat (length cs) < 2 ^ 32 - 1 -> Forall accepted cs ->
  validate_hrir_consistency (Some (add_cells cs (hr_ir_create_program name)))
  = mkResult true None (N.of_nat (length cs)) 0.
Proof.
  intros Hn Hacc.
  destruct (add_cells_spec cs (hr_ir_create_program name)) as (Hc & _ & _);
    [simpl; lia|].
  cbn [hr_ir_create_program cells app next_id] in Hc.
  destruct (validate_spec (add_cells cs (hr_ir_create_program name))) as [Hiff Hval].
  rewrite Hval.
  - unfold cell_count. by rewrite Hc, length_imap.
  - apply Hiff. intros i c. rewrite Hc, list_lookup_imap.
    destruct (cs !! i) as [c0|] eqn:Hc0; [|done]. intros [= <-].
    destruct (proj1 (Forall_lookup _ _) Hacc i c0 Hc0) as [Hargs Hinv].
    destruct (stored_fields (1 + N.of_nat i) c0) as (Hid & Hop & Har & Hrev & _ & Hi).
    split; [by rewrite Har|]. split.
    + rewrite Hrev, Hi. intros Hr. rewrite Hr.
      destruct (inverse c0) as [inv|] eqn:Hinv0; [done|].
      destruct (Hinv Hr) as [Hsome|Hops]; [by destruct Hsome|].
      unfold hr_ir_create_inverse, streq.
      rewrite Hr. cbn [negb].
      destruct Hops as [-> | [-> | [-> | ->]]]; by eexists.
    + intros j c'. rewrite Hc, list_lookup_imap.
      destruct (cs !! j) as [c1|]; [|done]. intros [= <-] Hne.
      rewrite Hid. destruct (stored_fields (1 + N.of_nat j) c1) as (Hid' & _).
      rewrite Hid'. lia.
Qed.

Lemma validate_accepts_added_cells_witness :
  validate_hrir_consistency
    (Some (add_cells [hr_ir_create_cell "add" ["5"; "3"]%string;
                      hr_ir_from_d_term_operation "print" ["x"]%string]
                     (hr_ir_create_program None)))
  = mkResult true None
      (N.of_nat (length [hr_ir_create_cell "add" ["5"; "3"]%string;
                         hr_ir_from_d_term_operation "print" ["x"]%string])) 0.
Proof.
  apply (validate_accepts_added_cells None
           [hr_ir_create_cell "add" ["5"; "3"]%string;
            hr_ir_from_d_term_operation "print" ["x"]%string]).
  - reflexivity.
  - apply List.Forall_cons; [|apply List.Forall_cons; [|apply List.Forall_nil]].
    + split; [done|]. intros _. right. by left.
    + split; [done|]. intros Hr. discriminate Hr.
Defined.

Lemma validate_rejects_last p c :
  ~ cell_sound (snd (hr_ir_add_cell p c)) (length (cells p))
      (stored (next_id p) c) ->
  is_consistent (validate_hrir_consistency (Some (snd (hr_ir_add_cell p c)))) = false.
Proof.
  intros Hbad. apply not_true_is_false. intros Hc. apply Hbad.
  apply (proj1 (proj1 (validate_spec _)) Hc).
  simpl. by rewrite lookup_app_r, Nat.sub_diag by done.
Qed.

(** X15.  Two kinds of cells the API itself builds make the validation
    fail once they are added to a program, whatever the program: a cell
    created without arguments, and the reversible [print] cell that
    [hr_ir_from_send_operation] builds for the selector [output], for
    which no inverse exists. *)
Theorem validate_rejects_api_cells (p : HRIR_Program) (op target : string)
    (arguments : list string) :
  is_consistent
    (validate_hrir_consistency
       (Some (snd (hr_ir_add_cell p (hr_ir_create_cell op []))))) = false /\
  exists c,
    hr_ir_from_send_operation target "output" arguments = Some c /\
    is_consistent
      (validate_hrir_consistency (Some (snd (hr_ir_add_cell p c)))) = false.
Proof.
  split.
  - apply validate_rejects_last. by intros [Ha _].
  - eexists. split; [reflexivity|].
    apply validate_rejects_last. intros (_ & Hi & _).
    by destruct (Hi eq_refl).
Qed.

(** X16.  [run_consistency_suite] answers 0 exactly when the program
    given passes [validate_hrir_consistency]: its two other tests, on an
    empty program and on the program of an [add] and a [multiply] cell,
    always pass. *)
Theorem run_consistency_suite_result (program : option HRIR_Program) :
  (run_consistency_suite program = 0%Z <->
   is_consistent (validate_hrir_consistency program) = true) /\
  (run_consistency_suite program = 0%Z \/ run_consistency_suite program = 1%Z).
Proof.
  unfold run_consistency_suite.
  assert (is_consistent
            (validate_hrir_consistency
               (Some (hr_ir_create_program (Some "empty_test"%string)))) = true)
    as -> by reflexivity.
  assert (is_consistent
            (validate_hrir_consistency
               (Some (snd (hr_ir_add_cell
                             (snd (hr_ir_add_cell
                                     (hr_ir_create_program (Some "r_term_test"%string))
                                     (hr_ir_create_cell "add" ["5"; "3"]%string)))
                             (hr_ir_create_cell "multiply" ["result"; "2"]%string)))))
          = true) as -> by reflexivity.
  destruct (is_consistent (validate_hrir_consistency program)); simpl;
    split; (split || auto); done.
Qed.

(** *** The behavioural check on a program not yet run *)

(** The [k]-th irreversible cell meets the [k]-th expectation: the check
    fails when the two name the same operation and the expectation is a
    failure, the step itself never failing. *)
Fixpoint aligned_ok (sh : list (string * bool)) (effects : list ExpectedSideEffect)
  : bool :=
  match sh with
  | [] => true
  | (_, true) :: sh' => aligned_ok sh' effects
  | (op, false) :: sh' =>
      match effects with
      | [] => true
      | e :: effects' =>
          (negb (streq op (operation e)) || should_succeed e)
          && aligned_ok sh' effects'
      end
  end.

Lemma aligned_ok_nil sh : aligned_ok sh [] = true.
Proof. induction sh as [|[op []] sh IH]; done. Qed.

Lemma check_loop_fresh (sh : list (string * bool))
    (effects : list ExpectedSideEffect) (n : nat) (i : N) rt ei res :
  map shape (cells (program rt)) = sh ->
  pc (program rt) = i -> (N.to_nat i + n = length sh)%nat ->
  is_consistent res = true ->
  is_consistent (fst (check_loop n i rt effects ei res))
  = aligned_ok (drop (N.to_nat i) sh) (drop (N.to_nat ei) effects) /\
  (is_consistent (fst (check_loop n i rt effects ei res)) = true ->
   pc (program (snd (check_loop n i rt effects ei res))) = N.of_nat (length sh) /\
   map shape (cells (program (snd (check_loop n i rt effects ei res)))) = sh /\
   operations_checked (fst (check_loop n i rt effects ei res))
   = operations_checked res + N.of_nat n /\
   error_message (fst (check_loop n i rt effects ei res)) = error_message res).
Proof.
  revert i rt ei res. induction n as [|n IH]; intros i rt ei res Hsh Hpc Hn Hres.
  - simpl. rewrite drop_ge by lia. split; [done|]. intros _.
    repeat split; [lia|done|lia].
  - cbn [check_loop].
    destruct (lookup_lt_is_Some_2 sh (N.to_nat i)) as [[op rv] Hi]; [lia|].
    assert (cell_count (program rt) = N.of_nat (length sh)) as Hcount.
    { unfold cell_count. by rewrite <- Hsh, length_map. }
    rewrite <- Hsh in Hi.
    destruct (get_cell_shape (program rt) (N.to_nat i) op rv Hi) as (cell & Hg & Hop & Hrv).
    rewrite N2Nat.id in Hg. rewrite Hg. rewrite Hsh in Hi.
    rewrite (drop_S _ _ _ Hi).
    destruct (step_below rt) as (rt1 & Hs1 & Hpc1 & Hsh1); [lia|].
    rewrite Hs1, Hrv.
    assert (forall rt' res', map shape (cells (program rt')) = sh ->
              pc (program rt') = i + 1 -> is_consistent res' = true ->
              operations_checked res' = operations_checked res + 1 ->
              error_message res' = error_message res ->
              forall ei',
              is_consistent (fst (check_loop n (i + 1) rt' effects ei' res'))
              = aligned_ok (drop (S (N.to_nat i)) sh) (drop (N.to_nat ei') effects) /\
              (is_consistent (fst (check_loop n (i + 1) rt' effects ei' res')) = true ->
               pc (program (snd (check_loop n (i + 1) rt' effects ei' res')))
               = N.of_nat (length sh) /\
               map shape (cells (program (snd (check_loop n (i + 1) rt' effects ei' res'))))
               = sh /\
               operations_checked (fst (check_loop n (i + 1) rt' effects ei' res'))
               = operations_checked res + N.of_nat (S n) /\
               error_message (fst (check_loop n (i + 1) rt' effects ei' res'))
               = error_message res)) as Hnext.
    { intros rt' res' Hsh' Hpc' Hres' Hops Herr ei'.
      destruct (IH (i + 1) rt' ei' res' Hsh' Hpc') as [Hc Hrest]; [lia|done|].
      replace (N.to_nat (i + 1)) with (S (N.to_nat i)) in Hc by lia.
      split; [done|]. intros Hcons. destruct (Hrest Hcons) as (? & ? & ? & ?).
      repeat split; [done..|lia|congruence]. }
    destruct rv.
    + cbn [negb aligned_ok].
      destruct (undo_above rt1) as (rt2 & Hs2 & Hpc2 & Hsh2); [lia|].
      rewrite Hs2. cbn [negb].
      destruct (step_below rt2) as (rt3 & Hs3 & Hpc3 & Hsh3).
      { rewrite (cell_count_shape (program rt) (program rt2)) by congruence. lia. }
      rewrite Hs3. cbn [negb].
      apply Hnext; [congruence|lia|done|done|done].
    + destruct (N.ltb_spec ei (N.of_nat (length effects))) as [Hlt|Hge].
      * destruct (lookup_lt_is_Some_2 effects (N.to_nat ei)) as [e He]; [lia|].
        rewrite He, (drop_S _ _ _ He), Hop. cbn [aligned_ok].
        replace (S (N.to_nat ei)) with (N.to_nat (ei + 1)) by lia.
        destruct (streq op (operation e)) eqn:Hmatch.
        -- cbn [negb orb]. destruct (should_succeed e) eqn:Hok.
           ++ cbn [eqb negb andb].
              apply Hnext; [congruence|lia|done|done|done].
           ++ cbn [eqb negb andb fst]. split; [done|]. done.
        -- cbn [negb orb andb].
           apply Hnext; [congruence|lia|done|done|done].
      * rewrite (drop_ge effects) by lia. cbn [aligned_ok].
        destruct (Hnext rt1 (count_operation res)) with (ei' := ei)
          as [Hc Hrest]; [congruence|lia|done|done|done|].
        rewrite (drop_ge effects) in Hc by lia. rewrite aligned_ok_nil in Hc.
        split; [by rewrite Hc|done].
Qed.

(** X17.  On a program whose counter is at 0, the behavioural check
    passes exactly when no irreversible cell meets, at its rank among the
    irreversible cells, an expectation that names its operation and
    announces a failure: reversible cells, cells beyond the expectations
    and expectations naming another operation never fail it.  A check
    that passes has looked at every cell and leaves the program run to
    its end. *)
Theorem check_l1_l0_consistency_fresh (p : HRIR_Program)
    (effects : list ExpectedSideEffect) :
  pc p = 0 ->
  is_consistent (fst (check_l1_l0_consistency (Some p) (Some effects)))
  = aligned_ok (map shape (cells p)) effects /\
  (is_consistent (fst (check_l1_l0_consistency (Some p) (Some effects))) = true ->
   operations_checked (fst (check_l1_l0_consistency (Some p) (Some effects)))
   = cell_count p /\
   error_message (fst (check_l1_l0_consistency (Some p) (Some effects))) = None /\
   exists p', snd (check_l1_l0_consistency (Some p) (Some effects)) = Some p' /\
              pc p' = cell_count p).
Proof.
  intros Hpc. unfold check_l1_l0_consistency.
  destruct (check_loop_fresh (map shape (cells p)) effects
              (N.to_nat (cell_count p)) 0 (hr_ir_create_runtime p) 0
              (mkResult true None 0 0)) as [Hc Hrest];
    [done|done|unfold cell_count; rewrite length_map; lia|done|].
  destruct (check_loop _ _ _ _ _ _) as [res rt] eqn:Hloop. cbn [fst snd] in *.
  simpl in Hc. destruct (is_consistent res) eqn:Hres.
  - destruct (Hrest eq_refl) as (Hpcend & Hsh & Hops & Herr).
    assert (hr_ir_is_complete rt = true) as ->.
    { unfold hr_ir_is_complete.
      rewrite (cell_count_shape p (program rt) Hsh), Hpcend.
      unfold cell_count. rewrite length_map. by apply N.leb_le. }
    cbn [negb fst snd]. rewrite Hres. split; [done|]. intros _.
    rewrite length_map in Hpcend. cbn [operations_checked] in Hops.
    unfold cell_count in *.
    split; [lia|]. split; [done|]. by exists (program rt).
  - cbn [fst]. by rewrite Hres.
Qed.

Lemma check_l1_l0_consistency_fresh_witness :
  is_consistent (fst (check_l1_l0_consistency (Some add_print)
                        (Some [mkEffect "print" ["x"]%string false])))
  = aligned_ok (map shape (cells add_print)) [mkEffect "print" ["x"]%string false] /\
  (is_consistent (fst (check_l1_l0_consistency (Some add_print)
                         (Some [mkEffect "print" ["x"]%string false]))) = true ->
   operations_checked (fst (check_l1_l0_consistency (Some add_print)
                              (Some [mkEffect "print" ["x"]%string false])))
   = cell_count add_print /\
   error_message (fst (check_l1_l0_consistency (Some add_print)
                         (Some [mkEffect "print" ["x"]%string false]))) = None /\
   exists p', snd (check_l1_l0_consistency (Some add_print)
                     (Some [mkEffect "print" ["x"]%string false])) = Some p' /\
              pc p' = cell_count add_print).
Proof.
  apply (check_l1_l0_consistency_fresh add_print
           [mkEffect "print" ["x"]%string false]).
  reflexivity.
Defined.

End Validation.

(** ** Actor state, strings and queues of the L3 runtime *)

Section ActorState.
Import LibC L3.

Lemma state_get_set (st : L3_ActorState) (key value query : string) :
  l3_state_get (l3_state_set st key value) query
  = if String.eqb query key then Some value else l3_state_get st query.
Proof.
  unfold streq. induction st as [|[k v] st IH]; simpl.
  - unfold streq. rewrite (String.eqb_sym key query).
    by destruct (String.eqb query key).
  - unfold streq. destruct (String.eqb_spec k key) as [->|Hk]; simpl; unfold streq.
    + rewrite (String.eqb_sym key query). by destruct (String.eqb query key).
    + rewrite IH. destruct (String.eqb_spec k query) as [->|Hq]; [|done].
      by destruct (String.eqb_spec query key).
Qed.

Lemma state_set_keys (st : L3_ActorState) (key value : string) :
  map fst (l3_state_set st key value)
  = map fst st ++ match l3_state_get st key with Some _ => [] | None => [key] end.
Proof.
  induction st as [|[k v] st IH]; simpl; [done|].
  unfold streq. destruct (String.eqb_spec k key) as [->|Hk]; simpl.
  - by rewrite app_nil_r.
  - by rewrite IH.
Qed.

Lemma state_get_None (st : L3_ActorState) (key : string) :
  l3_state_get st key = None <-> key ∉ map fst st.
Proof.
  induction st as [|[k v] st IH]; simpl.
  - split; [intros _; apply not_elem_of_nil|done].
  - unfold streq. rewrite not_elem_of_cons.
    destruct (String.eqb_spec k key) as [->|Hk]; [split; [done|by intros []]|].
    rewrite IH. split; [by split|by intros []].
Qed.

(** X18.  Reading a key after [l3_state_set] gives the value just set for
    that key and what was there before for any other key.  The keys keep
    their order: an existing key is updated in place, a new key is added
    at the end, so that keys stay without duplicates. *)
Theorem l3_state_set_then_get (st : L3_ActorState) (key value query : string) :
  l3_state_get (l3_state_set st key value) query
  = (if String.eqb query key then Some value else l3_state_get st query) /\
  map fst (l3_state_set st key value)
  = map fst st ++ match l3_state_get st key with Some _ => [] | None => [key] end /\
  (NoDup (map fst st) -> NoDup (map fst (l3_state_set st key value))).
Proof.
  split; [apply state_get_set|]. split; [apply state_set_keys|].
  intros Hnd. rewrite state_set_keys.
  destruct (l3_state_get st key) eqn:Hg; [by rewrite app_nil_r|].
  apply NoDup_app. split; [done|]. split; [|apply NoDup_singleton].
  intros x Hx ->%list_elem_of_singleton. by apply state_get_None in Hg.
Qed.

(** The copy loop of [l3_spawn_actor] on a state without duplicate keys
    rebuilds the state. *)
Lemma state_copy (st acc : L3_ActorState) :
  NoDup (map fst (acc ++ st)) ->
  fold_left (fun s kv => l3_state_set s (fst kv) (snd kv)) st acc = acc ++ st.
Proof.
  revert acc. induction st as [|[k v] st IH]; intros acc Hnd; simpl.
  - by rewrite app_nil_r.
  - assert (l3_state_set acc k v = acc ++ [(k, v)]) as ->.
    { rewrite map_app in Hnd. apply NoDup_app in Hnd as (_ & Hdisj & _).
      assert (k ∉ map fst acc) as Hk.
      { intros Hin. apply (Hdisj k Hin). simpl. apply list_elem_of_here. }
      clear -Hk. induction acc as [|[k' v'] acc IH]; simpl; [done|].
      apply not_elem_of_cons in Hk as [Hne Hk]. unfold streq.
      destruct (String.eqb_spec k' k) as [->|_]; [done|]. by rewrite IH. }
    rewrite IH; [by rewrite <- app_assoc|]. by rewrite <- app_assoc.
Qed.

End ActorState.

Section Strings.
Import LibC L3.

Lemma drop_trailing_space_idem (s : string) :
  drop_trailing_space (drop_trailing_space s) = drop_trailing_space s.
Proof.
  induction s as [|c s IH]; simpl; [done|].
  destruct (drop_trailing_space s) as [|d t] eqn:Ht.
  - destruct (isspace c) eqn:Hc; simpl; [done|]. by rewrite Hc.
  - simpl. simpl in IH. by rewrite IH.
Qed.

Lemma skip_space_head (s : string) (c : ascii) (t : string) :
  skip_space s = String c t -> isspace c = false.
Proof.
  induction s as [|d s IH]; simpl; [done|].
  destruct (isspace d) eqn:Hd; [done|]. by intros [= <- _].
Qed.

(** The last character of a string, NUL for the empty string. *)
Fixpoint last_char (s : string) : ascii :=
  match s with
  | EmptyString => Ascii.zero
  | String c EmptyString => c
  | String _ s' => last_char s'
  end.

Lemma drop_trailing_space_last (s : string) :
  drop_trailing_space s = EmptyString \/
  isspace (last_char (drop_trailing_space s)) = false.
Proof.
  induction s as [|c s IH]; simpl; [by left|].
  destruct (drop_trailing_space s) as [|d t] eqn:Ht.
  - destruct (isspace c) eqn:Hc; [by left|by right].
  - right. destruct IH as [|IH]; [done|]. done.
Qed.

(** X19.  [l3_trim] removes the white space around a text: the result is
    empty or starts and ends with a character that is no white space, and
    trimming it again changes nothing. *)
Theorem l3_trim_idempotent (str : string) :
  l3_trim (l3_trim str) = l3_trim str /\
  (l3_trim str = EmptyString \/
   isspace (char_at (l3_trim str) 0) = false /\
   isspace (last_char (l3_trim str)) = false).
Proof.
  unfold l3_trim. destruct (skip_space str) as [|c t] eqn:Hs; [split; [done|by left]|].
  pose proof (skip_space_head _ _ _ Hs) as Hc. split.
  - simpl. rewrite Hc. by rewrite drop_trailing_space_idem.
  - right. split; [done|].
    destruct (drop_trailing_space_last t) as [->|Hl]; [done|].
    simpl. by destruct (drop_trailing_space t).
Qed.

Lemma length_string_take n s :
  String.length (string_take n s) = Nat.min n (String.length s).
Proof.
  revert s. induction n as [|n IH]; intros [|c s]; simpl; try done.
  by rewrite IH.
Qed.

Lemma length_string_drop n s :
  String.length (string_drop n s) = (String.length s - n)%nat.
Proof.
  revert s. induction n as [|n IH]; intros [|c s]; simpl; try done; lia.
Qed.

Lemma string_take_all n s : (String.length s <= n)%nat -> string_take n s = s.
Proof.
  revert s. induction n as [|n IH]; intros [|c s]; simpl; try done; [lia|].
  intros Hn. rewrite IH; [done|lia].
Qed.

(** X20.  [l3_substring] never reads past the end of the text: for a start
    inside the text it yields [len] characters, or what is left of the
    text when fewer remain; a start at or after the end yields the empty
    text; and from 0 with the whole length it yields the text itself. *)
Theorem l3_substring_length (str : string) (start len : N) :
  start + len < SIZE_MOD ->
  strlen (l3_substring str start len)
  = (if strlen str <=? start then 0 else N.min len (strlen str - start)) /\
  l3_substring str 0 (strlen str) = str.
Proof.
  intros Hno. unfold l3_substring, strlen. split.
  - destruct (N.leb_spec (N.of_nat (String.length str)) start); [done|].
    rewrite N.mod_small by done.
    destruct (N.ltb_spec (N.of_nat (String.length str)) (start + len));
      rewrite length_string_take, length_string_drop; lia.
  - destruct str as [|c s]; [done|].
    destruct (N.leb_spec (N.of_nat (String.length (String c s))) 0);
      [simpl in *; lia|].
    rewrite N.add_0_l.
    destruct (N.ltb_spec (N.of_nat (String.length (String c s)))
                (N.of_nat (String.length (String c s)) mod SIZE_MOD)).
    + rewrite N.sub_0_r. apply string_take_all. simpl. lia.
    + apply string_take_all. simpl. lia.
Qed.

Lemma l3_substring_length_witness :
  strlen (l3_substring "state.count" 6 100)
  = (if strlen "state.count" <=? 6 then 0
     else N.min 100 (strlen "state.count" - 6)) /\
  l3_substring "state.count" 0 (strlen "state.count") = "state.count"%string.
Proof. apply (l3_substring_length "state.count" 6 100). reflexivity. Defined.



End Strings.

(** ** Spawning, sending and ticking *)

Section Spawning.
Import LibC L3.
Context `{Platform}.

(** X22.  [l3_spawn_actor] returns the identifier it gives to the new
    actor and leaves the actors and mailboxes already there untouched.
    The new actor comes last, with the name, role and handlers of the
    definition, an empty mailbox and, the keys of the initial state being
    distinct, exactly the initial state. *)
Theorem l3_spawn_actor_copies_definition (rt : L3_ActorRuntime)
    (def : L3_ActorDefinition) :
  NoDup (map fst (initial_state def)) ->
  fst (l3_spawn_actor rt def) = next_actor_id rt /\
  actors (snd (l3_spawn_actor rt def))
  = actors rt ++ [mkActor (next_actor_id rt) (def_name def) (def_role def)
                          (initial_state def) (def_handlers def)] /\
  message_queues (snd (l3_spawn_actor rt def))
  = message_queues rt ++ [l3_queue_create] /\
  mailbox l3_queue_create = [].
Proof.
  intros Hnd. unfold l3_spawn_actor, l3_state_create.
  cbn [fst snd actors message_queues].
  by rewrite (state_copy (initial_state def) []).
Qed.

Lemma l3_spawn_actor_copies_definition_witness :
  fst (l3_spawn_actor l3_runtime_init
         (mkDefinition "Counter" "counts" [("count", "0"); ("step", "1")]%string []))
  = next_actor_id l3_runtime_init /\
  actors (snd (l3_spawn_actor l3_runtime_init
                 (mkDefinition "Counter" "counts"
                               [("count", "0"); ("step", "1")]%string [])))
  = actors l3_runtime_init
    ++ [mkActor (next_actor_id l3_runtime_init) "Counter" "counts"
                [("count", "0"); ("step", "1")]%string []] /\
  message_queues (snd (l3_spawn_actor l3_runtime_init
                         (mkDefinition "Counter" "counts"
                                       [("count", "0"); ("step", "1")]%string [])))
  = message_queues l3_runtime_init ++ [l3_queue_create] /\
  mailbox l3_queue_create = [].
Proof.
  apply (l3_spawn_actor_copies_definition l3_runtime_init
           (mkDefinition "Counter" "counts" [("count", "0"); ("step", "1")]%string [])).
  simpl. apply NoDup_cons. split; [|apply NoDup_singleton].
  intros Hin%list_elem_of_singleton. discriminate Hin.
Defined.

(** The definitions [defs] spawned one after the other. *)
Definition spawn_all (defs : list L3_ActorDefinition) (rt : L3_ActorRuntime)
  : L3_ActorRuntime :=
  fold_left (fun r d => snd (l3_spawn_actor r d)) defs rt.

Lemma spawn_all_spec defs rt :
  (0 <= next_actor_id rt)%Z ->
  (next_actor_id rt + Z.of_nat (length defs) < 2 ^ 31)%Z ->
  length (actors (spawn_all defs rt)) = (length (actors rt) + length defs)%nat /\
  message_queues (spawn_all defs rt)
  = message_queues rt ++ repeat l3_queue_create (length defs) /\
  (forall i a, actors rt !! i = Some a -> actors (spawn_all defs rt) !! i = Some a) /\
  forall i d, defs !! i = Some d ->
    exists a, actors (spawn_all defs rt) !! (length (actors rt) + i)%nat = Some a /\
              id a = (next_actor_id rt + Z.of_nat i)%Z /\
              name a = def_name d /\ role a = def_role d /\
              handlers a = def_handlers d.
Proof.
  revert rt. induction defs as [|d defs IH]; intros rt Hpos Hn.
  - simpl. rewrite app_nil_r. split; [lia|]. split; [done|]. split; [done|].
    intros i d Hd. by destruct i.
  - change (spawn_all (d :: defs) rt) with (spawn_all defs (snd (l3_spawn_actor rt d))).
    cbn [length] in Hn.
    assert (to_int (next_actor_id rt + 1) = (next_actor_id rt + 1)%Z) as Hid.
    { unfold to_int. rewrite Z.mod_small by lia. lia. }
    set (rt1 := snd (l3_spawn_actor rt d)).
    assert (exists a0, actors rt1 = actors rt ++ [a0] /\
              id a0 = next_actor_id rt /\ name a0 = def_name d /\
              role a0 = def_role d /\ handlers a0 = def_handlers d)
      as (a0 & Hacts & Hid0 & Hfields) by (eexists; split; [reflexivity|done]).
    assert (message_queues rt1 = message_queues rt ++ [l3_queue_create]) as Hqs
      by done.
    assert (next_actor_id rt1 = (next_actor_id rt + 1)%Z) as Hnext by exact Hid.
    destruct (IH rt1) as (Hlen & Hq & Hold & Hnew); [lia..|].
    rewrite Hacts, length_app in Hlen, Hnew. cbn [length] in Hlen, Hnew.
    split; [cbn [length]; lia|]. split.
    { rewrite Hq, Hqs, <- app_assoc. done. }
    split.
    { intros i a Ha. apply Hold. rewrite Hacts. by apply lookup_app_l_Some. }
    intros [|i] d' Hd'.
    + injection Hd' as <-. exists a0. split; [|split; [lia|done]].
      apply Hold. rewrite Hacts, Nat.add_0_r.
      by rewrite lookup_app_r, Nat.sub_diag by done.
    + destruct (Hnew i d' Hd') as (a & Ha & Hida & Hrest).
      exists a. split.
      * by replace (length (actors rt) + S i)%nat
          with (length (actors rt) + 1 + i)%nat by lia.
      * split; [|done]. rewrite Hida, Hnext. lia.
Qed.

Lemma find_actor_first (p : L3_Actor -> bool) (acts : list L3_Actor) (i : nat) a :
  acts !! i = Some a -> p a = true ->
  (forall j b, (j < i)%nat -> acts !! j = Some b -> p b = false) ->
  find_actor p acts = Some i.
Proof.
  revert i. induction acts as [|x acts IH]; intros i Hi Hp Hbefore; [done|].
  destruct i as [|i].
  - injection Hi as ->. simpl. by rewrite Hp.
  - simpl. rewrite (Hbefore O x) by (done || lia).
    rewrite (IH i); [done..|]. intros j b Hj Hb. apply (Hbefore (S j) b); [lia|done].
Qed.

(** X23.  Fewer than [2^31 - 1] actors spawned on a new runtime get the
    identifiers 1, 2, 3, ... in spawn order, and a message sent to the
    identifier of the [i]-th of them arrives, alone, in the mailbox at
    index [i].  Looking an actor up by name finds the identifier of the
    first actor spawned under that name. *)
Theorem l3_spawn_then_send (defs : list L3_ActorDefinition) (i : nat)
    (d : L3_ActorDefinition) (ev : string) (dat : option string) :
  (Z.of_nat (length defs) < 2 ^ 31 - 1)%Z ->
  defs !! i = Some d ->
  rt_wf (spawn_all defs l3_runtime_init) /\
  fst (l3_send_message (spawn_all defs l3_runtime_init) (Z.of_nat i + 1) ev dat)
  = true /\
  (forall j,
      mailbox_of (snd (l3_send_message (spawn_all defs l3_runtime_init)
                         (Z.of_nat i + 1) ev dat)) j
      = if decide (j = i) then [new_message ev dat] else []) /\
  ((forall j d', (j < i)%nat -> defs !! j = Some d' -> def_name d' <> def_name d) ->
   l3_get_actor_by_name (spawn_all defs l3_runtime_init) (def_name d)
   = (Z.of_nat i + 1)%Z).
Proof.
  intros Hn Hd.
  destruct (spawn_all_spec defs l3_runtime_init) as (Hlen & Hq & _ & Hnew);
    [done|simpl; lia|].
  cbn [l3_runtime_init actors message_queues next_actor_id length app Nat.add]
    in Hlen, Hq, Hnew.
  assert (rt_wf (spawn_all defs l3_runtime_init)) as Hwf.
  { split; [by rewrite Hq, repeat_length|]. rewrite Hq.
    apply Forall_forall. intros q Hin%list_elem_of_In%repeat_spec. subst q.
    apply queue_create_wf. }
  assert (forall j b, actors (spawn_all defs l3_runtime_init) !! j = Some b ->
            id b = (1 + Z.of_nat j)%Z /\
            exists d', defs !! j = Some d' /\ name b = def_name d') as Hids.
  { intros j b Hb. apply lookup_lt_Some in Hb as Hlt. rewrite Hlen in Hlt.
    destruct (lookup_lt_is_Some_2 defs j Hlt) as [d' Hd'].
    destruct (Hnew j d' Hd') as (a & Ha & Hida & Hna & _).
    rewrite Hb in Ha. injection Ha as <-. split; [done|]. by exists d'. }
  destruct (Hnew i d Hd) as (a & Ha & Hida & Hna & _).
  assert (find_actor (fun a0 => (id a0 =? Z.of_nat i + 1)%Z)
            (actors (spawn_all defs l3_runtime_init)) = Some i) as Hfind.
  { apply (find_actor_first _ _ i a); [done|apply Z.eqb_eq; lia|].
    intros j b Hj Hb. destruct (Hids j b Hb) as [Hidb _]. apply Z.eqb_neq. lia. }
  assert (forall j, mailbox_of (spawn_all defs l3_runtime_init) j = []) as Hempty.
  { intros j. unfold mailbox_of. rewrite Hq.
    destruct (repeat l3_queue_create (length defs) !! j) as [q|] eqn:Hj; [|done].
    apply list_elem_of_lookup_2, list_elem_of_In, repeat_spec in Hj. by subst q. }
  split; [done|]. split; [|split].
  - unfold l3_send_message. rewrite Hfind.
    apply lookup_lt_Some in Ha as Hlt. destruct Hwf as [Hl _]. rewrite <- Hl in Hlt.
    destruct (lookup_lt_is_Some_2 _ _ Hlt) as [q ->].
    unfold l3_queue_push. reflexivity.
  - intros j. rewrite (send_mailbox _ _ _ _ i j Hwf Hfind), Hempty. done.
  - intros Hfirst. unfold l3_get_actor_by_name.
    rewrite (find_actor_first _ _ i a); [by rewrite Ha, Hida; lia|done| |].
    + unfold streq. rewrite Hna. apply String.eqb_refl.
    + intros j b Hj Hb. destruct (Hids j b Hb) as (_ & d' & Hd' & Hnb).
      unfold streq. rewrite Hnb. apply String.eqb_neq. by apply (Hfirst j).
Qed.

End Spawning.

Section SpawningExamples.
Import LibC L3.

Definition ping_pong : list L3_ActorDefinition :=
  [mkDefinition "Ping" "worker" [] [mkHandler "go" "Pong -> hit"];
   mkDefinition "Pong" "worker" [] []]%string.

Lemma l3_spawn_then_send_witness :
  rt_wf (spawn_all ping_pong l3_runtime_init) /\
  fst (@l3_send_message bare_platform (spawn_all ping_pong l3_runtime_init)
         (Z.of_nat 1 + 1) "hit" None) = true /\
  (forall j,
      mailbox_of (snd (@l3_send_message bare_platform
                         (spawn_all ping_pong l3_runtime_init)
                         (Z.of_nat 1 + 1) "hit" None)) j
      = if decide (j = 1%nat) then [@new_message bare_platform "hit" None] else []) /\
  ((forall j d', (j < 1)%nat -> ping_pong !! j = Some d' ->
                 def_name d' <> def_name (mkDefinition "Pong" "worker" [] [])) ->
   l3_get_actor_by_name (spawn_all ping_pong l3_runtime_init)
     (def_name (mkDefinition "Pong" "worker" [] []))
   = (Z.of_nat 1 + 1)%Z).
Proof.
  apply (@l3_spawn_then_send bare_platform ping_pong 1
           (mkDefinition "Pong" "worker" [] []) "hit" None); reflexivity.
Defined.

End SpawningExamples.

Section Ticking.
Import LibC L3.
Context `{Platform}.

(** *** Queues *)

(** The events and data of [msgs] pushed one after the other. *)
Definition push_all (msgs : list (string * option string)) (q : L3_MessageQueue)
  : L3_MessageQueue :=
  fold_left (fun q m => snd (l3_queue_push q (fst m) (snd m))) msgs q.

(** [n] calls of [l3_queue_pop]: what they returned, in order, and the
    queue they leave. *)
Fixpoint pop_n (n : nat) (q : L3_MessageQueue)
  : list (option L3_Message) * L3_MessageQueue :=
  match n with
  | O => ([], q)
  | S n' =>
      let '(m, q') := l3_queue_pop q in
      let '(ms, q'') := pop_n n' q' in
      (m :: ms, q'')
  end.

Lemma push_all_mailbox msgs q :
  queue_wf q ->
  queue_wf (push_all msgs q) /\
  mailbox (push_all msgs q)
  = mailbox q ++ map (fun m => new_message (fst m) (snd m)) msgs.
Proof.
  revert q. induction msgs as [|[ev dat] msgs IH]; intros q Hwf.
  - simpl. by rewrite app_nil_r.
  - change (push_all ((ev, dat) :: msgs) q)
      with (push_all msgs (snd (l3_queue_push q ev dat))).
    destruct (push_mailbox q ev dat Hwf) as [Hwf1 Hm1].
    destruct (IH _ Hwf1) as [Hwf2 Hm2]. split; [done|].
    rewrite Hm2, Hm1, <- app_assoc. done.
Qed.

Lemma pop_n_mailbox n q :
  queue_wf q -> n = length (mailbox q) ->
  fst (pop_n n q) = map Some (mailbox q) /\
  count (snd (pop_n n q)) = 0 /\ queue_wf (snd (pop_n n q)).
Proof.
  revert q. induction n as [|n IH]; intros q Hwf Hn.
  - simpl. destruct (mailbox q) eqn:Hm; [|done]. split; [done|]. split; [|done].
    by apply mailbox_empty.
  - assert (0 < count q) as Hpos.
    { rewrite length_mailbox in Hn by done. lia. }
    destruct (pop_mailbox q Hwf Hpos) as (m & Hm & Hwf' & Hmail).
    cbn [pop_n]. destruct (l3_queue_pop q) as [m' q'] eqn:Hpop. cbn [fst snd] in *.
    subst m'. destruct (IH q' Hwf') as (Hms & Hc & Hwf'').
    { rewrite Hmail in Hn. simpl in Hn. lia. }
    destruct (pop_n n q') as [ms q'']. cbn [fst snd] in *.
    by rewrite Hmail, Hms.
Qed.

(** X24.  Whatever the number of messages pushed on a new queue, beyond
    its 64 initial slots too, as many pops return them in the order of
    the pushes, each with its event and its data (or the text of an empty
    object when none was given); the queue is then empty and a further pop
    returns nothing. *)
Theorem l3_queue_push_pop_fifo (msgs : list (string * option string)) :
  map (option_map (fun m => (event m, data m)))
      (fst (pop_n (length msgs) (push_all msgs l3_queue_create)))
  = map (fun m => Some (fst m, default "{}"%string (snd m))) msgs /\
  count (snd (pop_n (length msgs) (push_all msgs l3_queue_create))) = 0 /\
  fst (l3_queue_pop (snd (pop_n (length msgs) (push_all msgs l3_queue_create))))
  = None.
Proof.
  destruct (push_all_mailbox msgs l3_queue_create queue_create_wf) as [Hwf Hm].
  change (mailbox l3_queue_create) with (@nil L3_Message) in Hm. simpl in Hm.
  destruct (pop_n_mailbox (length msgs) (push_all msgs l3_queue_create) Hwf)
    as (Hpop & Hc & _); [by rewrite Hm, length_map|].
  split; [|split; [done|]].
  - rewrite Hpop, Hm, !map_map. done.
  - unfold l3_queue_pop. by rewrite Hc.
Qed.

(** *** Ticks *)

(** X25.  A tick on a runtime whose mailboxes are all empty changes
    nothing, and returns without running any handler. *)
Theorem l3_tick_idle (fuel : nat) (rt : L3_ActorRuntime) :
  rt_wf rt -> (forall j, mailbox_of rt j = []) -> l3_tick fuel rt = Some rt.
Proof.
  intros Hwf Hidle. unfold l3_tick.
  generalize (length (actors rt)) at 1. intros n. generalize 0%nat.
  induction n as [|n IH]; intros i; simpl; [done|].
  destruct (_ <=? _)%nat; [done|].
  assert (tick_actor fuel rt i = Some rt) as ->; [|apply IH].
  unfold tick_actor. specialize (Hidle i). unfold mailbox_of in Hidle.
  destruct (message_queues rt !! i) as [q|] eqn:Hq; [|done].
  pose proof (proj1 (Forall_lookup _ _) (proj2 Hwf) i q Hq) as Hqwf.
  apply (mailbox_empty q Hqwf) in Hidle. rewrite Hidle. done.
Qed.

(** What a tick cannot change in an actor. *)
Definition identity (a : L3_Actor) : Z * string * string * list L3_Handler :=
  (id a, name a, role a, handlers a).

(** From [rt] to [rt'] the actors keep their identity and the runtime its
    next identifier and its running flag. *)
Definition same_actors (rt rt' : L3_ActorRuntime) : Prop :=
  map identity (actors rt') = map identity (actors rt) /\
  next_actor_id rt' = next_actor_id rt /\ running rt' = running rt.

Lemma same_actors_refl rt : same_actors rt rt.
Proof. done. Qed.

Lemma same_actors_trans rt1 rt2 rt3 :
  same_actors rt1 rt2 -> same_actors rt2 rt3 -> same_actors rt1 rt3.
Proof. intros (? & ? & ?) (? & ? & ?). repeat split; congruence. Qed.

Lemma same_actors_queues rt qs : same_actors rt (set_queues qs rt).
Proof. done. Qed.

Lemma same_actors_send rt actor_id ev dat :
  same_actors rt (snd (l3_send_message rt actor_id ev dat)).
Proof.
  unfold l3_send_message. destruct (find_actor _ _) as [i|]; [|done].
  destruct (message_queues rt !! i) as [q|]; [|done].
  by destruct (l3_queue_push q ev dat).
Qed.

Lemma identity_alter (f : L3_Actor -> L3_Actor) (i : nat) (l : list L3_Actor) :
  (forall a, identity (f a) = identity a) ->
  map identity (alter f i l) = map identity l.
Proof.
  intros Hf. apply list_eq. intros j. rewrite !list_lookup_fmap.
  destruct (decide (j = i)) as [->|Hne].
  - rewrite list_lookup_alter_eq. destruct (l !! i); simpl; [|done]. by rewrite Hf.
  - by rewrite list_lookup_alter_ne.
Qed.

Lemma same_actors_state_set c key value :
  same_actors (ctx_runtime c) (ctx_runtime (ctx_state_set c key value)).
Proof.
  unfold ctx_state_set. simpl. split; [|done]. by apply identity_alter.
Qed.

Definition keeps (c c' : L3_ExecutionContext) : Prop :=
  same_actors (ctx_runtime c) (ctx_runtime c').

Lemma keeps_trans c1 c2 c3 : keeps c1 c2 -> keeps c2 c3 -> keeps c1 c3.
Proof. apply same_actors_trans. Qed.

Lemma execute_line_keeps f trimmed c c' :
  l3_execute_line f trimmed c = Some c' -> keeps c c'.
Proof.
  unfold l3_execute_line. intros Hx.
  repeat match type of Hx with
         | (if ?b then _ else _) = _ => destruct b
         | match ?o with Some _ => _ | None => _ end = _ => destruct o
         end;
    try discriminate; injection Hx as <-;
    first [ apply same_actors_refl | apply same_actors_send
          | apply same_actors_state_set ].
Qed.

Lemma while_loop_keeps f cond body its c r :
  (forall c1 c2, body c1 = Some c2 -> keeps c1 c2) ->
  while_loop f cond body its c = Some r -> keeps c (fst r).
Proof.
  intros Hb. revert its c. induction f as [|f IH]; intros its c Hw; [done|].
  simpl in Hw. destruct (cond c) as [b|]; [|done].
  destruct (b && _).
  - destruct (body c) as [c1|] eqn:Hc1; [|done].
    eapply keeps_trans; [by apply Hb | by eapply IH].
  - injection Hw as <-. apply same_actors_refl.
Qed.

Lemma for_loop_keeps f body var i end_num c c' :
  (forall c1 c2, body c1 = Some c2 -> keeps c1 c2) ->
  for_loop f body var i end_num c = Some c' -> keeps c c'.
Proof.
  intros Hb. revert i c. induction f as [|f IH]; intros i c Hw; [done|].
  simpl in Hw. destruct (i <=? end_num)%Z.
  - destruct (body _) as [c1|] eqn:Hc1; [|done].
    apply (keeps_trans _ (l3_set_local c var (string_of_int i)));
      [apply same_actors_refl|].
    eapply keeps_trans; [by apply Hb | by eapply IH].
  - injection Hw as <-. apply same_actors_refl.
Qed.

Lemma execute_block_keeps f lines idx cnt base c c' :
  l3_execute_block f lines idx cnt base c = Some c' -> keeps c c'.
Proof.
  revert idx cnt base c c'.
  induction f as [|f IH]; intros idx cnt base c c' Hx; [done|].
  cbn [l3_execute_block] in Hx.
  destruct (cnt <=? idx)%nat; [injection Hx as <-; apply same_actors_refl|].
  destruct (_ || _); [by eapply IH|].
  destruct (_ && _); [injection Hx as <-; apply same_actors_refl|].
  destruct (l3_starts_with _ "if ").
  { destruct (l3_evaluate_condition _ _ _) as [b|]; [|done].
    destruct (collect_block _ _ _ _ _) as [if_end if_indent].
    destruct (b && _).
    - destruct (l3_execute_block f lines (S idx) if_end if_indent c) as [c1|] eqn:E1;
        [|done].
      eapply keeps_trans; by eapply IH.
    - by eapply IH. }
  destruct (l3_starts_with _ "while ").
  { destruct (collect_block _ _ _ _ _) as [while_end while_indent].
    destruct (while_loop _ _ _ _ _) as [[c1 its]|] eqn:E1; [|done].
    eapply keeps_trans; [|by eapply IH].
    refine (while_loop_keeps _ _ _ _ _ _ _ E1).
    intros c2 c3. destruct (negb _); [by apply IH|].
    intros [= <-]. apply same_actors_refl. }
  destruct (_ && _ && _).
  { destruct (l3_evaluate_expression f _ c) as [sv|]; [|done].
    destruct (l3_evaluate_expression f _ c) as [ev|]; [|done].
    destruct (collect_block _ _ _ _ _) as [for_end for_indent].
    destruct (for_loop _ _ _ _ _ _) as [c1|] eqn:E1; [|done].
    eapply keeps_trans; [|by eapply IH].
    refine (for_loop_keeps _ _ _ _ _ _ _ _ E1).
    intros c2 c3. destruct (negb _); [by apply IH|].
    intros [= <-]. apply same_actors_refl. }
  destruct (base <=? _)%Z.
  - destruct (l3_execute_line _ _ _) as [c1|] eqn:E1; [|done].
    eapply keeps_trans; [by eapply execute_line_keeps | by eapply IH].
  - by eapply IH.
Qed.

Lemma tick_actor_same_actors fuel rt i rt' :
  tick_actor fuel rt i = Some rt' -> same_actors rt rt'.
Proof.
  unfold tick_actor.
  destruct (message_queues rt !! i) as [q|]; [|by intros [= <-]].
  destruct (0 <? count q); [|by intros [= <-]].
  destruct (l3_queue_pop q) as [[m|] q']; [|by intros [= <-]].
  unfold handle_message. cbn [actors set_queues].
  destruct (actors rt !! i) as [a|]; [|by intros [= <-]].
  destruct (find_handler a (event m)) as [h|]; [|by intros [= <-]].
  unfold l3_execute_handler.
  destruct (l3_execute_block _ _ _ _ _ _) as [c'|] eqn:E; [|done].
  intros [= <-]. by apply (execute_block_keeps _ _ _ _ _ _ _ E).
Qed.

(** X26.  A tick neither adds nor removes an actor and changes no
    identifier, name, role or handler: handlers only write to states and
    mailboxes. *)
Theorem l3_tick_keeps_actors (fuel : nat) (rt rt' : L3_ActorRuntime) :
  l3_tick fuel rt = Some rt' ->
  map identity (actors rt') = map identity (actors rt) /\
  length (actors rt') = length (actors rt) /\
  next_actor_id rt' = next_actor_id rt /\ running rt' = running rt.
Proof.
  unfold l3_tick. generalize (length (actors rt)) at 1. intros n.
  generalize 0%nat. intros i Ht.
  assert (same_actors rt rt') as (Hid & Hnext & Hrun).
  { revert i rt Ht. induction n as [|n IH]; intros i rt; simpl; [by intros [= <-]|].
    destruct (_ <=? _)%nat; [by intros [= <-]|].
    destruct (tick_actor fuel rt i) as [rt1|] eqn:Ha; [|done]. intros Ht.
    eapply same_actors_trans; [by eapply tick_actor_same_actors | by eapply IH]. }
  split; [done|]. split; [|done].
  by rewrite <- (length_map identity (actors rt')), Hid, length_map.
Qed.

End Ticking.

Section TickingExamples.
Import LibC L3.

Lemma l3_tick_idle_witness :
  @l3_tick bare_platform 0 (spawn_all ping_pong l3_runtime_init)
  = Some (spawn_all ping_pong l3_runtime_init).
Proof.
  apply (@l3_tick_idle bare_platform 0 (spawn_all ping_pong l3_runtime_init)).
  - split; [reflexivity|]. repeat apply List.Forall_cons; try apply List.Forall_nil;
      apply queue_create_wf.
  - intros [|[|j]]; reflexivity.
Defined.

Lemma l3_tick_keeps_actors_witness :
  map identity (actors relay_ticked) = map identity (actors relay_runtime) /\
  length (actors relay_ticked) = length (actors relay_runtime) /\
  next_actor_id relay_ticked = next_actor_id relay_runtime /\
  running relay_ticked = running relay_runtime.
Proof.
  apply (@l3_tick_keeps_actors bare_platform 10 relay_runtime relay_ticked).
  vm_compute. reflexivity.
Defined.

End TickingExamples.

(** ** Undoing dissipative gates, and the MAYBE primitive *)

Section DissipativeUndo.
Import LibC R D.

Lemma NOT_length rt a :
  length (qubits (memory (snd (r_execute_NOT rt a)))) = length (qubits (memory rt)).
Proof.
  unfold r_execute_NOT. destruct (_ <=? _); [done|]. simpl. apply length_qset.
Qed.

Lemma CNOT_length rt a b :
  length (qubits (memory (snd (r_execute_CNOT rt a b))))
  = length (qubits (memory rt)).
Proof.
  unfold r_execute_CNOT. destruct (_ || _); [done|].
  destruct (negb _); [|done]. simpl. apply length_qset.
Qed.

Lemma CCNOT_length rt a b c :
  length (qubits (memory (snd (r_execute_CCNOT rt a b c))))
  = length (qubits (memory rt)).
Proof.
  unfold r_execute_CCNOT. destruct (_ || _); [done|].
  destruct (_ && _); [|done]. simpl. apply length_qset.
Qed.

Lemma write_length rt a v :
  length (qubits (memory (snd (r_write_qubit rt a v))))
  = length (qubits (memory rt)).
Proof.
  unfold r_write_qubit. destruct (_ <=? _); [done|]. simpl. apply length_qset.
Qed.

Lemma AND_length rt a b r :
  length (bits (snd (d_execute_AND rt a b r))) = length (bits rt) /\
  ancilla_start (snd (d_execute_AND rt a b r)) = ancilla_start rt /\
  ancilla_count (snd (d_execute_AND rt a b r)) = ancilla_count rt.
Proof.
  unfold d_execute_AND, bits.
  destruct (r_execute_CCNOT _ a b r) as [ok r2] eqn:Hc.
  cbn [snd set_r r_runtime ancilla_start ancilla_count].
  split; [|done].
  change r2 with (snd (ok, r2)). rewrite <- Hc, CCNOT_length.
  destruct (negb _); [apply NOT_length|done].
Qed.

Lemma OR_length rt a b r :
  length (bits (snd (d_execute_OR rt a b r))) = length (bits rt) /\
  ancilla_start (snd (d_execute_OR rt a b r)) = ancilla_start rt /\
  ancilla_count (snd (d_execute_OR rt a b r)) = ancilla_count rt.
Proof.
  unfold d_execute_OR. destruct (_ <? _); [done|]. cbn [snd].
  match goal with
  | |- context [d_execute_AND ?d ?x ?y ?z] =>
      destruct (AND_length d x y z) as (Hl & Hs & Hc)
  end.
  unfold bits in *. cbn [set_r r_runtime ancilla_start ancilla_count] in *.
  split; [|done].
  by rewrite NOT_length, Hl, NOT_length, write_length, NOT_length, write_length.
Qed.

(** The five dissipative gates. *)
Inductive D_Gate := gate_AND | gate_OR | gate_NAND | gate_NOR | gate_XOR.

Definition d_execute (g : D_Gate) : D_Runtime -> N -> N -> N -> bool * D_Runtime :=
  match g with
  | gate_AND => d_execute_AND
  | gate_OR => d_execute_OR
  | gate_NAND => d_execute_NAND
  | gate_NOR => d_execute_NOR
  | gate_XOR => d_execute_XOR
  end.

Lemma d_execute_length g rt a b r :
  length (bits (snd (d_execute g rt a b r))) = length (bits rt) /\
  ancilla_start (snd (d_execute g rt a b r)) = ancilla_start rt /\
  ancilla_count (snd (d_execute g rt a b r)) = ancilla_count rt.
Proof.
  destruct g; cbn [d_execute].
  - apply AND_length.
  - apply OR_length.
  - unfold d_execute_NAND. cbn [snd].
    destruct (AND_length rt a b r) as (Hl & Hs & Hc).
    unfold bits in *. cbn [set_r r_runtime ancilla_start ancilla_count].
    by rewrite NOT_length.
  - unfold d_execute_NOR. cbn [snd].
    destruct (OR_length rt a b r) as (Hl & Hs & Hc).
    unfold bits in *. cbn [set_r r_runtime ancilla_start ancilla_count].
    by rewrite NOT_length.
  - unfold d_execute_XOR, bits. cbn [snd set_r r_runtime ancilla_start ancilla_count].
    split; [|done]. rewrite !CNOT_length.
    destruct (negb _); [apply NOT_length|done].
Qed.

(** X27.  A dissipative gate overwrites its result bit, and [OR] and
    [NOR] their ancillas, but a checkpoint taken before the gate undoes
    it: whatever the gate and its bit indices, restoring the checkpoint
    succeeds and gives back the bit array, ancillas included, as it was
    when the checkpoint was taken. *)
Theorem d_restore_checkpoint_undoes_gate (g : D_Gate) (rt : D_Runtime)
    (a b result : N) (label : option string) (now : Z) :
  fst (d_restore_checkpoint
         (snd (d_execute g (snd (d_save_checkpoint rt label now)) a b result))
         (Some (fst (d_save_checkpoint rt label now)))) = true /\
  bits (snd (d_restore_checkpoint
               (snd (d_execute g (snd (d_save_checkpoint rt label now)) a b result))
               (Some (fst (d_save_checkpoint rt label now))))) = bits rt.
Proof.
  destruct (d_execute_length g (snd (d_save_checkpoint rt label now)) a b result)
    as (Hl & _ & _).
  unfold d_restore_checkpoint, r_restore_checkpoint, d_save_checkpoint in *.
  cbn [r_save_checkpoint fst snd] in *.
  unfold cp_qubit_count, qubit_count, bits in *.
  cbn [qubit_state set_r r_runtime memory qubits] in *.
  rewrite Hl, N.eqb_refl. done.
Qed.

(** X28.  A MAYBE is resolved at most once.  A new MAYBE is unresolved
    and its first [d_resolve_maybe] succeeds; a successful call fixes the
    value, marks the MAYBE as resolved and keeps the data pointer; a
    failed call changes nothing; and after any call every further call
    fails and changes nothing. *)
Theorem d_resolve_maybe_once (maybe : option D_Maybe) (data : N) (v w : bool) :
  d_is_resolved (Some (d_create_maybe data)) = false /\
  fst (d_resolve_maybe (Some (d_create_maybe data)) v) = true /\
  d_resolve_maybe (snd (d_resolve_maybe maybe v)) w
  = (false, snd (d_resolve_maybe maybe v)) /\
  (if fst (d_resolve_maybe maybe v)
   then d_is_resolved maybe = false /\
        d_is_resolved (snd (d_resolve_maybe maybe v)) = true /\
        value <$> snd (d_resolve_maybe maybe v) = Some v /\
        superposition_data <$> snd (d_resolve_maybe maybe v)
        = superposition_data <$> maybe
   else snd (d_resolve_maybe maybe v) = maybe).
Proof.
  split; [done|]. split; [done|].
  destruct maybe as [[[] val ptr]|]; simpl; repeat split.
Qed.

(** *** Bits stay bits *)

Lemma lxor_1_bit (v : Z) : (v = 0 \/ v = 1)%Z -> (Z.lxor v 1 = 0 \/ Z.lxor v 1 = 1)%Z.
Proof. intros [->| ->]; [by right|by left]. Qed.

Lemma qget_bit (q : list Z) (a : N) : bits_ok q -> (qget q a = 0 \/ qget q a = 1)%Z.
Proof.
  intros Hq. unfold qget. destruct (q !! N.to_nat a) as [v|] eqn:Hv; [|by left].
  exact (proj1 (Forall_lookup _ q) Hq _ _ Hv).
Qed.

Lemma gates_keep_bits rt :
  bits_ok (qubits (memory rt)) ->
  (forall a, bits_ok (qubits (memory (snd (r_execute_NOT rt a))))) /\
  (forall a b, bits_ok (qubits (memory (snd (r_execute_CNOT rt a b))))) /\
  (forall a b c, bits_ok (qubits (memory (snd (r_execute_CCNOT rt a b c))))) /\
  (forall a b, bits_ok (qubits (memory (snd (r_execute_SWAP rt a b))))).
Proof.
  intros Hq. repeat split; intros;
    unfold r_execute_NOT, r_execute_CNOT, r_execute_CCNOT, r_execute_SWAP;
    repeat match goal with
           | |- context [if ?x then _ else _] => destruct x
           end; simpl; try done;
    repeat apply bits_ok_qset; try done;
    first [ apply lxor_1_bit; by apply qget_bit | by apply qget_bit ].
Qed.

Lemma SWAP_length rt a b :
  length (qubits (memory (snd (r_execute_SWAP rt a b))))
  = length (qubits (memory rt)).
Proof.
  unfold r_execute_SWAP. destruct (_ || _); [done|]. simpl.
  by rewrite !length_qset.
Qed.

Lemma dispatch_gate_bits rt c :
  bits_ok (qubits (memory rt)) ->
  bits_ok (qubits (memory (snd (dispatch_gate rt c)))) /\
  length (qubits (memory (snd (dispatch_gate rt c)))) = length (qubits (memory rt)).
Proof.
  intros Hq. destruct (gates_keep_bits rt Hq) as (Hn & Hc & Hcc & Hs).
  unfold dispatch_gate.
  destruct (_ && _); [split; [apply Hcc|apply CCNOT_length]|].
  destruct (_ && _); [split; [apply Hc|apply CNOT_length]|].
  destruct (_ && _); [split; [apply Hn|apply NOT_length]|].
  destruct (_ && _); [split; [apply Hs|apply SWAP_length]|].
  done.
Qed.

(** X29.  The bit array only ever holds 0 and 1: a new runtime starts
    with zeros, and a gate, the execution of a cell or a write of any
    value, whether it succeeds or fails, leaves every bit 0 or 1 and the
    number of bits unchanged. *)
Theorem bits_stay_bits (rt : R_Runtime) :
  bits_ok (qubits (memory rt)) ->
  (forall n inst, bits_ok (qubits (memory (r_runtime_init n inst)))) /\
  (forall p, bits_ok (qubits (memory (snd (r_execute_cell rt p)))) /\
             length (qubits (memory (snd (r_execute_cell rt p))))
             = length (qubits (memory rt))) /\
  (forall index v, bits_ok (qubits (memory (snd (r_write_qubit rt index v)))) /\
                   length (qubits (memory (snd (r_write_qubit rt index v))))
                   = length (qubits (memory rt))).
Proof.
  intros Hq. split; [intros; apply bits_ok_repeat|]. split.
  - intros p. unfold r_execute_cell.
    destruct (cells (memory rt) !! p) as [c|]; [|done].
    destruct (executed c); [done|].
    destruct (dispatch_gate_bits rt c Hq) as [Hb Hl].
    destruct (dispatch_gate rt c) as [[] rt1]; done.
  - intros index v. split; [|apply write_length].
    unfold r_write_qubit. destruct (_ <=? _); [done|]. simpl.
    apply bits_ok_qset; [done|].
    assert (Z.land v 1 = v mod 2)%Z as ->
      by (change 1%Z with (Z.ones 1); by apply Z.land_ones).
    pose proof (Z.mod_pos_bound v 2 eq_refl). lia.
Qed.

Lemma bits_stay_bits_witness :
  (forall n inst, bits_ok (qubits (memory (r_runtime_init n inst)))) /\
  (forall p, bits_ok (qubits (memory (snd (r_execute_cell (snd one_not_cell) p)))) /\
             length (qubits (memory (snd (r_execute_cell (snd one_not_cell) p))))
             = length (qubits (memory (snd one_not_cell)))) /\
  (forall index v,
      bits_ok (qubits (memory (snd (r_write_qubit (snd one_not_cell) index v)))) /\
      length (qubits (memory (snd (r_write_qubit (snd one_not_cell) index v))))
      = length (qubits (memory (snd one_not_cell)))).
Proof.
  apply (bits_stay_bits (snd one_not_cell)).
  apply List.Forall_cons; [by left|apply List.Forall_nil].
Defined.

End DissipativeUndo.

(** ** Counted loops of the interpreter *)

Section ForLoops.
Import LibC L3.

(** [n] rounds of a counted loop from [i]: the loop variable is set to
    the decimal text of the counter, then the body [g] runs. *)
Fixpoint for_rounds (g : L3_ExecutionContext -> L3_ExecutionContext)
    (var : string) (n : nat) (i : Z) (ctx : L3_ExecutionContext)
  : L3_ExecutionContext :=
  match n with
  | O => ctx
  | S n' => for_rounds g var n' (i + 1) (g (l3_set_local ctx var (string_of_int i)))
  end.

(** X30.  A [for] loop whose bounds are [int] values, the upper one
    below [INT_MAX], and whose body always returns, ends: it runs the body
    once for each value from the lower to the upper bound, in increasing
    order, with the loop variable set to the decimal text of the value
    before each round, and not at all when the lower bound is above the
    upper one. *)
Theorem for_loop_rounds (fuel : nat)
    (body : L3_ExecutionContext -> option L3_ExecutionContext)
    (g : L3_ExecutionContext -> L3_ExecutionContext)
    (var : string) (i end_num : Z) (ctx : L3_ExecutionContext) :
  (forall c, body c = Some (g c)) ->
  (- 2 ^ 31 <= i)%Z -> (end_num < INT_MAX)%Z ->
  (Z.to_nat (end_num - i + 1) < fuel)%nat ->
  for_loop fuel body var i end_num ctx
  = Some (for_rounds g var (Z.to_nat (end_num - i + 1)) i ctx).
Proof.
  intros Hbody. revert i ctx.
  induction fuel as [|fuel IH]; intros i ctx Hi Hend Hfuel; [lia|].
  simpl. destruct (Z.leb_spec i end_num) as [Hle|Hgt].
  - rewrite Hbody.
    assert (to_int (i + 1) = (i + 1)%Z) as ->.
    { unfold to_int, INT_MAX in *. rewrite Z.mod_small by lia. lia. }
    rewrite IH by lia.
    replace (Z.to_nat (end_num - i + 1)) with (S (Z.to_nat (end_num - (i + 1) + 1)))
      by lia.
    done.
  - by replace (Z.to_nat (end_num - i + 1)) with 0%nat by lia.
Qed.

Lemma for_loop_rounds_witness :
  for_loop 5 (fun c => Some c) "i" 1 3 empty_context
  = Some (for_rounds (fun c => c) "i" (Z.to_nat (3 - 1 + 1)) 1 empty_context).
Proof.
  apply (for_loop_rounds 5 (fun c => Some c) (fun c => c) "i" 1 3 empty_context).
  - done.
  - done.
  - done.
  - simpl. lia.
Defined.

End ForLoops.

